(** * cosmopp: the L-BFGS front end ([lbfgs.hpp]) and its test program

    A shallow embedding of [src/include/lbfgs.hpp] and
    [src/source/lbfgs_test.cpp], with the properties of the optimizer that
    the specification states.

    Conventions.
    - [int] is a 32-bit two's complement integer, kept as a [Z] with the
      wrap-around written out ([wrap32]).
    - [double] is idealised as a real number ([R]); [std::pow(v, 2)] is
      [v ^ 2].  There is no NaN and no infinity, so the NonFiniteValue abort
      of the specification has no counterpart here.
    - [std::vector<double>] is a [list R].
    - [check(c, msg)] (from [macros.hpp], not among the sources) raises when
      [c] is false.
    - C++ exceptions are the [Raise] case of [result]; a computation with
      effects ([M]) hands back the world in which the exception was raised.
    - The front end is embedded from the source.  The generic engine
      [LBFGS_General] and the bodies of the vector operations are not among
      the sources; they are modelled from the specification, and each such
      definition says so.

    The definitions come first, the properties after them. *)

From Stdlib Require Import ZArith List Reals Lra Lia Bool Ascii String.
From Stdlib Require Import DecimalString DecimalZ DecimalPos.
From stdpp Require Import gmap list strings.
Import ListNotations.

(** ** Machine integers *)

Definition wrap32 (z : Z) : Z := ((z + 2 ^ 31) mod 2 ^ 32 - 2 ^ 31)%Z.
Definition int_add (a b : Z) : Z := wrap32 (a + b).
Definition int_mul (a b : Z) : Z := wrap32 (a * b).
Definition in_int (z : Z) : Prop := (- 2 ^ 31 <= z < 2 ^ 31)%Z.

(** ** Exceptions *)

Inductive exn : Type :=
  | CheckFailed          (* a failed [check(...)] *)
  | LengthError          (* [std::length_error] of [std::vector] *)
  | NullCall             (* a call through a null function pointer *)
  | DimensionMismatch.   (* the DimensionMismatch / DimensionError condition *)

Inductive result (A : Type) : Type :=
  | Ok (a : A)
  | Raise (e : exn).
Arguments Ok {A} a.
Arguments Raise {A} e.

#[global] Instance result_ret : MRet result := fun A a => Ok a.
#[global] Instance result_bind : MBind result := fun A B k r =>
  match r with
  | Ok a => k a
  | Raise e => Raise e
  end.

Definition check (c : bool) : result unit :=
  if c then Ok tt else Raise CheckFailed.

(** ** Finite sums of reals: [rsum F a k] is F a + F (a+1) + ... + F (a+k-1) *)

Fixpoint rsum (F : nat -> R) (a k : nat) : R :=
  match k with
  | O => 0%R
  | S k' => (F a + rsum F (S a) k')%R
  end.

(** ** The test program, [lbfgs_test.cpp] *)

Module LBFGSTest.
Section Funcs.
Local Open Scope R_scope.

(** [CosmoMPI::create().processId()]; 0 when there is one process. *)
Variable processId : Z.
(** The member [n_] of both function objects. *)
Variable n_ : Z.

(** [i + processId * n_] *)
Definition shifted (i : Z) : Z := int_add i (int_mul processId n_).
(** [(i + processId * n_ + 1) * (i + processId * n_ + 1)] *)
Definition denom (i : Z) : Z :=
  int_mul (int_add (shifted i) 1) (int_add (shifted i) 1).
(** [2 * (i + processId * n_ + 1) * (i + processId * n_ + 1)],
    which C++ parses as (2 * a) * a *)
Definition denom2 (i : Z) : Z :=
  int_mul (int_mul 2 (int_add (shifted i) 1)) (int_add (shifted i) 1).

(** [x[i]] *)
Definition at_ (x : list R) (i : Z) : R := nth (Z.to_nat i) x 0.

(** The values taken by [i] in [for(int i = 0; i < n_; ++i)]. *)
Definition indices : list Z := map Z.of_nat (seq 0 (Z.to_nat n_)).

(** [LBFGSFunc::evaluate]; without COSMO_MPI [totalRes] is [res]. *)
Definition LBFGSFunc_evaluate (x : list R) : result R :=
  check (Z.of_nat (length x) =? n_)%Z ;;
  let res :=
    fold_left
      (fun res i => res + (at_ x i - IZR (shifted i)) ^ 2 / IZR (denom2 i))
      indices 0 in
  let totalRes := res in
  Ok (totalRes * totalRes / 2).

(** [std::vector::resize]: truncate, or pad with zeros. *)
Definition resize (n : nat) (v : list R) : list R :=
  firstn n v ++ repeat 0 (n - length v).

(** [LBFGSFuncGrad::evaluate]; [res] comes in with the caller's contents
    and the new contents are returned.  [res->at(i)] is in range after the
    resize, so the assignment is a list update. *)
Definition LBFGSFuncGrad_evaluate (x : list R) (res : list R)
  : result (list R) :=
  check (Z.of_nat (length x) =? n_)%Z ;;
  let res := resize (Z.to_nat n_) res in
  let sum :=
    fold_left
      (fun sum i => sum + (at_ x i - IZR (shifted i)) ^ 2 / IZR (denom i))
      indices 0 in
  let totalSum := sum in
  Ok (fold_left
        (fun res i =>
           <[Z.to_nat i :=
               (at_ x i - IZR (shifted i)) * totalSum / IZR (denom2 i)]> res)
        indices res).
End Funcs.

(** The quantities of the mathematical statement: for a point of size n,
  [Sx x] is the sum over i < n of (x_i - i)^2 / (i+1)^2 and the objective
  is [Sx x]^2 / 8. *)
Definition S_term (i : nat) (t : R) : R := ((t - INR i) ^ 2 / (INR i + 1) ^ 2)%R.
Definition Sx (x : list R) : R := rsum (fun i => S_term i (nth i x 0%R)) 0 (length x).
Definition objective (x : list R) : R := ((Sx x) ^ 2 / 8)%R.
(** Component i of the claimed gradient. *)
Definition gradient_at (x : list R) (i : nat) : R :=
  ((nth i x 0 - INR i) * Sx x / (2 * (INR i + 1) ^ 2))%R.


(** A point of size k + 2: (1, 1, 2, ..., k, k + 2).  It differs from
  (0, 1, ..., k + 1) in its first and in its last coordinate only. *)
Definition x_fail_gen (k : nat) : list R :=
  1%R :: map INR (seq 1 k) ++ [(INR (S k) + 1)%R].
(** The point (1, 1, 2, 3, ..., 32766, 32768) of size 32768. *)
Definition x_fail : list R := x_fail_gen (Z.to_nat 32766).

End LBFGSTest.

(** ** The world of the front end

  What a run of the optimizer does to its surroundings: the calls of the
  external objective and gradient, the calls of the user's progress
  function, and the static member [LBFGS::cb_]. *)

(** A pointer to a user function: [None] is NULL, [Some c] the function at
  address [c]. *)
Definition fnptr : Type := option nat.

Inductive Event : Type :=
  | EvObjective (x : list R)                           (* f_.evaluate(x) *)
  | EvGradient (x : list R)                            (* grad_.evaluate(x, res) *)
  | EvCallback (c : nat) (it : Z) (f gn : R) (x : list R).  (* c(it, f, gn, x) *)

Record World : Type := mkWorld {
  cb_ : fnptr;           (* the static member cb_ of LBFGS *)
  trace : list Event     (* the external calls so far, oldest first *)
}.

(** State and exceptions; an exception keeps the world it was raised in. *)
Record M (A : Type) : Type := mkM { run : World -> result A * World }.
Arguments mkM {A} run.
Arguments run {A} m w.

#[global] Instance M_ret : MRet M := fun A a => mkM (fun w => (Ok a, w)).
#[global] Instance M_bind : MBind M := fun A B k c =>
  mkM (fun w =>
         match run c w with
         | (Ok a, w') => run (k a) w'
         | (Raise e, w') => (Raise e, w')
         end).

Definition raise {A} (e : exn) : M A := mkM (fun w => (Raise e, w)).
Definition lift {A} (r : result A) : M A := mkM (fun w => (r, w)).
Definition emit (ev : Event) : M unit :=
  mkM (fun w => (Ok tt, mkWorld (cb_ w) (trace w ++ [ev]))).
Definition read_cb : M fnptr := mkM (fun w => (Ok (cb_ w), w)).
Definition write_cb (p : fnptr) : M unit :=
  mkM (fun w => (Ok tt, mkWorld p (trace w))).

(** The user functions of the program.  [user c it f gn x w] is what the
  function at address [c] does when it is called with (it, f, gn, x) in the
  world [w]: it returns or throws, and it leaves a pointer in [cb_] (user
  code reaches the static member through a call of [LBFGS::minimize] of its
  own).  What it does may depend on everything that happened before. *)
Definition UserCode : Type :=
  nat -> Z -> R -> R -> list R -> World -> result unit * fnptr.

(** The user function at [c] runs. *)
Definition run_user (user : UserCode) (c : nat) (it : Z) (f gn : R)
           (x : list R) : M unit :=
  mkM (fun w => let '(r, p) := user c it f gn x w in (r, mkWorld p (trace w))).

(** A call [p(it, f, gn, x)] through a function pointer: the call is
  recorded, then the function runs. *)
Definition call_fnptr (user : UserCode) (p : fnptr) (it : Z) (f gn : R)
           (x : list R) : M unit :=
  match p with
  | Some c => emit (EvCallback c it f gn x) ;; run_user user c it f gn x
  | None => raise NullCall
  end.

Definition is_callback (ev : Event) : bool :=
  match ev with
  | EvCallback _ _ _ _ _ => true
  | _ => false
  end.

Definition is_objective (ev : Event) : bool :=
  match ev with
  | EvObjective _ => true
  | _ => false
  end.

Definition is_gradient (ev : Event) : bool :=
  match ev with
  | EvGradient _ => true
  | _ => false
  end.

(** ** The three interfaces of the generic engine

    [LBFGS_General<LargeVector, LargeVectorFactory, Function>] is a template
    over a vector type, a factory and a function binding; the operations are
    those declared for [BasicLargeVector], [BasicLargeVectorFactory] and
    [BasicLBFGSFunc].  Operations that change [this] return its new value.
    [dim] and [configured_dim] are the logical dimension of a vector and the
    dimension a factory is configured with, of which the specification
    speaks; the classes of the source have no member for them. *)

Class LargeVector (V : Type) : Type := {
  dim : V -> nat;
  copy : V -> V -> R -> result V;       (* this.copy(other, c) *)
  setToZero : V -> V;
  norm : V -> R;
  dotProduct : V -> V -> result R;
  add : V -> V -> R -> result V;        (* this.add(other, c) *)
  swap : V -> V -> V * V
}.

Class LargeVectorFactory (Fa V : Type) : Type := {
  giveMeOne : Fa -> result V;
  configured_dim : Fa -> nat
}.

Class Function (F V : Type) : Type := {
  set : F -> V -> F;
  value : F -> M (R * F);
  derivative : F -> V -> M (V * F)      (* derivative(&res): the new res *)
}.

(** ** [BasicLargeVector] *)

(** The data member [v_], read and written through [contents()]. *)
Record BasicLargeVector : Type := mkVec { contents : list R }.

(** [BasicLargeVector(int n) : v_(n, 0)].  The size parameter of
  [std::vector] is unsigned: a negative [n] converts to a size above
  [max_size()], for which the constructor throws [std::length_error]. *)
Definition BasicLargeVector_new (n : Z) : result BasicLargeVector :=
  if (n <? 0)%Z then Raise LengthError
  else Ok (mkVec (repeat 0%R (Z.to_nat n))).

(** The member functions [copy], [setToZero], [norm], [dotProduct], [add]
    and [swap] are declared in [lbfgs.hpp]; their bodies are in a source file
    that is not among the sources.  They are modelled from section 3 of the
    specification, and an operation on two vectors of different dimensions
    fails with DimensionMismatch (section 4.1). *)

(** Modelled from the spec: two vectors have the same logical dimension. *)
Definition same_dim (u v : BasicLargeVector) : bool :=
  Nat.eqb (length (contents u)) (length (contents v)).

(** Modelled from the spec: [copy(other, c)], this := c * other. *)
Definition Basic_copy (this other : BasicLargeVector) (c : R)
  : result BasicLargeVector :=
  if same_dim this other
  then Ok (mkVec (map (fun b => c * b)%R (contents other)))
  else Raise DimensionMismatch.

(** Modelled from the spec: [setToZero], all elements become 0. *)
Definition Basic_setToZero (this : BasicLargeVector) : BasicLargeVector :=
  mkVec (map (fun _ => 0%R) (contents this)).

(** Modelled from the spec: the Euclidean inner product of two sequences. *)
Definition dot (u v : list R) : R :=
  fold_right Rplus 0%R (zip_with Rmult u v).

(** Modelled from the spec: [dotProduct(other)]. *)
Definition Basic_dotProduct (this other : BasicLargeVector) : result R :=
  if same_dim this other
  then Ok (dot (contents this) (contents other))
  else Raise DimensionMismatch.

(** Modelled from the spec: [norm()], the Euclidean norm. *)
Definition Basic_norm (this : BasicLargeVector) : R :=
  sqrt (dot (contents this) (contents this)).

(** Modelled from the spec: [add(other, c)], this += c * other. *)
Definition Basic_add (this other : BasicLargeVector) (c : R)
  : result BasicLargeVector :=
  if same_dim this other
  then Ok (mkVec (zip_with (fun a b => a + c * b)%R (contents this) (contents other)))
  else Raise DimensionMismatch.

(** Modelled from the spec: [swap(other)] exchanges the storage. *)
Definition Basic_swap (this other : BasicLargeVector)
  : BasicLargeVector * BasicLargeVector := (other, this).

#[global] Instance BasicLargeVector_ops : LargeVector BasicLargeVector := {
  dim v := length (contents v);
  copy := Basic_copy;
  setToZero := Basic_setToZero;
  norm := Basic_norm;
  dotProduct := Basic_dotProduct;
  add := Basic_add;
  swap := Basic_swap
}.

(** ** [BasicLargeVectorFactory] *)

Record BasicLargeVectorFactory : Type := mkFactory { n_ : Z }.

(** [BasicLargeVectorFactory(int n) : n_(n) { check(n_ >= 0, ...); }] *)
Definition BasicLargeVectorFactory_new (n : Z) : result BasicLargeVectorFactory :=
  check (0 <=? n)%Z ;; Ok (mkFactory n).

(** [giveMeOne() { return new BasicLargeVector(n_); }].  The new object has
  one owner, who keeps it by value here. *)
Definition Basic_giveMeOne (fa : BasicLargeVectorFactory) : result BasicLargeVector :=
  BasicLargeVector_new (n_ fa).

#[global] Instance BasicLargeVectorFactory_ops
  : LargeVectorFactory BasicLargeVectorFactory BasicLargeVector := {
  giveMeOne := Basic_giveMeOne;
  configured_dim fa := Z.to_nat (n_ fa)
}.

(** ** [BasicLBFGSFunc] *)

Section BasicLBFGSFunc.
(** [f_.evaluate(x)] and [grad_.evaluate(x, res)] of the two function
    objects the binding refers to ([RealFunctionMultiDim] and
    [RealFunctionMultiToMulti] come from a header that is not among the
    sources): [evaluate] is a const member of a const object, a function of
    its arguments that may throw.  For the gradient the second argument is
    the contents of [*res] before the call and the result its contents
    after. *)
Variable f_evaluate : list R -> result R.
Variable grad_evaluate : list R -> list R -> result (list R).

(** The one data member that is not a reference, [x_]. *)
Record BasicLBFGSFunc : Type := mkFunc { x_ : list R }.

(** [BasicLBFGSFunc(f, grad) : f_(f), grad_(grad) {}]: [x_] starts empty. *)
Definition BasicLBFGSFunc_new : BasicLBFGSFunc := mkFunc [].

(** [void set(const BasicLargeVector& x) { x_ = x.contents(); }] *)
Definition Basic_set (this : BasicLBFGSFunc) (x : BasicLargeVector)
  : BasicLBFGSFunc :=
  mkFunc (contents x).

(** [double value() { return f_.evaluate(x_); }] *)
Definition Basic_value (this : BasicLBFGSFunc) : M (R * BasicLBFGSFunc) :=
  emit (EvObjective (x_ this)) ;;
  v ← lift (f_evaluate (x_ this)) ;
  mret (v, this).

(** [void derivative(BasicLargeVector *res)
      { grad_.evaluate(x_, &(res->contents())); }] *)
Definition Basic_derivative (this : BasicLBFGSFunc) (res : BasicLargeVector)
  : M (BasicLargeVector * BasicLBFGSFunc) :=
  emit (EvGradient (x_ this)) ;;
  r ← lift (grad_evaluate (x_ this) (contents res)) ;
  mret (mkVec r, this).

#[global] Instance BasicLBFGSFunc_ops : Function BasicLBFGSFunc BasicLargeVector := {
  set := Basic_set;
  value := Basic_value;
  derivative := Basic_derivative
}.
End BasicLBFGSFunc.

(** ** The generic engine, [LBFGS_General]

    [lbfgs_general.hpp], which holds the engine, its history and its line
    search, is not among the sources.  Every definition of this part is
    modelled from sections 3, 4.3, 4.4 and 4.5 of the specification; the
    entry points are the three the front end calls (constructor,
    [setStarting], [minimize]).  The constants the specification leaves open
    (the Armijo constant, the contraction factor, the contraction budget and
    the curvature threshold) are parameters. *)

(** Modelled from the spec: the terminal states of section 4.5 that return
    normally.  The fourth, DimensionError, is the exception
    [DimensionMismatch]. *)
Inductive Status : Type := Converged | MaxIterExceeded | LineSearchFailed.

Section Engine.
Local Open Scope R_scope.
Context {V Fa F : Type}.
Context `{!LargeVector V} `{!LargeVectorFactory Fa V} `{!Function F V}.

Variable c1 : R.                  (* Armijo constant, e.g. 1e-4 *)
Variable contraction : R.         (* contraction factor, e.g. 0.5 *)
Variable max_contractions : nat.  (* contraction budget of one line search *)
Variable eps_curvature : R.       (* curvature threshold *)

(** *** HistoryBuffer (sections 3 and 4.3) *)

(** Modelled from the spec: a triple (s_k, y_k, rho_k). *)
Record HistoryEntry : Type := mkEntry { s_k : V; y_k : V; rho_k : R }.

(** Modelled from the spec: the buffer with its memory depth; [entries] is
    in chronological order, oldest first. *)
Record HistoryBuffer : Type := mkHistory {
  depth : nat;
  entries : list HistoryEntry
}.

(** Modelled from the spec: no stored pairs, as at the first iteration. *)
Definition hb_empty (m : nat) : HistoryBuffer := mkHistory m [].

(** Modelled from the spec: the insertion policy.  Reject (do not insert) if
    s . y <= eps_curvature; otherwise insert, with rho = 1 / (s . y),
    evicting the oldest entry if at capacity. *)
Definition hb_insert (hb : HistoryBuffer) (s y : V) : result HistoryBuffer :=
  sy ← dotProduct s y ;
  if Rle_dec sy eps_curvature then mret hb
  else
    let kept :=
      if (depth hb <=? length (entries hb))%nat
      then tail (entries hb) else entries hb in
    mret (mkHistory (depth hb) (kept ++ [mkEntry s y (1 / sy)])).

(** Modelled from the spec: two-loop recursion, step 2, from the most recent
    pair to the oldest: alpha_i = rho_i (s_i . q), q := q - alpha_i y_i.
    The alphas come back in the order of the traversal. *)
Fixpoint first_loop (newest_first : list HistoryEntry) (q : V)
  : result (V * list R) :=
  match newest_first with
  | [] => mret (q, [])
  | e :: rest =>
      sq ← dotProduct (s_k e) q ;
      let alpha := rho_k e * sq in
      q' ← add q (y_k e) (- alpha) ;
      '(q'', alphas) ← first_loop rest q' ;
      mret (q'', alpha :: alphas)
  end.

(** Modelled from the spec: step 3, the initial scaling
    gamma = (s_last . y_last) / (y_last . y_last), or 1 without pairs. *)
Definition initial_scaling (es : list HistoryEntry) : result R :=
  match last es with
  | Some e =>
      sy ← dotProduct (s_k e) (y_k e) ;
      yy ← dotProduct (y_k e) (y_k e) ;
      mret (sy / yy)
  | None => mret 1
  end.

(** Modelled from the spec: step 5, from the oldest pair to the most recent:
    beta_i = rho_i (y_i . r), r := r + (alpha_i - beta_i) s_i. *)
Fixpoint second_loop (oldest_first : list (HistoryEntry * R)) (r : V)
  : result V :=
  match oldest_first with
  | [] => mret r
  | (e, alpha) :: rest =>
      yr ← dotProduct (y_k e) r ;
      let beta := rho_k e * yr in
      r' ← add r (s_k e) (alpha - beta) ;
      second_loop rest r'
  end.

(** Modelled from the spec: steps 1 to 6 (q := g; first loop; gamma;
    r := gamma q; second loop; direction = - r).  [work] is a vector of the
    run's shape, made by the factory at setup, that receives the
    copies. *)
Definition direction (work : V) (hb : HistoryBuffer) (g : V) : result V :=
  q0 ← copy work g 1 ;
  '(q, alphas) ← first_loop (rev (entries hb)) q0 ;
  gamma ← initial_scaling (entries hb) ;
  r0 ← copy work q gamma ;
  r ← second_loop (zip (entries hb) (rev alphas)) r0 ;
  copy work r (- 1).

(** *** LineSearch (section 4.4) *)

(** Modelled from the spec: Armijo backtracking.  A trial evaluates the
    objective at x + t d through [set] and [value]; the step is accepted when
    f(x + t d) <= f0 + c1 t (g0 . d), else t shrinks by the contraction
    factor; the search fails when the budget of contractions is used up. *)
Fixpoint backtrack (budget : nat) (work : V) (fn : F) (x d : V)
         (f0 slope t : R) : M (option (R * V * R) * F) :=
  x0 ← lift (copy work x 1) ;
  xt ← lift (add x0 d t) ;
  '(ft, fn') ← value (set fn xt) ;
  if Rle_dec ft (f0 + c1 * t * slope) then mret (Some (t, xt, ft), fn')
  else
    match budget with
    | O => mret (None, fn')
    | S budget' => backtrack budget' work fn' x d f0 slope (t * contraction)
    end.

(** Modelled from the spec: the line search starts from t = 1. *)
Definition line_search (work : V) (fn : F) (x d : V) (f0 : R) (g0 : V)
  : M (option (R * V * R) * F) :=
  slope ← lift (dotProduct g0 d) ;
  backtrack max_contractions work fn x d f0 slope 1.

(** *** LBFGSEngine (section 4.5) *)

(** Modelled from the spec: the OptimizerState of section 3. *)
Record OptimizerState : Type := mkState {
  st_x : V;          (* current iterate *)
  st_g : V;          (* current gradient *)
  st_f : R;          (* current function value *)
  st_iter : nat;     (* iteration counter *)
  st_step : R        (* last accepted step length *)
}.

(** Modelled from the spec: what the loop carries, the state, the history
    and the function binding.  [offered] is a ghost component: the candidate
    pairs (s, y) of the accepted steps so far, oldest first. *)
Record Loop : Type := mkLoop {
  opt : OptimizerState;
  hist : HistoryBuffer;
  fun_ : F;
  offered : list (V * V)
}.

(** Modelled from the spec: the progress callback, called with
    (iteration, f_new, ||g_new||, x_new). *)
Definition callback_t : Type := Z -> R -> R -> V -> M unit.

(** Modelled from the spec: the convergence check, ||g_new|| <= gNormTol or
    |f_new - f_old| <= epsilon max(1, |f_old|). *)
Definition converged (epsilon gNormTol : R) (f_old f_new gn : R) : bool :=
  if Rle_dec gn gNormTol then true
  else if Rle_dec (Rabs (f_new - f_old)) (epsilon * Rmax 1 (Rabs f_old))
       then true else false.

(** Modelled from the spec: one iteration.  Direction from the history; line
    search, whose failure ends the run with the point so far; gradient at the
    accepted point, evaluated once; s = x_new - x_old and y = g_new - g_old
    offered to the history; progress callback, if supplied; convergence
    check.  A verdict [None] means that the run goes on. *)
Definition iteration (work : V) (epsilon gNormTol : R)
           (cb : option callback_t) (l : Loop) : M (option Status * Loop) :=
  let st := opt l in
  d ← lift (direction work (hist l) (st_g st)) ;
  '(found, fn1) ← line_search work (fun_ l) (st_x st) d (st_f st) (st_g st) ;
  match found with
  | None => mret (Some LineSearchFailed, mkLoop st (hist l) fn1 (offered l))
  | Some (t, x_new, f_new) =>
      '(g_new, fn2) ← derivative fn1 work ;
      s0 ← lift (copy work x_new 1) ;
      s ← lift (add s0 (st_x st) (- 1)) ;
      y0 ← lift (copy work g_new 1) ;
      y ← lift (add y0 (st_g st) (- 1)) ;
      hist' ← lift (hb_insert (hist l) s y) ;
      let it := S (st_iter st) in
      let gn := norm g_new in
      match cb with
      | Some progress => progress (Z.of_nat it) f_new gn x_new
      | None => mret tt
      end ;;
      let l' := mkLoop (mkState x_new g_new f_new it t) hist' fn2
                       (offered l ++ [(s, y)]) in
      if converged epsilon gNormTol (st_f st) f_new gn
      then mret (Some Converged, l')
      else mret (None, l')
  end.

(** Modelled from the spec: the loop of iterations, which stops with
    MaxIterExceeded when the counter reaches the cap. *)
Fixpoint iterate (cap : nat) (work : V) (epsilon gNormTol : R)
         (cb : option callback_t) (l : Loop) : M (Status * Loop) :=
  match cap with
  | O => mret (MaxIterExceeded, l)
  | S cap' =>
      '(verdict, l') ← iteration work epsilon gNormTol cb l ;
      match verdict with
      | Some status => mret (status, l')
      | None => iterate cap' work epsilon gNormTol cb l'
      end
  end.

(** Modelled from the spec: the engine object holds the factory it was
    given, the starting point and the memory depth. *)
Record LBFGS_General : Type := mkEngine {
  eng_factory : Fa;
  eng_starting : V;
  eng_m : Z
}.

(** Modelled from the spec: the constructor and [setStarting] record the
    starting point; the state machine of section 4.5 runs in [minimize]. *)
Definition LBFGS_General_new (factory : Fa) (starting : V) (m : Z)
  : LBFGS_General := mkEngine factory starting m.

(** Modelled from the spec: see [LBFGS_General_new]. *)
Definition LBFGS_General_setStarting (this : LBFGS_General) (starting : V)
  : LBFGS_General := mkEngine (eng_factory this) starting (eng_m this).

(** Modelled from the spec: what every terminal state reports (status,
    final value, final gradient norm, iteration count) with the best iterate;
    [final_history] is a ghost component, the history at the end. *)
Record Report : Type := mkReport {
  status : Status;
  final_value : R;
  final_gnorm : R;
  iterations : nat;
  best : V;
  final_history : HistoryBuffer
}.

(** Modelled from the spec: the starting vector is neither zero-dimensional
    nor of a dimension other than the factory's. *)
Definition dimension_ok (this : LBFGS_General) : bool :=
  negb (dim (eng_starting this) =? 0)%nat
  && (dim (eng_starting this) =? configured_dim (eng_factory this))%nat.

(** Modelled from the spec: [minimize].  A zero-dimensional or
    mismatched-dimension starting vector goes to DimensionError at once;
    otherwise the function and the gradient are evaluated at the starting
    point and the loop runs.  On a terminal state other than DimensionError
    the best iterate is copied into [*res] and the report is returned. *)
Definition LBFGS_General_minimize (this : LBFGS_General) (fn : F) (res : V)
           (epsilon gNormTol : R) (maxIter : Z) (cb : option callback_t)
  : M (Report * V * F) :=
  if dimension_ok this then
    work ← lift (giveMeOne (eng_factory this)) ;
    x0 ← lift (copy work (eng_starting this) 1) ;
    '(f0, fn1) ← value (set fn x0) ;
    '(g0, fn2) ← derivative fn1 work ;
    '(status, l) ←
      iterate (Z.to_nat maxIter) work epsilon gNormTol cb
              (mkLoop (mkState x0 g0 f0 0 1)
                      (hb_empty (Z.to_nat (eng_m this))) fn2 []) ;
    res' ← lift (copy res (st_x (opt l)) 1) ;
    mret (mkReport status (st_f (opt l)) (norm (st_g (opt l)))
                   (st_iter (opt l)) (st_x (opt l)) (hist l),
          res', fun_ l)
  else raise DimensionMismatch.
End Engine.

(** ** The history that a run determines

    The candidate pairs of a run, in the order in which the iterations offer
    them, determine the buffer: the entries of the pairs that pass the
    curvature test, of which the last m are kept. *)

Section Window.
Local Open Scope R_scope.
Context {V : Type} `{!LargeVector V}.
Variable eps_curvature : R.

(** The entry stored for a candidate pair, if the pair is accepted. *)
Definition entry_of (p : V * V) : option HistoryEntry :=
  match dotProduct p.1 p.2 with
  | Ok sy =>
      if Rle_dec sy eps_curvature then None
      else Some (mkEntry p.1 p.2 (1 / sy))
  | Raise _ => None
  end.

(** The last [m] elements of a list, in their order. *)
Definition last_n {A} (m : nat) (l : list A) : list A :=
  drop (length l - m) l.

Definition window (m : nat) (cands : list (V * V)) : list HistoryEntry :=
  last_n m (omap entry_of cands).

(** An entry whose curvature product is above the threshold, with its
    scale. *)
Definition positive_curvature (e : @HistoryEntry V) : Prop :=
  exists sy, dotProduct (s_k e) (y_k e) = Ok sy /\
             eps_curvature < sy /\ rho_k e = 1 / sy.
End Window.

(** ** The front end, [class LBFGS] *)

Section LBFGS.
Variable f_evaluate : list R -> result R.
Variable grad_evaluate : list R -> list R -> result (list R).
Variable c1 contraction : R.
Variable max_contractions : nat.
Variable eps_curvature : R.
(** The functions that the callback pointers of the program point to. *)
Variable user : UserCode.

#[local] Instance LBFGS_func_ops : Function BasicLBFGSFunc BasicLargeVector :=
  BasicLBFGSFunc_ops f_evaluate grad_evaluate.

(** The data members.  [s_] and [lbfgs_] point to objects that only this
    object reaches, so they are kept by value; the engine reaches [f_]
    through the pointer it was constructed with, so [f_] goes into and comes
    out of every engine call. *)
Record LBFGS : Type := mkLBFGS {
  factory_ : BasicLargeVectorFactory;
  f_ : BasicLBFGSFunc;
  s_ : BasicLargeVector;
  lbfgs_ : @LBFGS_General BasicLargeVector BasicLargeVectorFactory
}.

(** [LBFGS(int n, f, grad, starting, int m = 10) : factory_(n), f_(f, grad)
    { s_ = factory_.giveMeOne(); s_->contents() = starting;
      lbfgs_.reset(new LBFGS_General<...>(&factory_, &f_, *s_, m)); }] *)
Definition LBFGS_new (n : Z) (starting : list R) (m : Z) : result LBFGS :=
  factory ← BasicLargeVectorFactory_new n ;
  let f := BasicLBFGSFunc_new in
  s ← giveMeOne factory ;
  let s := mkVec starting in
  mret (mkLBFGS factory f s (LBFGS_General_new factory s m)).

(** [void setStarting(const std::vector<double>& starting)
    { s_->contents() = starting; lbfgs_->setStarting( *s_ ); }] *)
Definition LBFGS_setStarting (this : LBFGS) (starting : list R) : LBFGS :=
  let s := mkVec starting in
  mkLBFGS (factory_ this) (f_ this) s
          (LBFGS_General_setStarting (lbfgs_ this) s).

(** [static void myCallBack(int it, double f, double gn,
                            const BasicLargeVector& v)
    { if(cb_) cb_(it, f, gn, v.contents()); }] *)
Definition myCallBack (it : Z) (f gn : R) (v : BasicLargeVector) : M unit :=
  p ← read_cb ;
  match p with
  | Some _ => p' ← read_cb ; call_fnptr user p' it f gn (contents v)
  | None => mret tt
  end.

(** [double minimize(std::vector<double> *res, double epsilon, double
    gNormTol, int maxIter, callback)
    { cb_ = callback;
      const double val = lbfgs_->minimize(s_, epsilon, gNormTol, maxIter,
                                          myCallBack);
      ( *res ) = s_->contents();
      return val; }]
    The result is the returned double, the new contents of [*res] and the
    object after the call. *)
Definition LBFGS_minimize (this : LBFGS) (res : list R)
           (epsilon gNormTol : R) (maxIter : Z) (callback : fnptr)
  : M (R * list R * LBFGS) :=
  write_cb callback ;;
  '(report, s', f') ←
    LBFGS_General_minimize c1 contraction max_contractions eps_curvature
      (lbfgs_ this) (f_ this) (s_ this) epsilon gNormTol maxIter
      (Some myCallBack) ;
  let val := final_value report in
  let res := contents s' in
  mret (val, res, mkLBFGS (factory_ this) f' s' (lbfgs_ this)).

(** *** Callers of the function binding

    A caller holds vectors in its own storage, by address, and may call the
    binding, overwrite a vector, or destroy it. *)
Inductive Action : Type :=
  | ASet (a : nat)                      (* f.set(v) for the vector v at address a *)
  | AValue                              (* f.value() *)
  | ADerivative (res : list R)          (* f.derivative(&r) for a vector r with contents res *)
  | AWrite (a : nat) (v : list R)       (* the vector at a gets the contents v *)
  | AFree (a : nat).                    (* the vector at a is destroyed *)

(** What a call hands back: the double of [value()], the contents of [*res]
    after [derivative(res)], or the exception. *)
Inductive Answer : Type :=
  | AnsValue (r : result R)
  | AnsDerivative (r : result (list R)).

Record Caller : Type := mkCaller {
  storage : gmap nat BasicLargeVector;
  binding : BasicLBFGSFunc;
  world : World;
  answers : list Answer
}.

Definition answer_value (r : result (R * BasicLBFGSFunc)) : result R :=
  match r with
  | Ok (v, _) => Ok v
  | Raise e => Raise e
  end.

Definition answer_derivative (r : result (BasicLargeVector * BasicLBFGSFunc))
  : result (list R) :=
  match r with
  | Ok (v, _) => Ok (contents v)
  | Raise e => Raise e
  end.

Definition binding_after {A} (r : result (A * BasicLBFGSFunc))
           (before : BasicLBFGSFunc) : BasicLBFGSFunc :=
  match r with
  | Ok (_, fn) => fn
  | Raise _ => before
  end.

(** One action; the caller catches what a call throws and goes on.  [set] on
    a destroyed vector has no defined behaviour and is left out (no
    change). *)
Definition act (c : Caller) (a : Action) : Caller :=
  match a with
  | ASet p =>
      match storage c !! p with
      | Some v => mkCaller (storage c) (set (binding c) v) (world c) (answers c)
      | None => c
      end
  | AValue =>
      let '(r, w) := run (value (binding c)) (world c) in
      mkCaller (storage c) (binding_after r (binding c)) w
               (answers c ++ [AnsValue (answer_value r)])
  | ADerivative res =>
      let '(r, w) := run (derivative (binding c) (mkVec res)) (world c) in
      mkCaller (storage c) (binding_after r (binding c)) w
               (answers c ++ [AnsDerivative (answer_derivative r)])
  | AWrite p v =>
      mkCaller (<[p := mkVec v]> (storage c)) (binding c) (world c) (answers c)
  | AFree p =>
      mkCaller (delete p (storage c)) (binding c) (world c) (answers c)
  end.

Definition acts (c : Caller) (l : list Action) : Caller := fold_left act l c.

Definition is_request (a : Action) : bool :=
  match a with
  | AValue | ADerivative _ => true
  | _ => false
  end.

Definition is_set (a : Action) : bool :=
  match a with
  | ASet _ => true
  | _ => false
  end.

(** The answer and the external call that the bound point [x] determines
    for a request. *)
Definition answer_at (x : list R) (a : Action) : option Answer :=
  match a with
  | AValue => Some (AnsValue (f_evaluate x))
  | ADerivative res => Some (AnsDerivative (grad_evaluate x res))
  | _ => None
  end.

Definition event_at (x : list R) (a : Action) : option Event :=
  match a with
  | AValue => Some (EvObjective x)
  | ADerivative _ => Some (EvGradient x)
  | _ => None
  end.
End LBFGS.

(** ** Predicates on computations *)

(** [preserves I c]: running [c] keeps the property [I] of the world. *)
Definition preserves {A} (I : World -> Prop) (c : M A) : Prop :=
  forall w, I w -> I (snd (run c w)).

(** [returns Q c]: a value that [c] returns satisfies [Q]. *)
Definition returns {A} (Q : A -> Prop) (c : M A) : Prop :=
  forall w a, fst (run c w) = Ok a -> Q a.

(** [throws E c]: an exception that leaves [c] satisfies [E]. *)
Definition throws {A} (E : exn -> Prop) (c : M A) : Prop :=
  forall w e, fst (run c w) = Raise e -> E e.

Definition result_returns {A} (Q : A -> Prop) (r : result A) : Prop :=
  forall a, r = Ok a -> Q a.

Definition result_throws {A} (E : exn -> Prop) (r : result A) : Prop :=
  forall e, r = Raise e -> E e.

(** [succeeds Q c]: in every world [c] returns, with a value that satisfies
    [Q]. *)
Definition succeeds {A} (Q : A -> Prop) (c : M A) : Prop :=
  forall w, exists a w', run c w = (Ok a, w') /\ Q a.

Definition result_succeeds {A} (Q : A -> Prop) (r : result A) : Prop :=
  exists a, r = Ok a /\ Q a.

(** No user function throws. *)
Definition user_returns (user : UserCode) : Prop :=
  forall c it f gn x w, (user c it f gn x w).1 = Ok tt.

(** The world has a null [cb_] and the calls of user functions in its trace
    are [calls]. *)
Definition null_callback (calls : list Event) (w : World) : Prop :=
  cb_ w = None /\ List.filter is_callback (trace w) = calls.

(** ** Concrete inputs used by the examples *)

(** A caller that owns the vector (0) at address 0 and has not called the
    binding yet. *)
Definition demo_caller : Caller :=
  mkCaller {[ 0%nat := mkVec [0%R] ]} BasicLBFGSFunc_new (mkWorld None []) [].

(** The objective and the gradient of the test program in dimension 1. *)
Definition demo_f : list R -> result R := LBFGSTest.LBFGSFunc_evaluate 0 1.
Definition demo_grad : list R -> list R -> result (list R) :=
  LBFGSTest.LBFGSFuncGrad_evaluate 0 1.

(** The constants of the engine in the examples: Armijo constant 1e-4,
    contraction factor 0.5, at most 20 contractions, curvature threshold
    1e-10. *)
Definition demo_c1 : R := (1 / 10000)%R.
Definition demo_contraction : R := (1 / 2)%R.
Definition demo_budget : nat := 20.
Definition demo_eps : R := (1 / 10000000000)%R.

(** The objective x.x / 2 with its gradient x, and an engine for it in
    dimension 1 that starts from the point (1) with memory depth 10. *)
Definition quad_f (x : list R) : result R := Ok (dot x x / 2)%R.
Definition quad_grad (x : list R) (_ : list R) : result (list R) := Ok x.
Definition quad_engine_at (m : Z)
  : @LBFGS_General BasicLargeVector BasicLargeVectorFactory :=
  mkEngine (mkFactory 1) (mkVec [1%R]) m.
Definition quad_engine : @LBFGS_General BasicLargeVector BasicLargeVectorFactory :=
  quad_engine_at 10.

(** User functions that return and leave [cb_] as it is, and user functions
    that throw. *)
Definition demo_user : UserCode := fun _ _ _ _ _ w => (Ok tt, cb_ w).
Definition demo_thrower : UserCode := fun _ _ _ _ _ w => (Raise CheckFailed, cb_ w).

(** * Further parts of the sources *)

(** ** [lbfgs_test.cpp]: the constructors and the set-up of [main] *)

Module LBFGSTestMain.

(** [LBFGSFunc(int n) : n_(n) { check(n_ > 0, ...); }].  The object is its
    member [n_]. *)
Definition LBFGSFunc_new (n : Z) : result Z :=
  check (0 <? n)%Z ;; Ok n.

(** [LBFGSFuncGrad(int n) : n_(n) { check(n_ > 0, ...); }] *)
Definition LBFGSFuncGrad_new (n : Z) : result Z :=
  check (0 <? n)%Z ;; Ok n.

(** [std::vector<double> x(n, v)]; as for [BasicLargeVector], a negative
    [n] converts to a size above [max_size()]. *)
Definition vector_fill (n : Z) (v : R) : result (list R) :=
  if (n <? 0)%Z then Raise LengthError else Ok (repeat v (Z.to_nat n)).

(** The dimension that [main] works with:
    [int n = 1;
     if(argc > 1) { str << argv[1]; str >> n;
                    if(n < 1 && isMaster) { ...; n = 1; } }].
    [extracted] is the value that the extraction [str >> n] leaves in [n],
    whatever [argv[1]] is. *)
Definition main_dimension (argc extracted : Z) (isMaster : bool) : Z :=
  if (1 <? argc)%Z then
    if (extracted <? 1)%Z && isMaster then 1%Z else extracted
  else 1%Z.

(** What [main] has built when it calls [lbfgs.minimize]. *)
Record Setup : Type := mkSetup {
  su_f : Z;              (* LBFGSFunc f(n) *)
  su_g : Z;              (* LBFGSFuncGrad g(n) *)
  su_x : list R;         (* std::vector<double> x(n, 1000) *)
  su_epsilon : R;        (* 1e-3 *)
  su_gradTol : R;        (* 1e-3 * n * numProcesses *)
  su_lbfgs : LBFGS       (* LBFGS lbfgs(n, f, g, x, 10) *)
}.

(** The body of [main] from [LBFGSFunc f(n)] to [LBFGS lbfgs(n, f, g, x,
    10)]; an exception here is caught by [main], which then returns 1. *)
Definition main_setup (argc extracted : Z) (isMaster : bool)
           (numProcesses : Z) : result Setup :=
  let n := main_dimension argc extracted isMaster in
  f ← LBFGSFunc_new n ;
  g ← LBFGSFuncGrad_new n ;
  x ← vector_fill n 1000 ;
  let epsilon := (1 / 1000)%R in
  let gradTol := (1 / 1000 * IZR n * IZR numProcesses)%R in
  lbfgs ← LBFGS_new n x 10 ;
  Ok (mkSetup f g x epsilon gradTol lbfgs).

End LBFGSTestMain.

(** ** [lbfgs.hpp]: a run of trampoline calls *)

(** The arguments of one call [myCallBack(it, f, gn, v)]. *)
Record Progress : Type := mkProgress {
  pr_it : Z;
  pr_f : R;
  pr_gn : R;
  pr_v : BasicLargeVector
}.

(** The engine calls the trampoline once for each element, in order. *)
Fixpoint deliver (user : UserCode) (calls : list Progress) : M unit :=
  match calls with
  | [] => mret tt
  | p :: rest =>
      myCallBack user (pr_it p) (pr_f p) (pr_gn p) (pr_v p) ;;
      deliver user rest
  end.

(** The call of the user function that a trampoline call makes. *)
Definition callback_event (c : nat) (p : Progress) : Event :=
  EvCallback c (pr_it p) (pr_f p) (pr_gn p) (contents (pr_v p)).

(** The point (0, 1, ..., n - 1). *)
Definition ramp (n : nat) : list R := map INR (seq 0 n).

(** What a request before any [set] gets from the test functions. *)
Definition rejected (a : Action) : option Answer :=
  match a with
  | AValue => Some (AnsValue (Raise CheckFailed))
  | ADerivative _ => Some (AnsDerivative (Raise CheckFailed))
  | _ => None
  end.

(** ** The parameter file reader, [parser.cpp]

    [Parser] is a [std::map<std::string, std::string>] with member functions
    ([parser.hpp] is not among the sources; the member functions use
    [find], [cend], [operator[]] and iterate over pairs of strings).  A
    [std::string] is a [string], a position in it a [nat], and [npos] is
    [None].  [StandardException] carries its message.  The functions for
    [double] ([getDouble]) go through [atof] and the formatting of a
    [double] and are left out, as is [dump], which only prints. *)

Module ParserCpp.
Local Open Scope string_scope.

(** What a member function does: it returns, it throws a
    [StandardException] with a message, or its behaviour is undefined
    ([atoi] of a number that is no [int]). *)
Inductive outcome (A : Type) : Type :=
  | Return (a : A)
  | Throw (what : string)
  | Undefined.
Arguments Return {A} a.
Arguments Throw {A} what.
Arguments Undefined {A}.

Definition Parser : Type := gmap string string.

(** [std::string::find(char)] *)
Fixpoint find (c : ascii) (s : string) : option nat :=
  match s with
  | EmptyString => None
  | String a s' => if Ascii.eqb a c then Some 0%nat else S <$> find c s'
  end.

Definition tab : ascii := "009"%char.
Definition newline : ascii := "010"%char.

(** The loop that builds [sClean]: the characters of [s] other than the
    space and the tab, in order. *)
Fixpoint clean (s : string) : string :=
  match s with
  | EmptyString => EmptyString
  | String c s' =>
      if Ascii.eqb c " " || Ascii.eqb c tab then clean s'
      else String c (clean s')
  end.

(** The strings that the calls of [std::getline(in, s)] deliver while
    [!in.eof()], for a file with the given content: the pieces between the
    newlines.  After a final newline the last call delivers the empty
    string. *)
Fixpoint getlines (content : string) : list string :=
  match content with
  | EmptyString => [EmptyString]
  | String c rest =>
      if Ascii.eqb c newline then EmptyString :: getlines rest
      else match getlines rest with
           | l :: ls => String c l :: ls
           | [] => [String c EmptyString]
           end
  end.

(** What the body of the loop does with one line. *)
Inductive Line : Type :=
  | Ignored                          (* one of the silent [continue]s *)
  | Invalid                          (* nothing after the equal sign: reported *)
  | Assignment (key val : string).   (* [( *this )[key] = val] *)

Definition classify (s : string) : Line :=
  let sClean := clean s in
  match sClean with
  | EmptyString => Ignored
  | String c0 _ =>
      if Ascii.eqb c0 "#" then Ignored
      else
        match find "=" sClean with
        | None => Ignored
        | Some equalSign =>
            if (equalSign + 1 =? String.length sClean)%nat then Invalid
            else
              let key := substring 0 equalSign sClean in
              let val :=
                substring (equalSign + 1)
                          (String.length sClean - equalSign - 1) sClean in
              Assignment key val
        end
  end.

(** One turn of the loop; the second component is the screen, which gets
    the lines reported as invalid (as read, not cleaned). *)
Definition read_line (st : Parser * list string) (s : string)
  : Parser * list string :=
  match classify s with
  | Ignored => st
  | Invalid => (st.1, (st.2 ++ [s])%list)
  | Assignment key val => (<[key := val]> st.1, st.2)
  end.

(** [Parser::readFile]; [file] is [None] when the file cannot be opened and
    its content otherwise.  The result is the object after the call and
    what was reported on the screen. *)
Definition readFile (file : option string) (fileName : string) (this : Parser)
  : outcome (Parser * list string) :=
  match file with
  | None => Throw ("Cannot read file " ++ fileName ++ ".")
  | Some content => Return (fold_left read_line (getlines content) (this, []))
  end.

(** [Parser::getStr(const std::string& s) const] *)
Definition getStr (this : Parser) (s : string) : outcome string :=
  match this !! s with
  | None => Throw ("The key " ++ s ++ " is not found!")
  | Some v => Return v
  end.

(** [Parser::getStr(const std::string& s, const std::string& def)]: the
    result and the object after the call. *)
Definition getStr_default (this : Parser) (s def : string)
  : outcome (string * Parser) :=
  match this !! s with
  | None => Return (def, <[s := def]> this)
  | Some _ =>
      match getStr this s with
      | Return v => Return (v, this)
      | Throw e => Throw e
      | Undefined => Undefined
      end
  end.

(** *** [std::atoi] and the printing of an [int] *)

(** [isspace] in the C locale. *)
Definition isspace (c : ascii) : bool :=
  let n := N_of_ascii c in (n =? 32)%N || ((9 <=? n)%N && (n <=? 13)%N).

Definition digit_of (c : ascii) : option Z :=
  let n := Z.of_N (N_of_ascii c) in
  if (48 <=? n)%Z && (n <=? 57)%Z then Some (n - 48)%Z else None.

Fixpoint skip_space (s : string) : string :=
  match s with
  | EmptyString => EmptyString
  | String c s' => if isspace c then skip_space s' else s
  end.

(** The digits at the front of [s], read in base 10 after [acc]. *)
Fixpoint atoi_digits (s : string) (acc : Z) : Z :=
  match s with
  | EmptyString => acc
  | String c s' =>
      match digit_of c with
      | Some d => atoi_digits s' (acc * 10 + d)
      | None => acc
      end
  end.

(** The number that [atoi] reads: white space, an optional sign, digits;
    0 when there are no digits. *)
Definition atoi_value (s : string) : Z :=
  match skip_space s with
  | EmptyString => 0
  | String c s' =>
      if Ascii.eqb c "-" then (- atoi_digits s' 0)%Z
      else if Ascii.eqb c "+" then atoi_digits s' 0
      else atoi_digits (String c s') 0
  end.

(** [std::atoi]: undefined when the number is not representable. *)
Definition atoi (s : string) : outcome Z :=
  let v := atoi_value s in
  if (- 2 ^ 31 <=? v)%Z && (v <? 2 ^ 31)%Z then Return v else Undefined.

(** [str << def] for an [int]: the decimal digits, after a minus sign for a
    negative number. *)
Definition print_int (z : Z) : string := NilZero.string_of_int (Z.to_int z).

(** [Parser::getInt(const std::string& s) const] *)
Definition getInt (this : Parser) (s : string) : outcome Z :=
  match this !! s with
  | None => Throw ("The key " ++ s ++ " is not found!")
  | Some v => atoi v
  end.

(** [Parser::getInt(const std::string& s, int def)]: the result and the
    object after the call. *)
Definition getInt_default (this : Parser) (s : string) (def : Z)
  : outcome (Z * Parser) :=
  match this !! s with
  | None => Return (def, <[s := print_int def]> this)
  | Some _ =>
      match getInt this s with
      | Return v => Return (v, this)
      | Throw e => Throw e
      | Undefined => Undefined
      end
  end.

(** No space and no tab. *)
Definition no_blank (s : string) : Prop :=
  find " " s = None /\ find tab s = None.

(** What [readFile] stores: keys and values without blanks, keys without an
    equal sign and not starting a comment, values not empty. *)
Definition entry_ok (key val : string) : Prop :=
  no_blank key /\ find "=" key = None /\ find "#" key <> Some 0%nat /\
  no_blank val /\ val <> EmptyString.

End ParserCpp.

(** ** The nested sampler front end, [polychord.cpp]

    [polychord.hpp] is not among the sources; the object has the members
    that the constructor initialises, of which [paramsStarting_],
    [paramsBest_], [paramsMean_] and [paramsStd_] are not used in
    [polychord.cpp] and are left out.  The vectors have the size the
    constructor gives them, so that the unchecked [v[i]] after
    [check(i >= 0 && i < n_)] is in range: a read is [nth], a write a list
    update.  The sampler itself ([poly::run]) is external. *)

Module PolyChordCpp.

Record PolyChord : Type := mkPolyChord {
  n_ : Z;
  nLive_ : Z;
  paramNames_ : list string;
  paramsCurrent_ : list R;
  priorTypes_ : list Z;
  priorMins_ : list R;
  priorMaxs_ : list R;
  paramsFixed_ : list R;
  isFixed_ : list bool;
  fileRoot_ : string;
  nFixed_ : option Z      (* not initialised by the constructor *)
}.

(** [PolyChord(int nPar, like, int nLive, std::string fileRoot)]: every
    vector gets [nPar] elements; a negative [nPar] converts to a size above
    [max_size()]. *)
Definition PolyChord_new (nPar nLive : Z) (fileRoot : string) : result PolyChord :=
  if (nPar <? 0)%Z then Raise LengthError
  else
    let n := Z.to_nat nPar in
    Ok (mkPolyChord nPar nLive (repeat EmptyString n) (repeat 0%R n)
                    (repeat 1%Z n) (repeat 0%R n) (repeat 1%R n)
                    (repeat 0%R n) (repeat false n) fileRoot None).

(** The comparisons [a <= b] and [a == b] of two [double]s. *)
Definition Rleb (a b : R) : bool := if Rle_dec a b then true else false.
Definition Reqb (a b : R) : bool := if Req_dec_T a b then true else false.

(** [check(i >= 0 && i < n_, ...)] *)
Definition check_index (this : PolyChord) (i : Z) : result unit :=
  check ((0 <=? i)%Z && (i <? n_ this)%Z).

(** [PolyChord::setParamFixed] *)
Definition setParamFixed (this : PolyChord) (i : Z) (name : string) (val : R)
  : result PolyChord :=
  check_index this i ;;
  let k := Z.to_nat i in
  Ok (mkPolyChord (n_ this) (nLive_ this)
        (<[k := name]> (paramNames_ this))
        (paramsCurrent_ this) (priorTypes_ this) (priorMins_ this)
        (priorMaxs_ this)
        (<[k := val]> (paramsFixed_ this))
        (<[k := true]> (isFixed_ this))
        (fileRoot_ this) (nFixed_ this)).

(** The assignments at the end of [setParam] and of [setParamGauss]. *)
Definition set_prior (this : PolyChord) (i : Z) (name : string)
           (type : Z) (lo hi : R) : PolyChord :=
  let k := Z.to_nat i in
  mkPolyChord (n_ this) (nLive_ this)
    (<[k := name]> (paramNames_ this))
    (paramsCurrent_ this)
    (<[k := type]> (priorTypes_ this))
    (<[k := lo]> (priorMins_ this))
    (<[k := hi]> (priorMaxs_ this))
    (paramsFixed_ this)
    (<[k := false]> (isFixed_ this))
    (fileRoot_ this) (nFixed_ this).

(** [PolyChord::setParam] *)
Definition setParam (this : PolyChord) (i : Z) (name : string) (min max : R)
  : result PolyChord :=
  check_index this i ;;
  check (Rleb min max) ;;
  if Reqb min max then setParamFixed this i name min
  else Ok (set_prior this i name 1 min max).

(** [PolyChord::setParamGauss] *)
Definition setParamGauss (this : PolyChord) (i : Z) (name : string)
           (mean sigma : R) : result PolyChord :=
  check_index this i ;;
  check (Rleb 0 sigma) ;;
  if Reqb sigma 0 then setParamFixed this i name mean
  else Ok (set_prior this i name 2 mean sigma).

(** The values taken by [i] in [for(int i = 0; i < n_; ++i)]. *)
Definition indices (this : PolyChord) : list nat := seq 0 (Z.to_nat (n_ this)).

Section Likelihood.
(** [like_.calculate(params, nPar)] of the likelihood the object refers to:
    a function of the [nPar] numbers it is given. *)
Variable like_calculate : list R -> Z -> R.

(** One turn of the loop of [logLike]: [cur] is [paramsCurrent_], [j] the
    local counter.  [theta] is a pointer: [theta j] is what is stored [j]
    places after it. *)
Definition logLike_step (this : PolyChord) (theta : nat -> R)
           (st : list R * nat) (i : nat) : list R * nat :=
  if nth i (isFixed_ this) false
  then (<[i := nth i (paramsFixed_ this) 0%R]> st.1, st.2)
  else (<[i := theta st.2]> st.1, S st.2).

(** [paramsCurrent_] and [j] after the loop of [logLike]. *)
Definition logLike_loop (this : PolyChord) (theta : nat -> R) : list R * nat :=
  fold_left (logLike_step this theta) (indices this) (paramsCurrent_ this, 0%nat).

(** [PolyChord::logLike]: the returned number and the object after the
    call. *)
Definition logLike (this : PolyChord) (theta : nat -> R) : R * PolyChord :=
  let cur := (logLike_loop this theta).1 in
  ((- like_calculate cur (n_ this) / 2)%R,
   mkPolyChord (n_ this) (nLive_ this) (paramNames_ this) cur
               (priorTypes_ this) (priorMins_ this) (priorMaxs_ this)
               (paramsFixed_ this) (isFixed_ this) (fileRoot_ this)
               (nFixed_ this)).
End Likelihood.

(** [std::string::rfind(char)] *)
Fixpoint rfind (c : ascii) (s : string) : option nat :=
  match s with
  | EmptyString => None
  | String a s' =>
      match rfind c s' with
      | Some i => Some (S i)
      | None => if Ascii.eqb a c then Some 0%nat else None
      end
  end.

(** [baseDir] and [root] in [run], from [fileRoot_] (a string of fewer than
    2^31 characters, so that the position fits the [int lastSlash]). *)
Definition split_fileRoot (fileRoot : string) : string * string :=
  match rfind "/" fileRoot with
  | None => ("."%string, fileRoot)
  | Some O => (EmptyString, substring 1 (String.length fileRoot - 1) fileRoot)
  | Some lastSlash =>
      (substring 0 lastSlash fileRoot,
       substring (lastSlash + 1) (String.length fileRoot - lastSlash - 1)
                 fileRoot)
  end.

(** The loop that counts [nFixed_]. *)
Definition count_fixed (this : PolyChord) : Z :=
  fold_left (fun nFixed i => if nth i (isFixed_ this) false
                             then (nFixed + 1)%Z else nFixed)
            (indices this) 0%Z.

(** The loop that collects the priors of the parameters that are not
    fixed. *)
Definition free_priors (this : PolyChord) : list (Z * R * R) :=
  fold_left (fun acc i => if nth i (isFixed_ this) false then acc
                          else acc ++ [(nth i (priorTypes_ this) 0%Z,
                                        nth i (priorMins_ this) 0%R,
                                        nth i (priorMaxs_ this) 0%R)])
            (indices this) [].

(** The arguments of the call of [poly::run] that vary.  The three prior
    arrays are kept together: element k is the k-th [push_back] of each. *)
Record PolyArgs : Type := mkPolyArgs {
  nDims : Z;
  nLive : Z;
  priors : list (Z * R * R);     (* priorTypes, priorMins, priorMaxs *)
  baseDir : string;
  root : string;
  resume : bool;
  updateResume : Z
}.

Section Run.
(** What the external sampler does to the object (through the likelihood
    calls it makes) when it returns. *)
Variable poly_run : PolyArgs -> PolyChord -> PolyChord.

Definition with_nFixed (this : PolyChord) (nFixed : Z) : PolyChord :=
  mkPolyChord (n_ this) (nLive_ this) (paramNames_ this) (paramsCurrent_ this)
              (priorTypes_ this) (priorMins_ this) (priorMaxs_ this)
              (paramsFixed_ this) (isFixed_ this) (fileRoot_ this)
              (Some nFixed).

(** [PolyChord::run(bool res)].  [running] is the static member
    [running_].  The result is the arguments handed to the sampler or the
    exception, then [running_] and the object after the call. *)
Definition run (this : PolyChord) (running : bool) (res : bool)
  : result PolyArgs * bool * PolyChord :=
  if running then (Raise CheckFailed, running, this)
  else
    let running := true in
    let nFixed := count_fixed this in
    let this := with_nFixed this nFixed in
    if (nFixed <? n_ this)%Z then
      let '(baseDir, root) := split_fileRoot (fileRoot_ this) in
      let args := mkPolyArgs (n_ this - nFixed) (nLive_ this)
                             (free_priors this) baseDir root res
                             (nLive_ this) in
      (Ok args, false, poly_run args this)
    else (Raise CheckFailed, running, this).
End Run.

(** The calls that configure an object. *)
Inductive Setter : Type :=
  | SetParam (i : Z) (name : string) (min max : R)
  | SetParamFixed (i : Z) (name : string) (val : R)
  | SetParamGauss (i : Z) (name : string) (mean sigma : R).

Definition apply_setter (this : PolyChord) (c : Setter) : result PolyChord :=
  match c with
  | SetParam i name min max => setParam this i name min max
  | SetParamFixed i name val => setParamFixed this i name val
  | SetParamGauss i name mean sigma => setParamGauss this i name mean sigma
  end.

(** A sequence of calls; a call that throws ends it. *)
Fixpoint apply_setters (this : PolyChord) (cs : list Setter) : result PolyChord :=
  match cs with
  | [] => Ok this
  | c :: cs' => this' ← apply_setter this c ; apply_setters this' cs'
  end.

(** The vectors have [n_] elements. *)
Definition sized (this : PolyChord) : Prop :=
  (0 <= n_ this)%Z /\
  length (paramNames_ this) = Z.to_nat (n_ this) /\
  length (paramsCurrent_ this) = Z.to_nat (n_ this) /\
  length (priorTypes_ this) = Z.to_nat (n_ this) /\
  length (priorMins_ this) = Z.to_nat (n_ this) /\
  length (priorMaxs_ this) = Z.to_nat (n_ this) /\
  length (paramsFixed_ this) = Z.to_nat (n_ this) /\
  length (isFixed_ this) = Z.to_nat (n_ this).

(** A uniform prior over an interval that is not a point, or a Gaussian
    prior of positive width. *)
Definition proper_prior (p : Z * R * R) : Prop :=
  (p.1.1 = 1%Z /\ (p.1.2 < p.2)%R) \/ (p.1.1 = 2%Z /\ (0 < p.2)%R).

(** The prior of parameter [i]. *)
Definition prior_at (this : PolyChord) (i : nat) : Z * R * R :=
  (nth i (priorTypes_ this) 0%Z, nth i (priorMins_ this) 0%R,
   nth i (priorMaxs_ this) 0%R).

(** The number of parameters before [i] that are not fixed. *)
Definition free_rank (this : PolyChord) (i : nat) : nat :=
  length (List.filter negb (firstn i (isFixed_ this))).

(** Two objects with one parameter, used by the examples: as constructed,
    and with the parameter fixed at 3. *)
Definition demo_free : PolyChord :=
  mkPolyChord 1 10 [EmptyString] [0%R] [1%Z] [0%R] [1%R] [0%R] [false]
              "chain"%string None.
Definition demo_fixed : PolyChord :=
  mkPolyChord 1 10 ["a"%string] [0%R] [1%Z] [0%R] [1%R] [3%R] [true]
              "chain"%string None.

End PolyChordCpp.

(** ** Cosmological parameters, [cosmological_params.hpp]

    The members whose code is in the header and that do not go through the
    power spectrum classes or the unit conversions, which are not among the
    sources: the photon temperature of the base class, and the neutrino
    part of [LCDMWithDegenerateNeutrinosParams] (the same code is in
    [LCDMWithTensorAndDegenerateNeutrinosParams]). *)

Module CosmologicalParamsHpp.

(** The comparison [a < b] of two [double]s. *)
Definition Rltb (a b : R) : bool := if Rlt_dec a b then true else false.

(** The data member of the base class. *)
Record CosmologicalParams : Type := mkCosmologicalParams { temp_ : R }.

(** [CosmologicalParams() : temp_(2.726) {}] *)
Definition CosmologicalParams_new : CosmologicalParams :=
  mkCosmologicalParams (2726 / 1000).

(** [double getTemperature() const { return temp_; }] *)
Definition getTemperature (this : CosmologicalParams) : R := temp_ this.

(** [void setTemperature(double temp)
     { check(temp > 0, ...); temp_ = temp; }] *)
Definition setTemperature (this : CosmologicalParams) (temp : R)
  : result CosmologicalParams :=
  check (Rltb 0 temp) ;; Ok (mkCosmologicalParams temp).

(** A caller that catches what [setTemperature] throws: the object is as it
    was. *)
Definition try_setTemperature (this : CosmologicalParams) (temp : R)
  : CosmologicalParams :=
  match setTemperature this temp with
  | Ok this' => this'
  | Raise _ => this
  end.

(** The members that [LCDMWithDegenerateNeutrinosParams] adds to its base
    class. *)
Record LCDMWithDegenerateNeutrinosParams : Type := mkDegenerateNeutrinos {
  nEff_ : R;
  nMassive_ : Z;
  sumMNu_ : R
}.

(** The constructor, after the base class is constructed: the members are
    initialised, then the body makes its four checks.  In
    [nEff > nMassive] the [int] is converted to [double]. *)
Definition LCDMWithDegenerateNeutrinosParams_new (nEff : R) (nMassive : Z)
           (sumMNu : R) : result LCDMWithDegenerateNeutrinosParams :=
  let this := mkDegenerateNeutrinos nEff nMassive sumMNu in
  check (Rltb 0 nEff) ;;
  check (negb (Rltb sumMNu 0)) ;;
  check (0 <=? nMassive)%Z ;;
  check (Rltb (IZR nMassive) nEff) ;;
  Ok this.

(** [double getNEff() const { return nEff_ - nMassive_; }] *)
Definition getNEff (this : LCDMWithDegenerateNeutrinosParams) : R :=
  (nEff_ this - IZR (nMassive_ this))%R.

(** [int getNumNCDM() const { return nMassive_; }] *)
Definition getNumNCDM (this : LCDMWithDegenerateNeutrinosParams) : Z :=
  nMassive_ this.

(** [double getNCDMParticleMass(int i) const
     { check(i >= 0 && i < nMassive_, ...); return sumMNu_ / nMassive_; }] *)
Definition getNCDMParticleMass (this : LCDMWithDegenerateNeutrinosParams)
           (i : Z) : result R :=
  check ((0 <=? i)%Z && (i <? nMassive_ this)%Z) ;;
  Ok (sumMNu_ this / IZR (nMassive_ this))%R.

(** [double getNCDMParticleTemp(int i) const
     { check(i >= 0 && i < nMassive_, ...); return 0.713765855506013; }] *)
Definition getNCDMParticleTemp (this : LCDMWithDegenerateNeutrinosParams)
           (i : Z) : result R :=
  check ((0 <=? i)%Z && (i <? nMassive_ this)%Z) ;;
  Ok (713765855506013 / 1000000000000000)%R.

End CosmologicalParamsHpp.

(** * Properties *)

(** ** Arithmetic helpers *)

Lemma wrap32_small (z : Z) : in_int z -> wrap32 z = z.
Proof.
  unfold in_int, wrap32. intros Hz.
  rewrite Z.mod_small by lia. lia.
Qed.

Lemma rsum_ext (F G : nat -> R) (a k : nat) :
  (forall j, (a <= j < a + k)%nat -> F j = G j) -> rsum F a k = rsum G a k.
Proof.
  revert a. induction k as [|k IH]; intros a HFG; simpl; [reflexivity|].
  rewrite (HFG a) by lia. rewrite (IH (S a)); [reflexivity|].
  intros j Hj. apply HFG. lia.
Qed.

Lemma rsum_scal (F : nat -> R) (c : R) (a k : nat) :
  rsum (fun j => F j * c)%R a k = (rsum F a k * c)%R.
Proof.
  revert a. induction k as [|k IH]; intros a; simpl; [lra|].
  rewrite IH. lra.
Qed.

(** Changing one summand changes the sum by the difference. *)
Lemma rsum_update (F G : nat -> R) (a k i : nat) :
  (a <= i < a + k)%nat ->
  (forall j, (a <= j < a + k)%nat -> j <> i -> F j = G j) ->
  rsum F a k = (rsum G a k - G i + F i)%R.
Proof.
  revert a. induction k as [|k IH]; intros a Hi HFG; simpl; [lia|].
  destruct (decide (a = i)) as [->|Hne].
  - rewrite (rsum_ext F G (S i) k); [lra|].
    intros j Hj. apply HFG; lia.
  - rewrite (IH (S a)); [|lia|intros j Hj Hji; apply HFG; lia].
    rewrite (HFG a) by lia. lra.
Qed.

(** The accumulation loops of the test functions are finite sums. *)
Lemma fold_left_rsum (G : Z -> R) (a k : nat) (acc : R) :
  fold_left (fun acc i => acc + G i)%R (map Z.of_nat (seq a k)) acc
  = (acc + rsum (fun j => G (Z.of_nat j)) a k)%R.
Proof.
  revert a acc. induction k as [|k IH]; intros a acc; simpl; [lra|].
  rewrite IH. lra.
Qed.

(** The assignment loop [res->at(i) = h(i)] over a vector of size n. *)
Lemma fold_left_insert_lookup (h : Z -> R) (k a : nat) (res : list R) (i : nat) :
  (a + k <= length res)%nat ->
  fold_left (fun res j => <[Z.to_nat j := h j]> res) (map Z.of_nat (seq a k)) res !! i
  = if decide (a <= i < a + k)%nat then Some (h (Z.of_nat i)) else res !! i.
Proof.
  revert a res. induction k as [|k IH]; intros a res Hlen; simpl.
  - case_decide; [lia|reflexivity].
  - rewrite IH by (rewrite length_insert; lia).
    rewrite Nat2Z.id.
    destruct (decide (a = i)) as [->|Hne].
    + rewrite decide_False by lia. rewrite decide_True by lia.
      apply list_lookup_insert_eq. lia.
    + rewrite list_lookup_insert_ne by done.
      repeat case_decide; try lia; reflexivity.
Qed.

Lemma fold_left_insert_length (h : Z -> R) (l : list Z) (res : list R) :
  length (fold_left (fun res j => <[Z.to_nat j := h j]> res) l res) = length res.
Proof.
  revert res. induction l as [|j l IH]; intros res; simpl; [reflexivity|].
  rewrite IH. apply length_insert.
Qed.

Lemma resize_length (n : nat) (v : list R) : length (LBFGSTest.resize n v) = n.
Proof.
  unfold LBFGSTest.resize.
  rewrite length_app, length_take, repeat_length. lia.
Qed.

Lemma check_true_bind {A} (k : unit -> result A) : check true ≫= k = k tt.
Proof. reflexivity. Qed.

(** With one process the index is not shifted. *)
Lemma shifted_single_process (n i : Z) :
  in_int i -> LBFGSTest.shifted 0 n i = i.
Proof.
  intros Hi. unfold LBFGSTest.shifted, int_add, int_mul.
  rewrite Z.mul_0_l, (wrap32_small 0), Z.add_0_r by (unfold in_int; lia).
  apply wrap32_small. exact Hi.
Qed.

(** ** The test functions while the integer arithmetic stays in range *)

Section TestInRange.
Local Open Scope R_scope.
Variable n : Z.
Hypothesis Hn : (0 < n <= 32767)%Z.

Lemma shifted_in_range (j : nat) :
  (Z.of_nat j < n)%Z -> LBFGSTest.shifted 0 n (Z.of_nat j) = Z.of_nat j.
Proof using Hn.
  intros Hj. apply shifted_single_process. unfold in_int. lia.
Qed.

Lemma denom_in_range (j : nat) :
  (Z.of_nat j < n)%Z ->
  IZR (LBFGSTest.denom 0 n (Z.of_nat j)) = (INR j + 1) ^ 2.
Proof using Hn.
  intros Hj. unfold LBFGSTest.denom. rewrite shifted_in_range by done.
  unfold int_add, int_mul.
  rewrite (wrap32_small (Z.of_nat j + 1)) by (unfold in_int; lia).
  rewrite wrap32_small by (unfold in_int; nia).
  rewrite mult_IZR, plus_IZR, <- INR_IZR_INZ. ring.
Qed.

Lemma denom2_in_range (j : nat) :
  (Z.of_nat j < n)%Z ->
  IZR (LBFGSTest.denom2 0 n (Z.of_nat j)) = 2 * (INR j + 1) ^ 2.
Proof using Hn.
  intros Hj. unfold LBFGSTest.denom2. rewrite shifted_in_range by done.
  unfold int_add, int_mul.
  rewrite (wrap32_small (Z.of_nat j + 1)) by (unfold in_int; lia).
  rewrite (wrap32_small (2 * _)) by (unfold in_int; lia).
  rewrite wrap32_small by (unfold in_int; nia).
  rewrite !mult_IZR, plus_IZR, <- INR_IZR_INZ. ring.
Qed.

Variable x : list R.
Hypothesis Hx : Z.of_nat (length x) = n.

Lemma sum_in_range :
  rsum (fun j => (LBFGSTest.at_ x (Z.of_nat j) - IZR (LBFGSTest.shifted 0 n (Z.of_nat j))) ^ 2
                 / IZR (LBFGSTest.denom 0 n (Z.of_nat j))) 0 (Z.to_nat n)
  = LBFGSTest.Sx x.
Proof using Hn Hx.
  unfold LBFGSTest.Sx. replace (Z.to_nat n) with (length x) by lia.
  apply rsum_ext. intros j Hj.
  rewrite shifted_in_range, denom_in_range by lia.
  unfold LBFGSTest.at_, LBFGSTest.S_term. rewrite Nat2Z.id, <- INR_IZR_INZ.
  reflexivity.
Qed.

Lemma res_in_range :
  rsum (fun j => (LBFGSTest.at_ x (Z.of_nat j) - IZR (LBFGSTest.shifted 0 n (Z.of_nat j))) ^ 2
                 / IZR (LBFGSTest.denom2 0 n (Z.of_nat j))) 0 (Z.to_nat n)
  = LBFGSTest.Sx x / 2.
Proof using Hn Hx.
  rewrite <- sum_in_range. unfold Rdiv. rewrite <- rsum_scal.
  apply rsum_ext. intros j Hj.
  rewrite denom_in_range, denom2_in_range by lia.
  field. pose proof (pos_INR j). lra.
Qed.

Lemma evaluate_in_range :
  LBFGSTest.LBFGSFunc_evaluate 0 n x = Ok (LBFGSTest.objective x).
Proof using Hn Hx.
  unfold LBFGSTest.LBFGSFunc_evaluate.
  rewrite (proj2 (Z.eqb_eq _ _) Hx), check_true_bind.
  unfold LBFGSTest.indices. rewrite fold_left_rsum. cbv beta. rewrite res_in_range.
  f_equal. unfold LBFGSTest.objective. field.
Qed.

Lemma gradient_in_range (old : list R) :
  exists g, LBFGSTest.LBFGSFuncGrad_evaluate 0 n x old = Ok g /\
    length g = length x /\
    forall i, (i < length x)%nat -> g !! i = Some (LBFGSTest.gradient_at x i).
Proof using Hn Hx.
  unfold LBFGSTest.LBFGSFuncGrad_evaluate.
  rewrite (proj2 (Z.eqb_eq _ _) Hx), check_true_bind.
  eexists. split; [reflexivity|]. split.
  - rewrite fold_left_insert_length, resize_length. lia.
  - intros i Hi. unfold LBFGSTest.indices.
    rewrite fold_left_insert_lookup by (rewrite resize_length; lia).
    rewrite decide_True by lia. f_equal.
    rewrite fold_left_rsum. cbv beta. rewrite sum_in_range.
    rewrite shifted_in_range, denom2_in_range by lia.
    unfold LBFGSTest.at_, LBFGSTest.gradient_at.
    rewrite Nat2Z.id, <- INR_IZR_INZ. lra.
Qed.
End TestInRange.

(** ** The partial derivatives of the objective *)

Lemma nth_insert_R (x : list R) (i j : nat) (t : R) :
  (i < length x)%nat ->
  nth j (<[i := t]> x) 0%R = if decide (i = j) then t else nth j x 0%R.
Proof.
  intros Hi. rewrite !nth_lookup. case_decide as Hij.
  - subst j. rewrite list_lookup_insert_eq by done. reflexivity.
  - rewrite list_lookup_insert_ne by done. reflexivity.
Qed.

Lemma S_insert (x : list R) (i : nat) (t : R) :
  (i < length x)%nat ->
  LBFGSTest.Sx (<[i := t]> x)
  = (LBFGSTest.Sx x - LBFGSTest.S_term i (nth i x 0) + LBFGSTest.S_term i t)%R.
Proof.
  intros Hi. unfold LBFGSTest.Sx. rewrite length_insert.
  rewrite (rsum_update _ (fun j => LBFGSTest.S_term j (nth j x 0%R)) 0 (length x) i).
  - rewrite nth_insert_R, decide_True by done. reflexivity.
  - lia.
  - intros j _ Hji. rewrite nth_insert_R, decide_False by done. reflexivity.
Qed.

(** d/dt of (C + (t - c)^2 / a)^2 / 8 *)
Lemma derivable_quartic (C c a t0 : R) :
  a <> 0%R ->
  derivable_pt_lim (fun t => (C + (t - c) ^ 2 / a) ^ 2 / 8)%R t0
                   ((t0 - c) * (C + (t0 - c) ^ 2 / a) / (2 * a))%R.
Proof.
  intros Ha.
  pose (u := (id - fct_cte c)%F).
  pose (w := (fct_cte C + mult_real_fct (/ a) (u * u))%F).
  assert (Hu : derivable_pt_lim u t0 (1 - 0)%R).
  { apply derivable_pt_lim_minus;
      [apply derivable_pt_lim_id | apply derivable_pt_lim_const]. }
  assert (Hw : derivable_pt_lim w t0 (0 + / a * ((1 - 0) * u t0 + u t0 * (1 - 0)))%R).
  { apply derivable_pt_lim_plus; [apply derivable_pt_lim_const|].
    apply derivable_pt_lim_scal. apply derivable_pt_lim_mult; exact Hu. }
  pose proof (derivable_pt_lim_scal _ (/ 8) _ _ (derivable_pt_lim_mult _ _ _ _ _ Hw Hw)) as Hh.
  eapply derivable_pt_lim_ext in Hh.
  - replace ((t0 - c) * (C + (t0 - c) ^ 2 / a) / (2 * a))%R
      with (/ 8 * ((0 + / a * ((1 - 0) * u t0 + u t0 * (1 - 0))) * w t0
                   + w t0 * (0 + / a * ((1 - 0) * u t0 + u t0 * (1 - 0)))))%R.
    + exact Hh.
    + unfold w, u, plus_fct, minus_fct, mult_fct, mult_real_fct, fct_cte, id.
      field. exact Ha.
  - intros z. unfold w, u, plus_fct, minus_fct, mult_fct, mult_real_fct, fct_cte, id.
    field. exact Ha.
Qed.

Lemma objective_partial_derivative (x : list R) (i : nat) :
  (i < length x)%nat ->
  derivable_pt_lim (fun t => LBFGSTest.objective (<[i := t]> x))
                   (nth i x 0%R) (LBFGSTest.gradient_at x i).
Proof.
  intros Hi.
  assert (Ha : ((INR i + 1) ^ 2 <> 0)%R).
  { pose proof (pos_INR i). apply pow_nonzero. lra. }
  pose (C := (LBFGSTest.Sx x - LBFGSTest.S_term i (nth i x 0))%R).
  apply derivable_pt_lim_ext
    with (f := (fun t => (C + (t - INR i) ^ 2 / (INR i + 1) ^ 2) ^ 2 / 8)%R).
  - intros t. unfold LBFGSTest.objective. rewrite S_insert by done. reflexivity.
  - replace (LBFGSTest.gradient_at x i)
      with ((nth i x 0 - INR i)
            * (C + (nth i x 0 - INR i) ^ 2 / (INR i + 1) ^ 2) / (2 * (INR i + 1) ^ 2))%R.
    + apply derivable_quartic. exact Ha.
    + unfold LBFGSTest.gradient_at, C, LBFGSTest.S_term. field.
      pose proof (pos_INR i). lra.
Qed.

(** While no integer operation overflows (n <= 32767), the test objective is
  S^2 / 8, the test gradient has the stated components, and each component
  is the partial derivative of the objective. *)
Theorem test_gradient_in_range (n : Z) (x old : list R) :
  (0 < n <= 32767)%Z -> Z.of_nat (length x) = n ->
  LBFGSTest.LBFGSFunc_evaluate 0 n x = Ok (LBFGSTest.objective x) /\
  exists g, LBFGSTest.LBFGSFuncGrad_evaluate 0 n x old = Ok g /\
    length g = length x /\
    forall i, (i < length x)%nat ->
      g !! i = Some (LBFGSTest.gradient_at x i) /\
      derivable_pt_lim (fun t => LBFGSTest.objective (<[i := t]> x))
                       (nth i x 0%R) (LBFGSTest.gradient_at x i).
Proof.
  intros Hn Hx. split; [apply evaluate_in_range; done|].
  destruct (gradient_in_range n Hn x Hx old) as (g & Hg & Hlen & Hcomp).
  exists g. repeat split; auto using objective_partial_derivative.
Qed.

(** ** The test functions at a point of size 32768 *)

Lemma rsum_zero (F : nat -> R) (a k : nat) :
  (forall j, (a <= j < a + k)%nat -> F j = 0%R) -> rsum F a k = 0%R.
Proof.
  revert a. induction k as [|k IH]; intros a HF; simpl; [reflexivity|].
  rewrite HF by lia. rewrite IH; [lra|]. intros j Hj. apply HF. lia.
Qed.

Lemma rsum_snoc (F : nat -> R) (a k : nat) :
  rsum F a (S k) = (rsum F a k + F (a + k)%nat)%R.
Proof.
  revert a. induction k as [|k IH]; intros a.
  - simpl. rewrite Nat.add_0_r. lra.
  - change (rsum F a (S (S k))) with (F a + rsum F (S a) (S k))%R.
    rewrite IH. simpl. replace (a + S k)%nat with (S (a + k)) by lia. lra.
Qed.

Lemma x_fail_gen_length (k : nat) : length (LBFGSTest.x_fail_gen k) = S (S k).
Proof.
  unfold LBFGSTest.x_fail_gen. simpl.
  rewrite length_app, length_map, length_seq. simpl. lia.
Qed.

Lemma x_fail_gen_first (k : nat) : nth 0 (LBFGSTest.x_fail_gen k) 0%R = 1%R.
Proof. reflexivity. Qed.

Lemma x_fail_gen_middle (k j : nat) :
  (1 <= j <= k)%nat -> nth j (LBFGSTest.x_fail_gen k) 0%R = INR j.
Proof.
  intros Hj. unfold LBFGSTest.x_fail_gen. rewrite nth_lookup.
  destruct j as [|j]; [lia|]. simpl.
  rewrite lookup_app_l by (rewrite length_map, length_seq; lia).
  rewrite list_lookup_fmap, lookup_seq_lt by lia. reflexivity.
Qed.

Lemma x_fail_gen_last (k : nat) :
  nth (S k) (LBFGSTest.x_fail_gen k) 0%R = (INR (S k) + 1)%R.
Proof.
  unfold LBFGSTest.x_fail_gen. rewrite nth_lookup. simpl.
  rewrite lookup_app_r by (rewrite length_map, length_seq; lia).
  rewrite length_map, length_seq, Nat.sub_diag. reflexivity.
Qed.

(** A weighted sum of the squared distances of [x_fail_gen k] to
  (0, 1, ..., k + 1) keeps the first and the last weight. *)
Lemma x_fail_gen_sum (k : nat) (W : nat -> R) :
  rsum (fun j => (nth j (LBFGSTest.x_fail_gen k) 0 - INR j) ^ 2 * W j)%R 0 (S (S k))
  = (W 0%nat + W (S k))%R.
Proof.
  rewrite rsum_snoc.
  change (rsum ?F 0 (S k)) with (F 0%nat + rsum F 1 k)%R. cbv beta.
  rewrite rsum_zero.
  - rewrite x_fail_gen_first. simpl (0 + S k)%nat. rewrite x_fail_gen_last.
    simpl (INR 0). ring.
  - intros j Hj. rewrite x_fail_gen_middle by lia. ring.
Qed.

Lemma x_fail_length : Z.of_nat (length LBFGSTest.x_fail) = 32768%Z.
Proof. unfold LBFGSTest.x_fail. rewrite x_fail_gen_length. lia. Qed.

Lemma x_fail_count : Z.to_nat 32768 = S (S (Z.to_nat 32766)).
Proof. lia. Qed.

(** The accumulations of the two test functions at [x_fail]. *)
Lemma x_fail_res :
  rsum (fun j => (LBFGSTest.at_ LBFGSTest.x_fail (Z.of_nat j)
                  - IZR (LBFGSTest.shifted 0 32768 (Z.of_nat j))) ^ 2
                 / IZR (LBFGSTest.denom2 0 32768 (Z.of_nat j)))%R 0 (Z.to_nat 32768)
  = (/ 2 + / -2147483648)%R.
Proof.
  rewrite x_fail_count.
  transitivity
    (rsum (fun j => (nth j (LBFGSTest.x_fail_gen (Z.to_nat 32766)) 0 - INR j) ^ 2
                    * / IZR (LBFGSTest.denom2 0 32768 (Z.of_nat j)))%R
          0 (S (S (Z.to_nat 32766)))).
  - apply rsum_ext. intros j Hj.
    rewrite shifted_single_process by (unfold in_int; lia).
    unfold LBFGSTest.at_. rewrite Nat2Z.id, <- INR_IZR_INZ. reflexivity.
  - rewrite x_fail_gen_sum.
    f_equal; f_equal; f_equal; vm_compute; reflexivity.
Qed.

Lemma x_fail_sum :
  rsum (fun j => (LBFGSTest.at_ LBFGSTest.x_fail (Z.of_nat j)
                  - IZR (LBFGSTest.shifted 0 32768 (Z.of_nat j))) ^ 2
                 / IZR (LBFGSTest.denom 0 32768 (Z.of_nat j)))%R 0 (Z.to_nat 32768)
  = (1 + / 1073741824)%R.
Proof.
  rewrite x_fail_count.
  transitivity
    (rsum (fun j => (nth j (LBFGSTest.x_fail_gen (Z.to_nat 32766)) 0 - INR j) ^ 2
                    * / IZR (LBFGSTest.denom 0 32768 (Z.of_nat j)))%R
          0 (S (S (Z.to_nat 32766)))).
  - apply rsum_ext. intros j Hj.
    rewrite shifted_single_process by (unfold in_int; lia).
    unfold LBFGSTest.at_. rewrite Nat2Z.id, <- INR_IZR_INZ. reflexivity.
  - rewrite x_fail_gen_sum.
    replace (LBFGSTest.denom 0 32768 (Z.of_nat 0)) with 1%Z by (vm_compute; reflexivity).
    replace (LBFGSTest.denom 0 32768 (Z.of_nat (S (Z.to_nat 32766))))
      with 1073741824%Z by (vm_compute; reflexivity).
    lra.
Qed.

Lemma x_fail_Sx : LBFGSTest.Sx LBFGSTest.x_fail = (1 + / 1073741824)%R.
Proof.
  unfold LBFGSTest.Sx, LBFGSTest.x_fail. rewrite x_fail_gen_length.
  transitivity
    (rsum (fun j => (nth j (LBFGSTest.x_fail_gen (Z.to_nat 32766)) 0 - INR j) ^ 2
                    * / (INR j + 1) ^ 2)%R
          0 (S (S (Z.to_nat 32766)))).
  - apply rsum_ext. intros j Hj. reflexivity.
  - rewrite x_fail_gen_sum.
    replace (INR (S (Z.to_nat 32766))) with 32767%R
      by (rewrite INR_IZR_INZ; f_equal; lia).
    simpl (INR 0). lra.
Qed.

Lemma x_fail_last : nth (Z.to_nat 32767) LBFGSTest.x_fail 0%R = 32768%R.
Proof.
  replace (Z.to_nat 32767) with (S (Z.to_nat 32766)) by lia.
  unfold LBFGSTest.x_fail. rewrite x_fail_gen_last.
  replace (INR (S (Z.to_nat 32766))) with 32767%R
    by (rewrite INR_IZR_INZ; f_equal; lia).
  lra.
Qed.

(** C8 (at a failing input): with n = 32768 the int product
  2 * 32768 * 32768 wraps to -2147483648.  At the point
  (1, 1, 2, ..., 32766, 32768) the objective returns
  (1/2 - 1/2^31)^2 / 2 and not S^2 / 8 = (1 + 1/2^30)^2 / 8, and the last
  component of the gradient is negative where the analytic one is
  positive. *)
Theorem test_gradient_overflow :
  Z.of_nat (length LBFGSTest.x_fail) = 32768%Z /\
  LBFGSTest.LBFGSFunc_evaluate 0 32768 LBFGSTest.x_fail
    = Ok ((/ 2 + / -2147483648) * (/ 2 + / -2147483648) / 2)%R /\
  LBFGSTest.objective LBFGSTest.x_fail = ((1 + / 1073741824) ^ 2 / 8)%R /\
  LBFGSTest.LBFGSFunc_evaluate 0 32768 LBFGSTest.x_fail
    <> Ok (LBFGSTest.objective LBFGSTest.x_fail) /\
  exists g, LBFGSTest.LBFGSFuncGrad_evaluate 0 32768 LBFGSTest.x_fail [] = Ok g /\
    g !! Z.to_nat 32767 = Some ((1 + / 1073741824) / -2147483648)%R /\
    LBFGSTest.gradient_at LBFGSTest.x_fail (Z.to_nat 32767)
      = ((1 + / 1073741824) / 2147483648)%R.
Proof.
  assert (Hev : LBFGSTest.LBFGSFunc_evaluate 0 32768 LBFGSTest.x_fail
                = Ok ((/ 2 + / -2147483648) * (/ 2 + / -2147483648) / 2)%R).
  { unfold LBFGSTest.LBFGSFunc_evaluate.
    rewrite (proj2 (Z.eqb_eq _ _) x_fail_length), check_true_bind.
    unfold LBFGSTest.indices. rewrite fold_left_rsum. cbv beta.
    rewrite x_fail_res. do 2 f_equal; lra. }
  assert (Hobj : LBFGSTest.objective LBFGSTest.x_fail = ((1 + / 1073741824) ^ 2 / 8)%R).
  { unfold LBFGSTest.objective. rewrite x_fail_Sx. reflexivity. }
  split; [exact x_fail_length|]. split; [exact Hev|]. split; [exact Hobj|]. split.
  - rewrite Hev, Hobj. intros Heq. inversion Heq as [Hv]. lra.
  - unfold LBFGSTest.LBFGSFuncGrad_evaluate.
    rewrite (proj2 (Z.eqb_eq _ _) x_fail_length), check_true_bind.
    eexists. split; [reflexivity|]. split.
    + unfold LBFGSTest.indices.
      rewrite fold_left_insert_lookup by (rewrite resize_length; lia).
      rewrite decide_True by lia. f_equal.
      rewrite fold_left_rsum. cbv beta. rewrite x_fail_sum.
      unfold LBFGSTest.at_. rewrite Nat2Z.id, x_fail_last.
      replace (LBFGSTest.shifted 0 32768 (Z.of_nat (Z.to_nat 32767)))
        with 32767%Z by (vm_compute; reflexivity).
      replace (LBFGSTest.denom2 0 32768 (Z.of_nat (Z.to_nat 32767)))
        with (-2147483648)%Z by (vm_compute; reflexivity).
      lra.
    + unfold LBFGSTest.gradient_at. rewrite x_fail_Sx, x_fail_last.
      replace (INR (Z.to_nat 32767)) with 32767%R
        by (rewrite INR_IZR_INZ; f_equal; lia).
      lra.
Qed.

(** ** The factory *)

(** C7: for every configured dimension n >= 0 the factory is constructed, and
  [giveMeOne] returns a vector of dimension n whose elements are all zero. *)
Theorem giveMeOne_zero_vector (n : Z) :
  (0 <= n)%Z ->
  exists fa v,
    BasicLargeVectorFactory_new n = Ok fa /\
    giveMeOne fa = Ok v /\
    Z.of_nat (dim v) = n /\
    contents v = repeat 0%R (Z.to_nat n) /\
    Forall (fun a => a = 0%R) (contents v).
Proof.
  intros Hn. exists (mkFactory n), (mkVec (repeat 0%R (Z.to_nat n))).
  unfold BasicLargeVectorFactory_new.
  rewrite (proj2 (Z.leb_le 0 n) Hn), check_true_bind.
  repeat split.
  - simpl. unfold Basic_giveMeOne, BasicLargeVector_new. simpl.
    rewrite (proj2 (Z.ltb_ge n 0) Hn). reflexivity.
  - simpl. rewrite repeat_length. lia.
  - simpl. induction (Z.to_nat n); simpl; constructor; auto.
Qed.

Lemma giveMeOne_zero_vector_witness :
  (0 <= 3)%Z /\
  exists fa v,
    BasicLargeVectorFactory_new 3 = Ok fa /\
    giveMeOne fa = Ok v /\
    Z.of_nat (dim v) = 3%Z /\
    contents v = repeat 0%R (Z.to_nat 3) /\
    Forall (fun a => a = 0%R) (contents v).
Proof. split; [lia | apply (giveMeOne_zero_vector 3); lia]. Defined.

(** ** The function binding and its callers *)

Section Binding.
Variable f_evaluate : list R -> result R.
Variable grad_evaluate : list R -> list R -> result (list R).

#[local] Abbreviation act' := (act f_evaluate grad_evaluate).
#[local] Abbreviation acts' := (acts f_evaluate grad_evaluate).
#[local] Abbreviation answer_at' := (answer_at f_evaluate grad_evaluate).
#[local] Abbreviation ops := (LBFGS_func_ops f_evaluate grad_evaluate).

Lemma value_unfold (fn : BasicLBFGSFunc) :
  @value _ _ ops fn = Basic_value f_evaluate fn.
Proof. reflexivity. Qed.

Lemma derivative_unfold (fn : BasicLBFGSFunc) (res : BasicLargeVector) :
  @derivative _ _ ops fn res = Basic_derivative grad_evaluate fn res.
Proof. reflexivity. Qed.

Lemma set_unfold (fn : BasicLBFGSFunc) (x : BasicLargeVector) :
  @set _ _ ops fn x = mkFunc (contents x).
Proof. reflexivity. Qed.

Lemma run_value (fn : BasicLBFGSFunc) (w : World) :
  run (Basic_value f_evaluate fn) w
  = (match f_evaluate (x_ fn) with
     | Ok v => Ok (v, fn)
     | Raise e => Raise e
     end,
     mkWorld (cb_ w) (trace w ++ [EvObjective (x_ fn)])).
Proof.
  unfold Basic_value. simpl. destruct (f_evaluate (x_ fn)); reflexivity.
Qed.

Lemma run_derivative (fn : BasicLBFGSFunc) (res : BasicLargeVector) (w : World) :
  run (Basic_derivative grad_evaluate fn res) w
  = (match grad_evaluate (x_ fn) (contents res) with
     | Ok r => Ok (mkVec r, fn)
     | Raise e => Raise e
     end,
     mkWorld (cb_ w) (trace w ++ [EvGradient (x_ fn)])).
Proof.
  unfold Basic_derivative. simpl.
  destruct (grad_evaluate (x_ fn) (contents res)); reflexivity.
Qed.

(** A request leaves the bound point alone, makes one external call at the
    bound point and answers with what that call gives. *)
Lemma act_request (c : Caller) (a : Action) :
  is_set a = false ->
  binding (act' c a) = binding c /\
  cb_ (world (act' c a)) = cb_ (world c) /\
  trace (world (act' c a))
    = trace (world c) ++ option_list (event_at (x_ (binding c)) a) /\
  answers (act' c a)
    = answers c ++ option_list (answer_at' (x_ (binding c)) a).
Proof.
  intros Ha. destruct a as [p| |res|p v|p]; try discriminate;
    cbv beta iota delta [act].
  - rewrite value_unfold, run_value. simpl.
    destruct (f_evaluate (x_ (binding c))); simpl; auto.
  - rewrite derivative_unfold, run_derivative. simpl.
    destruct (grad_evaluate (x_ (binding c)) res); simpl; auto.
  - simpl. rewrite !app_nil_r. auto.
  - simpl. rewrite !app_nil_r. auto.
Qed.

Lemma acts_requests (l : list Action) (c : Caller) :
  forallb (fun a => negb (is_set a)) l = true ->
  binding (acts' c l) = binding c /\
  cb_ (world (acts' c l)) = cb_ (world c) /\
  trace (world (acts' c l))
    = trace (world c) ++ omap (event_at (x_ (binding c))) l /\
  answers (acts' c l)
    = answers c ++ omap (answer_at' (x_ (binding c))) l.
Proof.
  revert c. induction l as [|a l IH]; intros c Hl; simpl.
  - rewrite !app_nil_r. auto.
  - simpl in Hl. apply andb_prop in Hl as [Ha Hl].
    apply negb_true_iff in Ha.
    destruct (act_request c a Ha) as (Hb & Hc & Ht & Hans).
    destruct (IH (act' c a) Hl) as (Hb' & Hc' & Ht' & Hans').
    unfold acts in *. simpl. rewrite Hb', Hc', Ht', Hans', Hb, Hc, Ht, Hans.
    repeat split; auto.
    + rewrite <- app_assoc. f_equal.
      destruct (event_at (x_ (binding c)) a); reflexivity.
    + rewrite <- app_assoc. f_equal.
      destruct (answer_at' (x_ (binding c)) a); reflexivity.
Qed.

(** [set] copies the contents of the vector it is given and calls nothing. *)
Lemma act_set (c : Caller) (p : nat) (v : BasicLargeVector) :
  storage c !! p = Some v ->
  x_ (binding (act' c (ASet p))) = contents v /\
  world (act' c (ASet p)) = world c /\
  answers (act' c (ASet p)) = answers c.
Proof.
  intros Hp. cbv beta iota delta [act]. rewrite Hp, set_unfold. simpl. auto.
Qed.

Lemma set_then_requests (c : Caller) (p : nat) (v : BasicLargeVector)
      (l : list Action) :
  storage c !! p = Some v ->
  forallb (fun a => negb (is_set a)) l = true ->
  x_ (binding (acts' c (ASet p :: l))) = contents v /\
  cb_ (world (acts' c (ASet p :: l))) = cb_ (world c) /\
  trace (world (acts' c (ASet p :: l)))
    = trace (world c) ++ omap (event_at (contents v)) l /\
  answers (acts' c (ASet p :: l))
    = answers c ++ omap (answer_at' (contents v)) l.
Proof.
  intros Hp Hl.
  destruct (act_set c p v Hp) as (Hx & Hw & Hans).
  destruct (acts_requests l (act' c (ASet p)) Hl) as (Hb & Hc & Ht & Ha).
  change (acts' c (ASet p :: l)) with (acts' (act' c (ASet p)) l).
  rewrite Hb, Hc, Ht, Ha, Hx, Hw, Hans. auto.
Qed.

Lemma omap_event_at_values (x : list R) (k : nat) :
  omap (event_at x) (repeat AValue k) = repeat (EvObjective x) k.
Proof. induction k as [|k IH]; simpl; [reflexivity|]. f_equal. exact IH. Qed.

Lemma omap_event_at_derivatives (x res : list R) (k : nat) :
  omap (event_at x) (repeat (ADerivative res) k) = repeat (EvGradient x) k.
Proof. induction k as [|k IH]; simpl; [reflexivity|]. f_equal. exact IH. Qed.

Lemma no_set_repeat (a : Action) (k : nat) :
  is_set a = false -> forallb (fun a => negb (is_set a)) (repeat a k) = true.
Proof.
  intros Ha. induction k as [|k IH]; simpl; [reflexivity|].
  rewrite Ha, IH. reflexivity.
Qed.

Lemma omap_answer_at_requests (x : list R) (l : list Action) :
  omap (answer_at' x) l = omap (answer_at' x) (List.filter is_request l).
Proof.
  induction l as [|a l IH]; [reflexivity|].
  destruct a; simpl; first [exact IH | apply (f_equal (cons _)); exact IH].
Qed.
End Binding.

Lemma demo_caller_vector : storage demo_caller !! 0%nat = Some (mkVec [0%R]).
Proof. unfold demo_caller. simpl. apply lookup_singleton_eq. Qed.

(** C5 (as stated, refuted): two [value()] requests after one [set] evaluate
    the external objective twice at the same point, not at most once. *)
Lemma value_not_cached :
  trace (world (acts demo_f demo_grad demo_caller [ASet 0; AValue; AValue]))
  = [EvObjective [0%R]; EvObjective [0%R]] /\
  ~ (length (List.filter is_objective
       (trace (world (acts demo_f demo_grad demo_caller [ASet 0; AValue; AValue]))))
     <= 1)%nat.
Proof.
  destruct (set_then_requests demo_f demo_grad demo_caller 0 (mkVec [0%R])
              [AValue; AValue] demo_caller_vector eq_refl) as (_ & _ & Ht & _).
  rewrite Ht. simpl. split; [reflexivity|lia].
Qed.

(** C5 (amended): [set] stores the contents of its argument as the evaluation
    point and evaluates nothing; there is no cached value or derivative, and
    every request after it makes exactly one external evaluation, at the
    stored point: k [value()] requests evaluate the objective k times, k
    [derivative()] requests evaluate the gradient k times. *)
Theorem value_evaluates_per_request
        (f_evaluate : list R -> result R)
        (grad_evaluate : list R -> list R -> result (list R))
        (c : Caller) (p : nat) (v : BasicLargeVector) (l : list Action) :
  storage c !! p = Some v ->
  forallb (fun a => negb (is_set a)) l = true ->
  x_ (binding (act f_evaluate grad_evaluate c (ASet p))) = contents v /\
  world (act f_evaluate grad_evaluate c (ASet p)) = world c /\
  trace (world (acts f_evaluate grad_evaluate c (ASet p :: l)))
    = trace (world c) ++ omap (event_at (contents v)) l /\
  (forall k,
      trace (world (acts f_evaluate grad_evaluate c (ASet p :: repeat AValue k)))
      = trace (world c) ++ repeat (EvObjective (contents v)) k) /\
  (forall k res,
      trace (world (acts f_evaluate grad_evaluate c
                          (ASet p :: repeat (ADerivative res) k)))
      = trace (world c) ++ repeat (EvGradient (contents v)) k).
Proof.
  intros Hp Hl.
  destruct (act_set f_evaluate grad_evaluate c p v Hp) as (Hx & Hw & _).
  split; [exact Hx|]. split; [exact Hw|]. split; [|split].
  - apply (set_then_requests f_evaluate grad_evaluate c p v l Hp Hl).
  - intros k.
    destruct (set_then_requests f_evaluate grad_evaluate c p v (repeat AValue k) Hp
                (no_set_repeat AValue k eq_refl)) as (_ & _ & Ht & _).
    rewrite Ht, omap_event_at_values. reflexivity.
  - intros k res.
    destruct (set_then_requests f_evaluate grad_evaluate c p v
                (repeat (ADerivative res) k) Hp
                (no_set_repeat (ADerivative res) k eq_refl)) as (_ & _ & Ht & _).
    rewrite Ht, omap_event_at_derivatives. reflexivity.
Qed.

Lemma value_evaluates_per_request_witness :
  trace (world (acts demo_f demo_grad demo_caller
                     (ASet 0 :: [AValue; ADerivative []; AValue])))
  = trace (world demo_caller)
    ++ omap (event_at (contents (mkVec [0%R]))) [AValue; ADerivative []; AValue].
Proof.
  apply (value_evaluates_per_request demo_f demo_grad demo_caller 0 (mkVec [0%R])
           [AValue; ADerivative []; AValue]).
  - exact demo_caller_vector.
  - reflexivity.
Defined.

(** C6: after one [set] the answers are determined by the bound point alone.
    Whatever requests follow, in whatever order and number, each [value()]
    returns what the objective gives at the bound point and each
    [derivative()] what the gradient gives there, and the bound point stays;
    in particular two [value()] requests return the identical result. *)
Theorem bound_evaluation_idempotent
        (f_evaluate : list R -> result R)
        (grad_evaluate : list R -> list R -> result (list R))
        (c : Caller) (p : nat) (v : BasicLargeVector) (l : list Action) :
  storage c !! p = Some v ->
  forallb (fun a => negb (is_set a)) l = true ->
  x_ (binding (acts f_evaluate grad_evaluate c (ASet p :: l))) = contents v /\
  answers (acts f_evaluate grad_evaluate c (ASet p :: l))
    = answers c ++ omap (answer_at f_evaluate grad_evaluate (contents v)) l /\
  answers (acts f_evaluate grad_evaluate c [ASet p; AValue; AValue])
    = answers c ++ [AnsValue (f_evaluate (contents v));
                    AnsValue (f_evaluate (contents v))].
Proof.
  intros Hp Hl.
  destruct (set_then_requests f_evaluate grad_evaluate c p v l Hp Hl)
    as (Hx & _ & _ & Ha).
  split; [exact Hx|]. split; [exact Ha|].
  destruct (set_then_requests f_evaluate grad_evaluate c p v [AValue; AValue] Hp eq_refl)
    as (_ & _ & _ & Ha2).
  exact Ha2.
Qed.

Lemma bound_evaluation_idempotent_witness :
  answers (acts demo_f demo_grad demo_caller [ASet 0; AValue; AValue])
  = answers demo_caller ++ [AnsValue (demo_f (contents (mkVec [0%R])));
                            AnsValue (demo_f (contents (mkVec [0%R])))].
Proof.
  apply (bound_evaluation_idempotent demo_f demo_grad demo_caller 0 (mkVec [0%R])
           [ADerivative []; AValue; ADerivative [1%R]]).
  - exact demo_caller_vector.
  - reflexivity.
Defined.

(** C9: [set] copies.  Two runs call [set] on vectors of equal contents and
    then make the same requests in the same order; each run may besides
    overwrite or destroy any vector, the one given to [set] included.  The
    runs receive the same answers. *)
Theorem set_copies_the_point
        (f_evaluate : list R -> result R)
        (grad_evaluate : list R -> list R -> result (list R))
        (c1 c2 : Caller) (p1 p2 : nat) (v1 v2 : BasicLargeVector)
        (l1 l2 : list Action) :
  storage c1 !! p1 = Some v1 ->
  storage c2 !! p2 = Some v2 ->
  contents v1 = contents v2 ->
  forallb (fun a => negb (is_set a)) l1 = true ->
  forallb (fun a => negb (is_set a)) l2 = true ->
  List.filter is_request l1 = List.filter is_request l2 ->
  exists ans,
    answers (acts f_evaluate grad_evaluate c1 (ASet p1 :: l1)) = answers c1 ++ ans /\
    answers (acts f_evaluate grad_evaluate c2 (ASet p2 :: l2)) = answers c2 ++ ans /\
    ans = omap (answer_at f_evaluate grad_evaluate (contents v1))
               (List.filter is_request l1).
Proof.
  intros Hp1 Hp2 Hv Hl1 Hl2 Hreq.
  destruct (set_then_requests f_evaluate grad_evaluate c1 p1 v1 l1 Hp1 Hl1)
    as (_ & _ & _ & Ha1).
  destruct (set_then_requests f_evaluate grad_evaluate c2 p2 v2 l2 Hp2 Hl2)
    as (_ & _ & _ & Ha2).
  eexists. split; [|split; [|reflexivity]].
  - rewrite Ha1, omap_answer_at_requests. reflexivity.
  - rewrite Ha2, omap_answer_at_requests, <- Hv, <- Hreq. reflexivity.
Qed.

Lemma set_copies_the_point_witness :
  exists ans,
    answers (acts demo_f demo_grad demo_caller
                  (ASet 0 :: [AWrite 0 [5%R]; AValue; AFree 0; ADerivative []]))
      = answers demo_caller ++ ans /\
    answers (acts demo_f demo_grad demo_caller (ASet 0 :: [AValue; ADerivative []]))
      = answers demo_caller ++ ans /\
    ans = omap (answer_at demo_f demo_grad (contents (mkVec [0%R])))
               (List.filter is_request [AWrite 0 [5%R]; AValue; AFree 0; ADerivative []]).
Proof.
  apply (set_copies_the_point demo_f demo_grad demo_caller demo_caller 0 0
           (mkVec [0%R]) (mkVec [0%R])
           [AWrite 0 [5%R]; AValue; AFree 0; ADerivative []] [AValue; ADerivative []]).
  - exact demo_caller_vector.
  - exact demo_caller_vector.
  - reflexivity.
  - reflexivity.
  - reflexivity.
  - reflexivity.
Defined.

(** ** Reasoning about computations in [M] and in [result] *)

Lemma run_bind {A B} (c : M A) (k : A -> M B) (w : World) :
  run (c ≫= k) w
  = match run c w with
    | (Ok a, w') => run (k a) w'
    | (Raise e, w') => (Raise e, w')
    end.
Proof. reflexivity. Qed.

Section Rules.
Context {A B : Type}.

Lemma preserves_bind (I : World -> Prop) (c : M A) (k : A -> M B) :
  preserves I c -> (forall a, preserves I (k a)) -> preserves I (c ≫= k).
Proof.
  intros Hc Hk w Hw. rewrite run_bind. specialize (Hc w Hw).
  destruct (run c w) as [[a|e] w']; simpl in *; [apply Hk; exact Hc | exact Hc].
Qed.

Lemma preserves_ret (I : World -> Prop) (a : A) : preserves I (mret a).
Proof. intros w Hw. exact Hw. Qed.

Lemma preserves_lift (I : World -> Prop) (r : result A) : preserves I (lift r).
Proof. intros w Hw. exact Hw. Qed.

Lemma preserves_raise (I : World -> Prop) (e : exn) : preserves I (@raise A e).
Proof. intros w Hw. exact Hw. Qed.

Lemma returns_bind (Q1 : A -> Prop) (Q : B -> Prop) (c : M A) (k : A -> M B) :
  returns Q1 c -> (forall a, Q1 a -> returns Q (k a)) -> returns Q (c ≫= k).
Proof.
  intros Hc Hk w b. rewrite run_bind. specialize (Hc w).
  destruct (run c w) as [[a|e] w']; simpl in *; [|discriminate].
  apply (Hk a (Hc a eq_refl)).
Qed.

Lemma returns_any (c : M A) : returns (fun _ => True) c.
Proof. intros w a _. exact I. Qed.

Lemma returns_ret (Q : A -> Prop) (a : A) : Q a -> returns Q (mret a).
Proof. intros Ha w a' Heq. simpl in Heq. injection Heq as <-. exact Ha. Qed.

Lemma returns_lift (r : result A) : returns (fun a => r = Ok a) (lift r).
Proof. intros w a Heq. exact Heq. Qed.

Lemma returns_raise (Q : A -> Prop) (e : exn) : returns Q (raise e).
Proof. intros w a Heq. discriminate. Qed.

Lemma throws_bind (E : exn -> Prop) (c : M A) (k : A -> M B) :
  throws E c -> (forall a, throws E (k a)) -> throws E (c ≫= k).
Proof.
  intros Hc Hk w e. rewrite run_bind. specialize (Hc w).
  destruct (run c w) as [[a|e'] w']; simpl in *.
  - apply Hk.
  - intros Heq. apply Hc. injection Heq as ->. reflexivity.
Qed.

Lemma throws_ret (E : exn -> Prop) (a : A) : throws E (mret a).
Proof. intros w e Heq. discriminate. Qed.

Lemma throws_lift (E : exn -> Prop) (r : result A) :
  result_throws E r -> throws E (lift r).
Proof. intros Hr w e Heq. apply Hr. exact Heq. Qed.

Lemma throws_raise (E : exn -> Prop) (e : exn) : E e -> throws E (@raise A e).
Proof. intros He w e' Heq. simpl in Heq. injection Heq as <-. exact He. Qed.

Lemma result_throws_bind (E : exn -> Prop) (r : result A) (k : A -> result B) :
  result_throws E r -> (forall a, result_throws E (k a)) ->
  result_throws E (r ≫= k).
Proof.
  intros Hr Hk e. destruct r as [a|e']; simpl.
  - apply Hk.
  - intros Heq. apply Hr. injection Heq as ->. reflexivity.
Qed.

Lemma result_throws_ret (E : exn -> Prop) (a : A) : result_throws E (mret a).
Proof. intros e Heq. discriminate. Qed.

Lemma result_returns_bind (Q1 : A -> Prop) (Q : B -> Prop)
      (r : result A) (k : A -> result B) :
  result_returns Q1 r -> (forall a, Q1 a -> result_returns Q (k a)) ->
  result_returns Q (r ≫= k).
Proof.
  intros Hr Hk b. destruct r as [a|e]; simpl; [|discriminate].
  apply Hk, Hr. reflexivity.
Qed.

Lemma succeeds_bind (Q1 : A -> Prop) (Q : B -> Prop) (c : M A) (k : A -> M B) :
  succeeds Q1 c -> (forall a, Q1 a -> succeeds Q (k a)) -> succeeds Q (c ≫= k).
Proof.
  intros Hc Hk w. rewrite run_bind.
  destruct (Hc w) as (a & w1 & -> & Ha). apply (Hk a Ha).
Qed.

Lemma succeeds_ret (Q : A -> Prop) (a : A) : Q a -> succeeds Q (mret a).
Proof. intros Ha w. exists a, w. split; [reflexivity|exact Ha]. Qed.

Lemma succeeds_lift (Q : A -> Prop) (r : result A) :
  result_succeeds Q r -> succeeds Q (lift r).
Proof. intros (a & -> & Ha) w. exists a, w. split; [reflexivity|exact Ha]. Qed.

Lemma result_succeeds_bind (Q1 : A -> Prop) (Q : B -> Prop)
      (r : result A) (k : A -> result B) :
  result_succeeds Q1 r -> (forall a, Q1 a -> result_succeeds Q (k a)) ->
  result_succeeds Q (r ≫= k).
Proof. intros (a & -> & Ha) Hk. apply (Hk a Ha). Qed.

Lemma result_succeeds_ret (Q : A -> Prop) (a : A) :
  Q a -> result_succeeds Q (mret a).
Proof. intros Ha. exists a. split; [reflexivity|exact Ha]. Qed.
End Rules.

Lemma preserves_emit (I : World -> Prop) (ev : Event) :
  (forall w, I w -> I (mkWorld (cb_ w) (trace w ++ [ev]))) ->
  preserves I (emit ev).
Proof. intros H w Hw. apply H, Hw. Qed.

Lemma throws_emit (E : exn -> Prop) (ev : Event) : throws E (emit ev).
Proof. intros w e Heq. discriminate. Qed.

Lemma null_callback_emit (calls : list Event) (ev : Event) (w : World) :
  is_callback ev = false ->
  null_callback calls w ->
  null_callback calls (mkWorld (cb_ w) (trace w ++ [ev])).
Proof.
  intros Hev [Hcb Hcalls]. split; [exact Hcb|]. simpl.
  rewrite List.filter_app. simpl. rewrite Hev, app_nil_r. exact Hcalls.
Qed.

Ltac mstep :=
  lazymatch goal with
  | |- preserves _ (_ ≫= _) => apply preserves_bind; [|intros ?]
  | |- preserves _ (mret _) => apply preserves_ret
  | |- preserves _ (lift _) => apply preserves_lift
  | |- preserves _ (raise _) => apply preserves_raise
  | |- throws _ (_ ≫= _) => apply throws_bind; [|intros ?]
  | |- throws _ (mret _) => apply throws_ret
  | |- throws _ (lift _) => apply throws_lift
  | |- throws _ (emit _) => apply throws_emit
  | |- result_throws _ (_ ≫= _) => apply result_throws_bind; [|intros ?]
  | |- result_throws _ (mret _) => apply result_throws_ret
  | |- _ _ (match ?x with _ => _ end) => destruct x
  end.

(** ** The engine *)

Section EngineFacts.
Context {V Fa F : Type}.
Context `{!LargeVector V} `{!LargeVectorFactory Fa V} `{!Function F V}.
Variable c1 contraction : R.
Variable max_contractions : nat.
Variable eps_curvature : R.

#[local] Abbreviation backtrack' := (backtrack (F:=F) c1 contraction).
#[local] Abbreviation line_search' := (line_search (F:=F) c1 contraction max_contractions).
#[local] Abbreviation iteration' :=
  (iteration (F:=F) c1 contraction max_contractions eps_curvature).
#[local] Abbreviation iterate' :=
  (iterate (F:=F) c1 contraction max_contractions eps_curvature).
#[local] Abbreviation minimize' :=
  (LBFGS_General_minimize (Fa:=Fa) (F:=F) c1 contraction max_contractions eps_curvature).

(** *** What the run does to the world comes from the function binding and
    from the progress callback only *)

Section Preserves.
Variable I : World -> Prop.
Hypothesis value_preserves : forall fn : F, preserves I (value fn).
Hypothesis derivative_preserves :
  forall (fn : F) (v : V), preserves I (derivative fn v).
Variable cb : option (@callback_t V).
Hypothesis cb_preserves :
  forall progress, cb = Some progress ->
                   forall it f gn v, preserves I (progress it f gn v).

Lemma backtrack_preserves (budget : nat) work fn x d f0 slope t :
  preserves I (backtrack' budget work fn x d f0 slope t).
Proof using value_preserves.
  revert fn t. induction budget as [|budget IH]; intros fn t;
    cbn [backtrack]; repeat mstep; auto.
Qed.

Lemma line_search_preserves work fn x d f0 g0 :
  preserves I (line_search' work fn x d f0 g0).
Proof using value_preserves.
  unfold line_search. repeat mstep. apply backtrack_preserves.
Qed.

Lemma iteration_preserves work epsilon gNormTol l :
  preserves I (iteration' work epsilon gNormTol cb l).
Proof using value_preserves derivative_preserves cb_preserves.
  unfold iteration. mstep; [mstep|]. mstep; [apply line_search_preserves|].
  repeat mstep; auto.
Qed.

Lemma iterate_preserves cap work epsilon gNormTol l :
  preserves I (iterate' cap work epsilon gNormTol cb l).
Proof using value_preserves derivative_preserves cb_preserves.
  revert l. induction cap as [|cap IH]; intros l; cbn [iterate].
  - mstep.
  - mstep; [apply iteration_preserves|]. repeat mstep; auto.
Qed.

Lemma minimize_preserves this fn res epsilon gNormTol maxIter :
  preserves I (minimize' this fn res epsilon gNormTol maxIter cb).
Proof using value_preserves derivative_preserves cb_preserves.
  unfold LBFGS_General_minimize. repeat mstep; auto using iterate_preserves.
Qed.
End Preserves.

(** *** The exceptions that leave the engine *)

Section Throws.
Variable E : exn -> Prop.
Hypothesis dimension_mismatch_in : E DimensionMismatch.
Hypothesis copy_throws : forall (a b : V) c, result_throws E (copy a b c).
Hypothesis add_throws : forall (a b : V) c, result_throws E (add a b c).
Hypothesis dotProduct_throws : forall a b : V, result_throws E (dotProduct a b).
Hypothesis value_throws : forall fn : F, throws E (value fn).
Hypothesis derivative_throws : forall (fn : F) (v : V), throws E (derivative fn v).
Variable cb : option (@callback_t V).
Hypothesis cb_throws :
  forall progress, cb = Some progress ->
                   forall it f gn v, throws E (progress it f gn v).

Lemma hb_insert_throws hb (s y : V) :
  result_throws E (hb_insert eps_curvature hb s y).
Proof using dotProduct_throws.
  unfold hb_insert. repeat mstep; auto.
Qed.

Lemma first_loop_throws (es : list (@HistoryEntry V)) q :
  result_throws E (first_loop es q).
Proof using dotProduct_throws add_throws.
  revert q. induction es as [|e es IH]; intros q; cbn [first_loop];
    repeat mstep; auto.
Qed.

Lemma second_loop_throws (es : list (@HistoryEntry V * R)) r :
  result_throws E (second_loop es r).
Proof using dotProduct_throws add_throws.
  revert r. induction es as [|[e alpha] es IH]; intros r; cbn [second_loop];
    repeat mstep; auto.
Qed.

Lemma initial_scaling_throws (es : list (@HistoryEntry V)) :
  result_throws E (initial_scaling es).
Proof using dotProduct_throws.
  unfold initial_scaling. repeat mstep; auto.
Qed.

Lemma direction_throws work hb (g : V) :
  result_throws E (direction work hb g).
Proof using dotProduct_throws add_throws copy_throws.
  unfold direction.
  repeat mstep;
    auto using first_loop_throws, second_loop_throws, initial_scaling_throws.
Qed.

Lemma backtrack_throws (budget : nat) work fn x d f0 slope t :
  throws E (backtrack' budget work fn x d f0 slope t).
Proof using value_throws add_throws copy_throws.
  revert fn t. induction budget as [|budget IH]; intros fn t;
    cbn [backtrack]; repeat mstep; auto.
Qed.

Lemma line_search_throws work fn x d f0 g0 :
  throws E (line_search' work fn x d f0 g0).
Proof using value_throws add_throws copy_throws dotProduct_throws.
  unfold line_search. repeat mstep; auto using backtrack_throws.
Qed.

Lemma iteration_throws work epsilon gNormTol l :
  throws E (iteration' work epsilon gNormTol cb l).
Proof using value_throws derivative_throws add_throws copy_throws
  dotProduct_throws cb_throws.
  unfold iteration.
  repeat mstep;
    auto using direction_throws, line_search_throws, hb_insert_throws.
Qed.

Lemma iterate_throws cap work epsilon gNormTol l :
  throws E (iterate' cap work epsilon gNormTol cb l).
Proof using value_throws derivative_throws add_throws copy_throws
  dotProduct_throws cb_throws.
  revert l. induction cap as [|cap IH]; intros l; cbn [iterate];
    repeat mstep; auto using iteration_throws.
Qed.

Lemma minimize_throws this fn res epsilon gNormTol maxIter :
  result_throws E (giveMeOne (eng_factory this)) ->
  throws E (minimize' this fn res epsilon gNormTol maxIter cb).
Proof using value_throws derivative_throws add_throws copy_throws
  dotProduct_throws cb_throws dimension_mismatch_in.
  intros Hgive. unfold LBFGS_General_minimize.
  repeat mstep; auto using iterate_throws, throws_raise.
Qed.
End Throws.

(** *** A run that cannot fail

    When every vector of a run has the dimension [n], the vector operations
    succeed on vectors of that dimension, and the function binding and the
    progress callback return, then every step of the engine returns, so
    that the run ends in one of its terminal states. *)

Section Returns.
Variable n : nat.
(** The function binding is bound to a point of dimension [n]. *)
Variable bound : F -> Prop.
Hypothesis copy_ok :
  forall (a b : V) c, dim a = n -> dim b = n ->
                      result_succeeds (fun r => dim r = n) (copy a b c).
Hypothesis add_ok :
  forall (a b : V) c, dim a = n -> dim b = n ->
                      result_succeeds (fun r => dim r = n) (add a b c).
Hypothesis dotProduct_ok :
  forall a b : V, dim a = n -> dim b = n ->
                  result_succeeds (fun _ => True) (dotProduct a b).
Hypothesis set_ok : forall (fn : F) (x : V), dim x = n -> bound (set fn x).
Hypothesis value_ok :
  forall fn : F, bound fn -> succeeds (fun r => bound r.2) (value fn).
Hypothesis derivative_ok :
  forall (fn : F) (v : V),
    bound fn -> dim v = n ->
    succeeds (fun r => dim r.1 = n /\ bound r.2) (derivative fn v).
Variable cb : option (@callback_t V).
Hypothesis cb_ok :
  forall progress, cb = Some progress ->
                   forall it f gn v, succeeds (fun _ => True) (progress it f gn v).

#[local] Abbreviation entry_dim :=
  (fun e : @HistoryEntry V => dim (s_k e) = n /\ dim (y_k e) = n).
#[local] Abbreviation loop_dim :=
  (fun l : @Loop V F =>
     dim (st_x (opt l)) = n /\ dim (st_g (opt l)) = n /\
     Forall entry_dim (entries (hist l))).

Lemma hb_insert_ok hb (s y : V) :
  Forall entry_dim (entries hb) -> dim s = n -> dim y = n ->
  result_succeeds (fun hb' => Forall entry_dim (entries hb'))
                  (hb_insert eps_curvature hb s y).
Proof using dotProduct_ok.
  intros Hall Hs Hy. unfold hb_insert.
  destruct (dotProduct_ok s y Hs Hy) as (sy & -> & _). cbn [mbind result_bind].
  destruct (Rle_dec sy eps_curvature); [exists hb; split; [reflexivity|exact Hall]|].
  eexists. split; [reflexivity|]. cbn [entries]. apply Forall_app. split.
  - destruct (depth hb <=? length (entries hb))%nat; [|exact Hall].
    destruct (entries hb); [constructor|]. inversion Hall; assumption.
  - constructor; [split; assumption|constructor].
Qed.

Lemma first_loop_ok (es : list (@HistoryEntry V)) q :
  Forall entry_dim es -> dim q = n ->
  result_succeeds (fun r => dim r.1 = n) (first_loop es q).
Proof using dotProduct_ok add_ok.
  revert q. induction es as [|e es IH]; intros q Hall Hq; cbn [first_loop].
  - apply result_succeeds_ret. exact Hq.
  - inversion Hall as [|e' es' [Hse Hye] Hes]; subst e' es'.
    eapply result_succeeds_bind; [apply dotProduct_ok; assumption|intros sq _].
    eapply result_succeeds_bind; [apply add_ok; assumption|intros q' Hq'].
    eapply result_succeeds_bind; [apply IH; assumption|intros [q'' alphas] Hq''].
    apply result_succeeds_ret. exact Hq''.
Qed.

Lemma initial_scaling_ok (es : list (@HistoryEntry V)) :
  Forall entry_dim es -> result_succeeds (fun _ => True) (initial_scaling es).
Proof using dotProduct_ok.
  intros Hall. unfold initial_scaling.
  destruct (last es) as [e|] eqn:Hlast; [|apply result_succeeds_ret; exact I].
  apply last_Some in Hlast as [es' ->].
  apply Forall_app in Hall as [_ He]. inversion He as [|e' l' [Hse Hye] _]; subst e' l'.
  eapply result_succeeds_bind; [apply dotProduct_ok; assumption|intros sy _].
  eapply result_succeeds_bind; [apply dotProduct_ok; assumption|intros yy _].
  apply result_succeeds_ret. exact I.
Qed.

Lemma second_loop_ok (es : list (@HistoryEntry V * R)) r :
  Forall (fun p => entry_dim p.1) es -> dim r = n ->
  result_succeeds (fun r' => dim r' = n) (second_loop es r).
Proof using dotProduct_ok add_ok.
  revert r. induction es as [|[e alpha] es IH]; intros r Hall Hr; cbn [second_loop].
  - apply result_succeeds_ret. exact Hr.
  - inversion Hall as [|p' es' [Hse Hye] Hes]; subst p' es'. cbn [fst] in Hse, Hye.
    eapply result_succeeds_bind; [apply dotProduct_ok; assumption|intros yr _].
    eapply result_succeeds_bind; [apply add_ok; assumption|intros r' Hr'].
    apply IH; assumption.
Qed.

Lemma zip_entry_dim (es : list (@HistoryEntry V)) (alphas : list R) :
  Forall entry_dim es -> Forall (fun p => entry_dim p.1) (zip es alphas).
Proof using Type.
  revert alphas. induction es as [|e es IH]; intros [|a alphas] Hall;
    cbn; try constructor.
  - inversion Hall; assumption.
  - apply IH. inversion Hall; assumption.
Qed.

Lemma direction_ok work hb (g : V) :
  dim work = n -> Forall entry_dim (entries hb) -> dim g = n ->
  result_succeeds (fun d => dim d = n) (direction work hb g).
Proof using dotProduct_ok add_ok copy_ok.
  intros Hwork Hall Hg. unfold direction.
  eapply result_succeeds_bind; [apply copy_ok; assumption|intros q0 Hq0].
  eapply result_succeeds_bind;
    [apply first_loop_ok; [apply Forall_rev; exact Hall|exact Hq0]
    |intros [q alphas] Hq]. cbn [fst] in Hq.
  eapply result_succeeds_bind; [apply initial_scaling_ok; exact Hall|intros gamma _].
  eapply result_succeeds_bind; [apply copy_ok; assumption|intros r0 Hr0].
  eapply result_succeeds_bind;
    [apply second_loop_ok; [apply zip_entry_dim; exact Hall|exact Hr0]
    |intros r Hr].
  apply copy_ok; assumption.
Qed.

Lemma backtrack_ok (budget : nat) work fn x d f0 slope t :
  dim work = n -> dim x = n -> dim d = n ->
  succeeds (fun r => bound r.2 /\
                     match r.1 with
                     | Some (_, xt, _) => dim xt = n
                     | None => True
                     end)
           (backtrack' budget work fn x d f0 slope t).
Proof using value_ok set_ok add_ok copy_ok.
  intros Hwork Hx Hd. revert fn t.
  induction budget as [|budget IH]; intros fn t; cbn [backtrack].
  - eapply succeeds_bind; [apply succeeds_lift, copy_ok; assumption|intros x0 Hx0].
    eapply succeeds_bind; [apply succeeds_lift, add_ok; assumption|intros xt Hxt].
    eapply succeeds_bind; [apply value_ok, set_ok; exact Hxt|intros [ft fn'] Hfn'].
    cbn [snd] in Hfn'.
    destruct (Rle_dec ft _); apply succeeds_ret; cbn; auto.
  - eapply succeeds_bind; [apply succeeds_lift, copy_ok; assumption|intros x0 Hx0].
    eapply succeeds_bind; [apply succeeds_lift, add_ok; assumption|intros xt Hxt].
    eapply succeeds_bind; [apply value_ok, set_ok; exact Hxt|intros [ft fn'] Hfn'].
    cbn [snd] in Hfn'.
    destruct (Rle_dec ft _); [apply succeeds_ret; cbn; auto|apply IH].
Qed.

Lemma line_search_ok work fn x d f0 g0 :
  dim work = n -> dim x = n -> dim d = n -> dim g0 = n ->
  succeeds (fun r => bound r.2 /\
                     match r.1 with
                     | Some (_, xt, _) => dim xt = n
                     | None => True
                     end)
           (line_search' work fn x d f0 g0).
Proof using value_ok set_ok add_ok copy_ok dotProduct_ok.
  intros Hwork Hx Hd Hg. unfold line_search.
  eapply succeeds_bind;
    [apply succeeds_lift, dotProduct_ok; assumption|intros slope _].
  apply backtrack_ok; assumption.
Qed.

Lemma iteration_ok work epsilon gNormTol l :
  dim work = n -> loop_dim l ->
  succeeds (fun r => loop_dim r.2) (iteration' work epsilon gNormTol cb l).
Proof using value_ok set_ok add_ok copy_ok dotProduct_ok derivative_ok cb_ok.
  intros Hwork (Hx & Hg & Hall). unfold iteration.
  eapply succeeds_bind;
    [apply succeeds_lift, direction_ok; assumption|intros d Hd].
  eapply succeeds_bind;
    [apply line_search_ok; assumption|intros [found fn1] [Hfn1 Hfound]].
  cbn [fst snd] in Hfn1, Hfound.
  destruct found as [[[t x_new] f_new]|];
    [|apply succeeds_ret; cbn; auto].
  eapply succeeds_bind;
    [apply derivative_ok; assumption|intros [g_new fn2] [Hgn Hfn2]].
  cbn [fst snd] in Hgn, Hfn2.
  eapply succeeds_bind; [apply succeeds_lift, copy_ok; assumption|intros s0 Hs0].
  eapply succeeds_bind; [apply succeeds_lift, add_ok; assumption|intros s Hs].
  eapply succeeds_bind; [apply succeeds_lift, copy_ok; assumption|intros y0 Hy0].
  eapply succeeds_bind; [apply succeeds_lift, add_ok; assumption|intros y Hy].
  eapply succeeds_bind;
    [apply succeeds_lift, hb_insert_ok; assumption|intros hist' Hhist'].
  eapply succeeds_bind with (Q1 := fun _ => True).
  - destruct cb as [progress|]; [apply (cb_ok progress eq_refl)|].
    apply succeeds_ret. exact I.
  - intros _ _. destruct (converged _ _ _ _ _); apply succeeds_ret; cbn; auto.
Qed.

Lemma iterate_ok cap work epsilon gNormTol l :
  dim work = n -> loop_dim l ->
  succeeds (fun r => loop_dim r.2) (iterate' cap work epsilon gNormTol cb l).
Proof using value_ok set_ok add_ok copy_ok dotProduct_ok derivative_ok cb_ok.
  intros Hwork. revert l. induction cap as [|cap IH]; intros l Hl; cbn [iterate].
  - apply succeeds_ret. exact Hl.
  - eapply succeeds_bind; [apply iteration_ok; assumption|].
    intros [verdict l'] Hl'. cbn [snd] in Hl'.
    destruct verdict; [apply succeeds_ret; exact Hl'|apply IH; exact Hl'].
Qed.

Lemma minimize_ok this fn res epsilon gNormTol maxIter :
  dimension_ok this = true ->
  dim (eng_starting this) = n ->
  result_succeeds (fun v => dim v = n) (giveMeOne (eng_factory this)) ->
  dim res = n ->
  succeeds (fun r => dim r.1.2 = n)
           (minimize' this fn res epsilon gNormTol maxIter cb).
Proof using value_ok set_ok add_ok copy_ok dotProduct_ok derivative_ok cb_ok.
  intros Hdim Hstart Hgive Hres. unfold LBFGS_General_minimize. rewrite Hdim.
  eapply succeeds_bind; [apply succeeds_lift; exact Hgive|intros work Hwork].
  eapply succeeds_bind; [apply succeeds_lift, copy_ok; assumption|intros x0 Hx0].
  eapply succeeds_bind; [apply value_ok, set_ok; exact Hx0|intros [f0 fn1] Hfn1].
  cbn [snd] in Hfn1.
  eapply succeeds_bind;
    [apply derivative_ok; assumption|intros [g0 fn2] [Hg0 Hfn2]].
  cbn [fst snd] in Hg0, Hfn2.
  eapply succeeds_bind.
  - apply iterate_ok; [exact Hwork|]. cbn. repeat split; auto.
  - intros [status l] (Hx & Hg & Hall). cbn [snd] in Hx, Hg, Hall.
    eapply succeeds_bind; [apply succeeds_lift, copy_ok; assumption|intros res' Hres'].
    apply succeeds_ret. exact Hres'.
Qed.
End Returns.

(** *** The history buffer along a run *)

Lemma last_n_length {A} (m : nat) (l : list A) :
  length (last_n m l) = Nat.min m (length l).
Proof. unfold last_n. rewrite length_drop. lia. Qed.

Lemma last_n_snoc {A} (m : nat) (l : list A) (a : A) :
  (0 < m)%nat ->
  last_n m (l ++ [a])
  = (if (m <=? length (last_n m l))%nat then tail (last_n m l) else last_n m l)
      ++ [a].
Proof.
  intros Hm. rewrite last_n_length. unfold last_n.
  rewrite length_app. simpl.
  destruct (Nat.leb_spec m (Nat.min m (length l))) as [Hle|Hlt].
  - rewrite drop_app_le by lia. f_equal.
    replace (length l + 1 - m)%nat with (S (length l - m)) by lia.
    generalize (length l - m)%nat as k. clear. intros k. revert l.
    induction k as [|k IH]; intros [|b l]; simpl; auto.
  - replace (length l + 1 - m)%nat with 0%nat by lia.
    replace (length l - m)%nat with 0%nat by lia. reflexivity.
Qed.

Lemma hb_insert_window (m : nat) hb (cands : list (V * V)) s y hb' :
  (0 < m)%nat ->
  depth hb = m ->
  entries hb = window eps_curvature m cands ->
  hb_insert eps_curvature hb s y = Ok hb' ->
  depth hb' = m /\ entries hb' = window eps_curvature m (cands ++ [(s, y)]).
Proof.
  intros Hm Hd He. unfold hb_insert, window.
  rewrite omap_app. simpl. unfold entry_of at 2. simpl.
  destruct (dotProduct s y) as [sy|e]; simpl; [|discriminate].
  destruct (Rle_dec sy eps_curvature); intros [= <-].
  - rewrite app_nil_r. auto.
  - simpl. split; [exact Hd|].
    rewrite last_n_snoc by exact Hm. rewrite Hd, He. reflexivity.
Qed.

Lemma hb_insert_positive hb (s y : V) hb' :
  Forall (positive_curvature eps_curvature) (entries hb) ->
  hb_insert eps_curvature hb s y = Ok hb' ->
  Forall (positive_curvature eps_curvature) (entries hb').
Proof.
  intros Hall. unfold hb_insert.
  destruct (dotProduct s y) as [sy|e] eqn:Hsy; simpl; [|discriminate].
  destruct (Rle_dec sy eps_curvature) as [Hle|Hgt]; intros [= <-]; [exact Hall|].
  simpl. apply Forall_app. split.
  - destruct (depth hb <=? length (entries hb))%nat; [|exact Hall].
    destruct (entries hb); [constructor|]. simpl. inversion Hall; assumption.
  - constructor; [|constructor]. exists sy. simpl. repeat split; auto. lra.
Qed.

(** A property of the buffer and of the candidate pairs so far that every
    insertion keeps is kept by the run. *)
Section HistoryInvariant.
Variable P : @HistoryBuffer V -> list (V * V) -> Prop.
Hypothesis insert_keeps :
  forall hb cands s y hb',
    P hb cands -> hb_insert eps_curvature hb s y = Ok hb' ->
    P hb' (cands ++ [(s, y)]).

Lemma iteration_inv work epsilon gNormTol cb l :
  P (hist l) (offered l) ->
  returns (fun r => P (hist r.2) (offered r.2)) (iteration' work epsilon gNormTol cb l).
Proof using insert_keeps.
  intros Hl. unfold iteration.
  eapply returns_bind; [apply returns_any|intros d _].
  eapply returns_bind; [apply returns_any|intros [found fn1] _].
  destruct found as [[[t x_new] f_new]|]; [|apply returns_ret; exact Hl].
  eapply returns_bind; [apply returns_any|intros [g_new fn2] _].
  eapply returns_bind; [apply returns_any|intros s0 _].
  eapply returns_bind; [apply returns_any|intros s _].
  eapply returns_bind; [apply returns_any|intros y0 _].
  eapply returns_bind; [apply returns_any|intros y _].
  eapply returns_bind; [apply returns_lift|intros hist' Hins].
  eapply returns_bind; [apply returns_any|intros _ _].
  assert (Hl' : P hist' (offered l ++ [(s, y)])).
  { eapply insert_keeps; [exact Hl|exact Hins]. }
  destruct (converged _ _ _ _ _); apply returns_ret; exact Hl'.
Qed.

Lemma iterate_inv cap work epsilon gNormTol cb l :
  P (hist l) (offered l) ->
  returns (fun r => P (hist r.2) (offered r.2)) (iterate' cap work epsilon gNormTol cb l).
Proof using insert_keeps.
  revert l. induction cap as [|cap IH]; intros l Hl; cbn [iterate].
  - apply returns_ret. exact Hl.
  - eapply returns_bind; [apply iteration_inv; exact Hl|].
    intros [verdict l'] Hl'. simpl in Hl'.
    destruct verdict; [apply returns_ret; exact Hl'|apply IH; exact Hl'].
Qed.

Lemma minimize_inv this fn res epsilon gNormTol maxIter cb :
  P (hb_empty (Z.to_nat (eng_m this))) [] ->
  returns (fun r => exists cands, P (final_history r.1.1) cands)
          (minimize' this fn res epsilon gNormTol maxIter cb).
Proof using insert_keeps.
  intros H0. unfold LBFGS_General_minimize.
  destruct (dimension_ok this); [|apply returns_raise].
  eapply returns_bind; [apply returns_any|intros work _].
  eapply returns_bind; [apply returns_any|intros x0 _].
  eapply returns_bind; [apply returns_any|intros [f0 fn1] _].
  eapply returns_bind; [apply returns_any|intros [g0 fn2] _].
  eapply returns_bind; [apply iterate_inv; exact H0|].
  intros [status l] Hl. simpl in Hl.
  eapply returns_bind; [apply returns_any|intros res' _].
  apply returns_ret. simpl. eexists. exact Hl.
Qed.
End HistoryInvariant.

(** A property of what the loop carries that an accepted step and a failed
    line search keep is kept by the run, and holds of the loop that the
    report is made from. *)
Section LoopInvariant.
Variable J : @Loop V F -> Prop.
Hypothesis accept_keeps :
  forall l x_new g_new f_new t hist' fn2 s y,
    J l -> hb_insert eps_curvature (hist l) s y = Ok hist' ->
    J (mkLoop (mkState x_new g_new f_new (S (st_iter (opt l))) t) hist' fn2
              (offered l ++ [(s, y)])).
Hypothesis fail_keeps :
  forall l fn1, J l -> J (mkLoop (opt l) (hist l) fn1 (offered l)).

Lemma iteration_loop_inv work epsilon gNormTol cb l :
  J l -> returns (fun r => J r.2) (iteration' work epsilon gNormTol cb l).
Proof using accept_keeps fail_keeps.
  intros Hl. unfold iteration.
  eapply returns_bind; [apply returns_any|intros d _].
  eapply returns_bind; [apply returns_any|intros [found fn1] _].
  destruct found as [[[t x_new] f_new]|];
    [|apply returns_ret; apply fail_keeps; exact Hl].
  eapply returns_bind; [apply returns_any|intros [g_new fn2] _].
  eapply returns_bind; [apply returns_any|intros s0 _].
  eapply returns_bind; [apply returns_any|intros s _].
  eapply returns_bind; [apply returns_any|intros y0 _].
  eapply returns_bind; [apply returns_any|intros y _].
  eapply returns_bind; [apply returns_lift|intros hist' Hins].
  eapply returns_bind; [apply returns_any|intros _ _].
  destruct (converged _ _ _ _ _); apply returns_ret;
    apply accept_keeps; assumption.
Qed.

Lemma iterate_loop_inv cap work epsilon gNormTol cb l :
  J l -> returns (fun r => J r.2) (iterate' cap work epsilon gNormTol cb l).
Proof using accept_keeps fail_keeps.
  revert l. induction cap as [|cap IH]; intros l Hl; cbn [iterate].
  - apply returns_ret. exact Hl.
  - eapply returns_bind; [apply iteration_loop_inv; exact Hl|].
    intros [verdict l'] Hl'. simpl in Hl'.
    destruct verdict; [apply returns_ret; exact Hl'|apply IH; exact Hl'].
Qed.

Lemma minimize_loop_inv this fn res epsilon gNormTol maxIter cb :
  (forall x0 g0 f0 fn2,
      J (mkLoop (mkState x0 g0 f0 0 1) (hb_empty (Z.to_nat (eng_m this))) fn2 [])) ->
  returns (fun r => exists l,
               J l /\ final_history r.1.1 = hist l /\
               iterations r.1.1 = st_iter (opt l))
          (minimize' this fn res epsilon gNormTol maxIter cb).
Proof using accept_keeps fail_keeps.
  intros H0. unfold LBFGS_General_minimize.
  destruct (dimension_ok this); [|apply returns_raise].
  eapply returns_bind; [apply returns_any|intros work _].
  eapply returns_bind; [apply returns_any|intros x0 _].
  eapply returns_bind; [apply returns_any|intros [f0 fn1] _].
  eapply returns_bind; [apply returns_any|intros [g0 fn2] _].
  eapply returns_bind; [apply iterate_loop_inv; apply H0|].
  intros [status l] Hl. simpl in Hl.
  eapply returns_bind; [apply returns_any|intros res' _].
  apply returns_ret. simpl. exists l. auto.
Qed.
End LoopInvariant.

(** The iteration counter grows by at most one in an iteration, so a run
    makes at most as many iterations as the cap allows. *)
Lemma iteration_counts work epsilon gNormTol cb l :
  returns (fun r => (st_iter (opt r.2) <= S (st_iter (opt l)))%nat)
          (iteration' work epsilon gNormTol cb l).
Proof.
  unfold iteration.
  eapply returns_bind; [apply returns_any|intros d _].
  eapply returns_bind; [apply returns_any|intros [found fn1] _].
  destruct found as [[[t x_new] f_new]|]; [|apply returns_ret; simpl; lia].
  eapply returns_bind; [apply returns_any|intros [g_new fn2] _].
  eapply returns_bind; [apply returns_any|intros s0 _].
  eapply returns_bind; [apply returns_any|intros s _].
  eapply returns_bind; [apply returns_any|intros y0 _].
  eapply returns_bind; [apply returns_any|intros y _].
  eapply returns_bind; [apply returns_any|intros hist' _].
  eapply returns_bind; [apply returns_any|intros _ _].
  destruct (converged _ _ _ _ _); apply returns_ret; simpl; lia.
Qed.

Lemma iterate_counts cap work epsilon gNormTol cb l :
  returns (fun r => (st_iter (opt r.2) <= st_iter (opt l) + cap)%nat)
          (iterate' cap work epsilon gNormTol cb l).
Proof.
  revert l. induction cap as [|cap IH]; intros l; cbn [iterate].
  - apply returns_ret. simpl. lia.
  - eapply returns_bind; [apply iteration_counts|].
    intros [verdict l'] Hl'. simpl in Hl'.
    destruct verdict; [apply returns_ret; simpl; lia|].
    intros w r Hr. specialize (IH l' w r Hr). simpl in *. lia.
Qed.

Lemma minimize_counts this fn res epsilon gNormTol maxIter cb :
  returns (fun r => (iterations r.1.1 <= Z.to_nat maxIter)%nat)
          (minimize' this fn res epsilon gNormTol maxIter cb).
Proof.
  unfold LBFGS_General_minimize.
  destruct (dimension_ok this); [|apply returns_raise].
  eapply returns_bind; [apply returns_any|intros work _].
  eapply returns_bind; [apply returns_any|intros x0 _].
  eapply returns_bind; [apply returns_any|intros [f0 fn1] _].
  eapply returns_bind; [apply returns_any|intros [g0 fn2] _].
  eapply returns_bind; [apply iterate_counts|].
  intros [status l] Hl. simpl in Hl.
  eapply returns_bind; [apply returns_any|intros res' _].
  apply returns_ret. simpl. exact Hl.
Qed.
End EngineFacts.

Lemma returns_run {A} (Q : A -> Prop) (c : M A) (w : World) :
  returns Q c ->
  match run c w with
  | (Ok a, _) => Q a
  | (Raise _, _) => True
  end.
Proof.
  intros Hc. specialize (Hc w). destruct (run c w) as [[a|e] w']; simpl in *; auto.
Qed.

Section HistoryClaims.
Context {V Fa F : Type}.
Context `{!LargeVector V} `{!LargeVectorFactory Fa V} `{!Function F V}.
Variable c1 contraction : R.
Variable max_contractions : nat.
Variable eps_curvature : R.


(** C3: with a threshold eps >= 0, a candidate pair whose curvature product
    is at or below the threshold (a non-positive one in particular) is
    skipped and leaves the buffer as it was, and along every run every stored
    entry has a curvature product above the threshold, hence positive. *)
Theorem rejected_pairs_never_stored :
  (0 <= eps_curvature)%R ->
  (forall (hb : @HistoryBuffer V) s y sy,
      dotProduct s y = Ok sy ->
      (sy <= eps_curvature \/ sy <= 0)%R ->
      hb_insert eps_curvature hb s y = Ok hb) /\
  (forall cap work epsilon gNormTol cb (l : @Loop V F) w,
      Forall (positive_curvature eps_curvature) (entries (hist l)) ->
      match run (iterate c1 contraction max_contractions eps_curvature
                         cap work epsilon gNormTol cb l) w with
      | (Ok (_, l'), _) =>
          Forall (fun e => exists sy,
                      dotProduct (s_k e) (y_k e) = Ok sy /\
                      (eps_curvature < sy)%R /\ (0 < sy)%R)
                 (entries (hist l'))
      | (Raise _, _) => True
      end) /\
  (forall (this : @LBFGS_General V Fa) (fn : F) res epsilon gNormTol maxIter cb w,
      match run (LBFGS_General_minimize c1 contraction max_contractions
                   eps_curvature this fn res epsilon gNormTol maxIter cb) w with
      | (Ok (report, _, _), _) =>
          Forall (fun e => exists sy,
                      dotProduct (s_k e) (y_k e) = Ok sy /\
                      (eps_curvature < sy)%R /\ (0 < sy)%R)
                 (entries (final_history report))
      | (Raise _, _) => True
      end).
Proof.
  intros Heps.
  pose (P := fun (hb : @HistoryBuffer V) (cands : list (V * V)) =>
               Forall (positive_curvature eps_curvature) (entries hb)).
  assert (HP : forall hb cands s y hb',
             P hb cands -> hb_insert eps_curvature hb s y = Ok hb' ->
             P hb' (cands ++ [(s, y)])).
  { intros hb cands s y hb' Hall Hins.
    apply (hb_insert_positive eps_curvature hb s y hb' Hall Hins). }
  assert (Hpos : forall es : list (@HistoryEntry V),
             Forall (positive_curvature eps_curvature) es ->
             Forall (fun e => exists sy,
                         dotProduct (s_k e) (y_k e) = Ok sy /\
                         (eps_curvature < sy)%R /\ (0 < sy)%R) es).
  { intros es Hes. eapply Forall_impl; [exact Hes|].
    intros e (sy & Hsy & Hgt & _). exists sy. repeat split; auto. lra. }
  split; [|split].
  - intros hb s y sy Hsy Hle. unfold hb_insert. rewrite Hsy. simpl.
    destruct (Rle_dec sy eps_curvature) as [_|Hgt]; [reflexivity|].
    exfalso. apply Hgt. destruct Hle; lra.
  - intros cap work epsilon gNormTol cb l w Hl.
    pose proof (returns_run _ _ w
                  (iterate_inv c1 contraction max_contractions eps_curvature
                     P HP cap work epsilon gNormTol cb l Hl)) as Hrun.
    destruct (run _ w) as [[[status l']|e] w']; [|exact I].
    apply Hpos. exact Hrun.
  - intros this fn res epsilon gNormTol maxIter cb w.
    assert (H0 : P (hb_empty (Z.to_nat (eng_m this))) []) by constructor.
    pose proof (returns_run _ _ w
                  (minimize_inv c1 contraction max_contractions eps_curvature
                     P HP this fn res epsilon gNormTol maxIter cb H0)) as Hrun.
    destruct (run _ w) as [[[[report res'] fn']|e] w']; [|exact I].
    destruct Hrun as (cands & Hall). apply Hpos. exact Hall.
Qed.
End HistoryClaims.

(** *** What the engine hands back *)

Section EngineReturn.
Context {V Fa F : Type}.
Context `{!LargeVector V} `{!LargeVectorFactory Fa V} `{!Function F V}.
Variable c1 contraction : R.
Variable max_contractions : nat.
Variable eps_curvature : R.

(** On a normal return [*res] is a copy of the best iterate of the report,
    and the starting point had the configured dimension. *)
Lemma minimize_returns_copy (this : @LBFGS_General V Fa) (fn : F) res
      epsilon gNormTol maxIter cb :
  returns (fun r => copy res (best r.1.1) 1 = Ok r.1.2 /\ dimension_ok this = true)
          (LBFGS_General_minimize c1 contraction max_contractions eps_curvature
             this fn res epsilon gNormTol maxIter cb).
Proof.
  unfold LBFGS_General_minimize.
  destruct (dimension_ok this); [|apply returns_raise].
  eapply returns_bind; [apply returns_any|intros work _].
  eapply returns_bind; [apply returns_any|intros x0 _].
  eapply returns_bind; [apply returns_any|intros [f0 fn1] _].
  eapply returns_bind; [apply returns_any|intros [g0 fn2] _].
  eapply returns_bind; [apply returns_any|intros [status l] _].
  eapply returns_bind; [apply returns_lift|intros res' Hres].
  apply returns_ret. simpl. auto.
Qed.

(** With a starting point that is empty or not of the configured dimension
    the engine raises at once. *)
Lemma minimize_dimension_error (this : @LBFGS_General V Fa) (fn : F) res
      epsilon gNormTol maxIter cb w :
  dimension_ok this = false ->
  run (LBFGS_General_minimize c1 contraction max_contractions eps_curvature
         this fn res epsilon gNormTol maxIter cb) w
  = (Raise DimensionMismatch, w).
Proof.
  intros Hdim. unfold LBFGS_General_minimize. rewrite Hdim. reflexivity.
Qed.
End EngineReturn.

(** ** The front end *)

Lemma Basic_copy_contents (this other res : BasicLargeVector) :
  copy this other 1 = Ok res -> contents res = contents other.
Proof.
  simpl. unfold Basic_copy. destruct (same_dim this other); [|discriminate].
  intros [= <-]. simpl. rewrite <- (map_id (contents other)) at 2.
  apply map_ext. intros a. lra.
Qed.

Lemma Basic_copy_throws (a b : BasicLargeVector) (c : R) :
  result_throws (fun e => e = DimensionMismatch) (copy a b c).
Proof.
  intros e. simpl. unfold Basic_copy. destruct (same_dim a b); [discriminate|].
  intros [= <-]. reflexivity.
Qed.

Lemma Basic_add_throws (a b : BasicLargeVector) (c : R) :
  result_throws (fun e => e = DimensionMismatch) (add a b c).
Proof.
  intros e. simpl. unfold Basic_add. destruct (same_dim a b); [discriminate|].
  intros [= <-]. reflexivity.
Qed.

Lemma Basic_dotProduct_throws (a b : BasicLargeVector) :
  result_throws (fun e => e = DimensionMismatch) (dotProduct a b).
Proof.
  intros e. simpl. unfold Basic_dotProduct. destruct (same_dim a b); [discriminate|].
  intros [= <-]. reflexivity.
Qed.

Lemma Basic_giveMeOne_throws (fa : BasicLargeVectorFactory) (E : exn -> Prop) :
  (0 <= n_ fa)%Z -> result_throws E (giveMeOne fa).
Proof.
  intros Hn e. simpl. unfold Basic_giveMeOne, BasicLargeVector_new.
  rewrite (proj2 (Z.ltb_ge (n_ fa) 0) Hn). discriminate.
Qed.

Section FrontEnd.
Variable f_evaluate : list R -> result R.
Variable grad_evaluate : list R -> list R -> result (list R).
Variable c1 contraction : R.
Variable max_contractions : nat.
Variable eps_curvature : R.
Variable user : UserCode.

#[local] Abbreviation LBFGS_minimize' :=
  (LBFGS_minimize f_evaluate grad_evaluate c1 contraction max_contractions
                  eps_curvature user).
#[local] Abbreviation myCallBack' := (myCallBack user).
#[local] Abbreviation engine_minimize' :=
  (LBFGS_General_minimize
     (Function0 := LBFGS_func_ops f_evaluate grad_evaluate)
     c1 contraction max_contractions eps_curvature).

(** [minimize] stores the callback, runs the engine and copies out. *)
Lemma LBFGS_minimize_run (this : LBFGS) res epsilon gNormTol maxIter callback w :
  run (LBFGS_minimize' this res epsilon gNormTol maxIter callback) w
  = match run (engine_minimize' (lbfgs_ this) (f_ this) (s_ this)
                 epsilon gNormTol maxIter (Some myCallBack'))
              (mkWorld callback (trace w)) with
    | (Ok (report, s', f'), w') =>
        (Ok (final_value report, contents s',
             mkLBFGS (factory_ this) f' s' (lbfgs_ this)), w')
    | (Raise e, w') => (Raise e, w')
    end.
Proof.
  unfold LBFGS_minimize. rewrite run_bind. cbn [run write_cb]. rewrite run_bind.
  destruct (run _ (mkWorld callback (trace w))) as [[[[report s'] f']|e] w'];
    reflexivity.
Qed.

(** A call through a pointer that is not null: the call is recorded, the
    user function runs in the world with the record, and what it returns or
    throws and what it leaves in [cb_] is what the call does. *)
Lemma call_fnptr_run c it f gn x w :
  run (call_fnptr user (Some c) it f gn x) w
  = ((user c it f gn x (mkWorld (cb_ w) (trace w ++ [EvCallback c it f gn x]))).1,
     mkWorld
       (user c it f gn x (mkWorld (cb_ w) (trace w ++ [EvCallback c it f gn x]))).2
       (trace w ++ [EvCallback c it f gn x])).
Proof.
  cbn [call_fnptr]. rewrite run_bind. cbn [run emit run_user trace].
  destruct (user c it f gn x _) as [r p]. reflexivity.
Qed.

(** The trampoline. *)
Lemma myCallBack_run it f gn v w :
  run (myCallBack' it f gn v) w
  = match cb_ w with
    | Some c => run (call_fnptr user (Some c) it f gn (contents v)) w
    | None => (Ok tt, w)
    end.
Proof.
  unfold myCallBack. rewrite run_bind. cbn [run read_cb].
  destruct (cb_ w) as [c|] eqn:Hcb; [|reflexivity].
  rewrite run_bind. cbn [run read_cb]. rewrite Hcb. reflexivity.
Qed.

Lemma myCallBack_preserves_null calls it f gn v :
  preserves (null_callback calls) (myCallBack' it f gn v).
Proof.
  intros w [Hcb Hcalls]. rewrite myCallBack_run, Hcb. split; assumption.
Qed.

(** An exception that leaves the trampoline comes from the user function. *)
Lemma myCallBack_throws (E : exn -> Prop) it f gn v :
  (forall c x w e, (user c it f gn x w).1 = Raise e -> E e) ->
  throws E (myCallBack' it f gn v).
Proof.
  intros Huser w e. rewrite myCallBack_run.
  destruct (cb_ w) as [c|]; [|discriminate].
  rewrite call_fnptr_run. cbn [fst]. apply Huser.
Qed.

(** With user functions that return, the trampoline returns. *)
Lemma myCallBack_succeeds it f gn v :
  user_returns user -> succeeds (fun _ => True) (myCallBack' it f gn v).
Proof.
  intros Huser w. rewrite myCallBack_run.
  destruct (cb_ w) as [c|]; [|eauto].
  rewrite call_fnptr_run. rewrite Huser. eauto.
Qed.

Lemma value_preserves_null calls (fn : BasicLBFGSFunc) :
  preserves (null_callback calls)
            (value (Function := LBFGS_func_ops f_evaluate grad_evaluate) fn).
Proof.
  intros w Hw. rewrite value_unfold, run_value. simpl.
  apply null_callback_emit; [reflexivity|exact Hw].
Qed.

Lemma derivative_preserves_null calls (fn : BasicLBFGSFunc) res :
  preserves (null_callback calls)
            (derivative (Function := LBFGS_func_ops f_evaluate grad_evaluate) fn res).
Proof.
  intros w Hw. rewrite derivative_unfold, run_derivative. simpl.
  apply null_callback_emit; [reflexivity|exact Hw].
Qed.

(** C10: the trampoline calls through [cb_] only when [cb_] is not null: in
    every world it either does nothing ([cb_] null) or makes the one call
    through the non-null pointer, so it never calls through a null pointer;
    when the user functions return, so does the trampoline; with a null
    [cb_] it does nothing at all; and a run of [minimize] with a NULL
    callback leaves [cb_] null and adds no call of a user function to the
    trace. *)
Theorem null_callback_is_safe :
  (forall it f gn v w,
      run (myCallBack' it f gn v) w
      = match cb_ w with
        | Some c => run (call_fnptr user (Some c) it f gn (contents v)) w
        | None => (Ok tt, w)
        end) /\
  (user_returns user ->
   forall it f gn v w, fst (run (myCallBack' it f gn v) w) = Ok tt) /\
  (forall it f gn v w, cb_ w = None -> run (myCallBack' it f gn v) w = (Ok tt, w)) /\
  (forall (this : LBFGS) res epsilon gNormTol maxIter w,
      let w' := snd (run (LBFGS_minimize' this res epsilon gNormTol maxIter None) w) in
      cb_ w' = None /\
      List.filter is_callback (trace w') = List.filter is_callback (trace w)).
Proof.
  split; [|split; [|split]].
  - intros it f gn v w. apply myCallBack_run.
  - intros Huser it f gn v w.
    destruct (myCallBack_succeeds it f gn v Huser w) as ([] & w' & -> & _).
    reflexivity.
  - intros it f gn v w Hcb. rewrite myCallBack_run, Hcb. reflexivity.
  - intros this res epsilon gNormTol maxIter w. cbv zeta.
    rewrite LBFGS_minimize_run.
    pose (calls := List.filter is_callback (trace w)).
    assert (Hpres : preserves (null_callback calls)
                      (engine_minimize' (lbfgs_ this) (f_ this) (s_ this)
                         epsilon gNormTol maxIter (Some myCallBack'))).
    { apply minimize_preserves.
      - apply value_preserves_null.
      - apply derivative_preserves_null.
      - intros progress [= <-]. apply myCallBack_preserves_null. }
    specialize (Hpres (mkWorld None (trace w)) (conj eq_refl eq_refl)).
    destruct (run _ (mkWorld None (trace w))) as [[[[report s'] f']|e] w'];
      exact Hpres.
Qed.

(** C1: a starting point whose size differs from the configured dimension n,
    whether it came in through the constructor or through [setStarting], makes
    [minimize] raise DimensionMismatch before anything is evaluated: the trace
    of external calls is as it was before the call.  The constructor itself
    succeeds, and every object it makes is configured with n.  [minimize]
    takes no starting point: what it does is the same for every vector it is
    handed. *)
Theorem mismatched_starting_point_raises (n : Z) (starting : list R) :
  (0 <= n)%Z ->
  length starting <> Z.to_nat n ->
  (forall m, exists this,
      LBFGS_new n starting m = Ok this /\
      forall res epsilon gNormTol maxIter callback w,
        run (LBFGS_minimize' this res epsilon gNormTol maxIter callback) w
        = (Raise DimensionMismatch, mkWorld callback (trace w))) /\
  (forall this : LBFGS,
      eng_factory (lbfgs_ this) = mkFactory n ->
      forall res epsilon gNormTol maxIter callback w,
        run (LBFGS_minimize' (LBFGS_setStarting this starting)
                             res epsilon gNormTol maxIter callback) w
        = (Raise DimensionMismatch, mkWorld callback (trace w))) /\
  (forall s0 m this,
      LBFGS_new n s0 m = Ok this -> eng_factory (lbfgs_ this) = mkFactory n) /\
  (forall (this : LBFGS) res res' epsilon gNormTol maxIter callback w,
      run (LBFGS_minimize' this res epsilon gNormTol maxIter callback) w
      = run (LBFGS_minimize' this res' epsilon gNormTol maxIter callback) w).
Proof.
  intros Hn Hlen.
  assert (Hnew : forall s0 m,
             LBFGS_new n s0 m
             = Ok (mkLBFGS (mkFactory n) BasicLBFGSFunc_new (mkVec s0)
                           (LBFGS_General_new (mkFactory n) (mkVec s0) m))).
  { intros s0 m. unfold LBFGS_new, BasicLargeVectorFactory_new.
    rewrite (proj2 (Z.leb_le 0 n) Hn), check_true_bind. simpl.
    unfold Basic_giveMeOne, BasicLargeVector_new. simpl.
    rewrite (proj2 (Z.ltb_ge n 0) Hn). reflexivity. }
  assert (Hdim : forall fa m,
             fa = mkFactory n ->
             dimension_ok (mkEngine fa (mkVec starting) m) = false).
  { intros fa m ->. unfold dimension_ok. simpl.
    apply andb_false_iff. right. apply Nat.eqb_neq. exact Hlen. }
  split; [|split; [|split]].
  - intros m. eexists. split; [apply Hnew|].
    intros res epsilon gNormTol maxIter callback w.
    rewrite LBFGS_minimize_run, minimize_dimension_error; [reflexivity|].
    apply Hdim. reflexivity.
  - intros this Hthis res epsilon gNormTol maxIter callback w.
    rewrite LBFGS_minimize_run, minimize_dimension_error; [reflexivity|].
    apply Hdim. exact Hthis.
  - intros s0 m this. rewrite Hnew. intros [= <-]. reflexivity.
  - intros this res res' epsilon gNormTol maxIter callback w.
    rewrite !LBFGS_minimize_run. reflexivity.
Qed.

Lemma Basic_copy_ok (n : nat) (a b : BasicLargeVector) (c : R) :
  dim a = n -> dim b = n -> result_succeeds (fun r => dim r = n) (copy a b c).
Proof.
  cbn [dim copy BasicLargeVector_ops]. intros Ha Hb. unfold Basic_copy, same_dim.
  rewrite Ha, Hb, Nat.eqb_refl. eexists. split; [reflexivity|].
  cbn [contents]. rewrite length_map. exact Hb.
Qed.

Lemma Basic_add_ok (n : nat) (a b : BasicLargeVector) (c : R) :
  dim a = n -> dim b = n -> result_succeeds (fun r => dim r = n) (add a b c).
Proof.
  cbn [dim add BasicLargeVector_ops]. intros Ha Hb. unfold Basic_add, same_dim.
  rewrite Ha, Hb, Nat.eqb_refl. eexists. split; [reflexivity|].
  cbn [contents]. rewrite length_zip_with. lia.
Qed.

Lemma Basic_dotProduct_ok (n : nat) (a b : BasicLargeVector) :
  dim a = n -> dim b = n -> result_succeeds (fun _ => True) (dotProduct a b).
Proof.
  cbn [dim dotProduct BasicLargeVector_ops]. intros Ha Hb.
  unfold Basic_dotProduct, same_dim.
  rewrite Ha, Hb, Nat.eqb_refl. eexists. split; [reflexivity|exact I].
Qed.

(** With an objective that returns on the points of dimension [n], a
    gradient that returns a vector of the size of its point there, and user
    functions that return, a run from a starting point of the configured
    dimension [n] > 0 returns. *)
Lemma engine_minimize_ok (this : @LBFGS_General BasicLargeVector BasicLargeVectorFactory)
      (fn : BasicLBFGSFunc) (res : BasicLargeVector) epsilon gNormTol maxIter :
  dimension_ok this = true ->
  dim res = dim (eng_starting this) ->
  (forall x, length x = dim (eng_starting this) -> exists v, f_evaluate x = Ok v) ->
  (forall x r, length x = dim (eng_starting this) ->
               exists g, grad_evaluate x r = Ok g /\ length g = length x) ->
  user_returns user ->
  succeeds (fun r => dim r.1.2 = dim (eng_starting this))
           (engine_minimize' this fn res epsilon gNormTol maxIter (Some myCallBack')).
Proof.
  intros Hdim Hres Hf Hg Huser.
  pose (n := dim (eng_starting this)).
  apply (minimize_ok c1 contraction max_contractions eps_curvature n
           (fun fn : BasicLBFGSFunc => length (x_ fn) = n)).
  - apply Basic_copy_ok.
  - apply Basic_add_ok.
  - apply Basic_dotProduct_ok.
  - intros fn0 x Hx. exact Hx.
  - intros fn0 Hfn0 w. rewrite value_unfold, run_value.
    destruct (Hf (x_ fn0) Hfn0) as [v ->]. eauto.
  - intros fn0 v Hfn0 Hv w. rewrite derivative_unfold, run_derivative.
    destruct (Hg (x_ fn0) (contents v) Hfn0) as (g & -> & Hlen).
    eexists. eexists. split; [reflexivity|]. cbn [fst snd dim BasicLargeVector_ops contents].
    split; [rewrite Hlen|]; exact Hfn0.
  - intros progress [= <-] it f gn v. apply myCallBack_succeeds, Huser.
  - exact Hdim.
  - reflexivity.
  - unfold dimension_ok in Hdim. apply andb_prop in Hdim as [Hnz Heq].
    apply Nat.eqb_eq in Heq. apply negb_true_iff, Nat.eqb_neq in Hnz.
    cbn [giveMeOne configured_dim BasicLargeVectorFactory_ops] in *.
    unfold Basic_giveMeOne, BasicLargeVector_new.
    destruct (Z.ltb_spec (n_ (eng_factory this)) 0) as [Hneg|Hpos];
      [exfalso; apply Hnz; rewrite Heq; lia|].
    eexists. split; [reflexivity|]. cbn [dim BasicLargeVector_ops contents].
    rewrite repeat_length. fold n. unfold n. symmetry. exact Heq.
  - exact Hres.
Qed.

End FrontEnd.

(** ** Instances of the theorems at concrete inputs *)

Lemma mismatched_starting_point_raises_witness :
  (0 <= 2)%Z /\
  length [1%R] <> Z.to_nat 2 /\
  forall m, exists this,
    LBFGS_new 2 [1%R] m = Ok this /\
    forall res epsilon gNormTol maxIter callback w,
      run (LBFGS_minimize demo_f demo_grad demo_c1 demo_contraction demo_budget
             demo_eps demo_user this res epsilon gNormTol maxIter callback) w
      = (Raise DimensionMismatch, mkWorld callback (trace w)).
Proof.
  split; [lia|]. split; [simpl; lia|].
  apply (mismatched_starting_point_raises demo_f demo_grad demo_c1
           demo_contraction demo_budget demo_eps demo_user 2 [1%R]);
    [lia|simpl; lia].
Defined.


Lemma rejected_pairs_never_stored_witness :
  (0 <= demo_eps)%R /\
  forall (hb : @HistoryBuffer BasicLargeVector) s y sy,
    dotProduct s y = Ok sy ->
    (sy <= demo_eps \/ sy <= 0)%R ->
    hb_insert demo_eps hb s y = Ok hb.
Proof.
  assert (Heps : (0 <= demo_eps)%R) by (unfold demo_eps; lra).
  split; [exact Heps|].
  apply (rejected_pairs_never_stored
           (Fa := BasicLargeVectorFactory)
           (Function0 := LBFGS_func_ops demo_f demo_grad)
           demo_c1 demo_contraction demo_budget demo_eps Heps).
Defined.

(** ** A run of the engine

    From the point (1) the engine minimizes x.x / 2 in one iteration: the
    first trial step reaches (0), the pair (s, y) = (-1, -1) enters the
    history with scale 1, the progress callback is called once and the
    gradient norm 0 ends the run. *)

Section QuadraticRun.
Local Open Scope R_scope.

Lemma copy_1d (a b c : R) : copy (mkVec [a]) (mkVec [b]) c = Ok (mkVec [c * b]).
Proof. reflexivity. Qed.

Lemma add_1d (a b c : R) : add (mkVec [a]) (mkVec [b]) c = Ok (mkVec [a + c * b]).
Proof. reflexivity. Qed.

Lemma dotProduct_1d (a b : R) :
  dotProduct (mkVec [a]) (mkVec [b]) = Ok (a * b + 0).
Proof. reflexivity. Qed.

Lemma vec_1d (a b : R) : a = b -> mkVec [a] = mkVec [b].
Proof. intros ->. reflexivity. Qed.

Lemma norm_zero_1d : norm (mkVec [0]) = 0.
Proof.
  simpl. unfold Basic_norm, dot. simpl.
  replace (0 * 0 + 0) with 0 by lra. apply sqrt_0.
Qed.

(** With an empty history the direction is the negated gradient. *)
Lemma direction_first (m : nat) (g : R) :
  direction (mkVec [0]) (hb_empty m) (mkVec [g]) = Ok (mkVec [- g]).
Proof.
  unfold direction. cbn [hb_empty entries]. rewrite copy_1d. simpl.
  unfold Basic_copy. simpl. do 3 f_equal. lra.
Qed.

Ltac lift_step := rewrite run_bind; cbn [run lift].
Ltac proj :=
  cbn [opt hist st_g st_x st_f st_iter st_step fun_ offered x_ contents].

Lemma quadratic_run_at (m : Z) :
  exists report s' f' w',
    run (LBFGS_General_minimize
           (Function0 := LBFGS_func_ops quad_f quad_grad)
           demo_c1 demo_contraction demo_budget demo_eps
           (quad_engine_at m) BasicLBFGSFunc_new (mkVec [1])
           (1 / 1000) (1 / 1000) 5 (Some (myCallBack demo_user)))
        (mkWorld (Some 7%nat) [])
    = (Ok (report, s', f'), w') /\
    status report = Converged /\
    iterations report = 1%nat /\
    final_value report = 0 /\
    contents (best report) = [0] /\
    contents s' = [0] /\
    map (fun e => (contents (s_k e), contents (y_k e), rho_k e))
        (entries (final_history report)) = [([-1], [-1], 1)] /\
    trace w' = [EvObjective [1]; EvGradient [1]; EvObjective [0];
                EvGradient [0]; EvCallback 7 1 0 0 [0]].
Proof.
  do 4 eexists. split.
  - unfold LBFGS_General_minimize.
    replace (dimension_ok (quad_engine_at m)) with true by reflexivity.
    lift_step.
    replace (giveMeOne (eng_factory (quad_engine_at m))) with (Ok (mkVec [0]))
      by reflexivity.
    cbv beta iota.
    lift_step. cbn [eng_starting quad_engine_at]. rewrite copy_1d.
    rewrite (vec_1d (1 * 1) 1) by lra. cbv beta iota.
    rewrite run_bind, value_unfold, run_value, set_unfold.
    cbn [x_ contents quad_f]. cbv beta iota.
    rewrite run_bind, derivative_unfold, run_derivative.
    cbn [x_ contents quad_grad]. cbv beta iota.
    rewrite run_bind.
    replace (Z.to_nat 5) with 5%nat by reflexivity. cbn [iterate].
    rewrite run_bind. unfold iteration at 1.
    lift_step. proj. rewrite direction_first. cbv beta iota.
    rewrite run_bind. unfold line_search. lift_step. rewrite dotProduct_1d.
    cbv beta iota. unfold demo_budget. cbn [backtrack].
    lift_step. rewrite copy_1d. cbv beta iota.
    lift_step. rewrite add_1d. rewrite (vec_1d (1 * 1 + 1 * - (1)) 0) by lra.
    cbv beta iota.
    rewrite run_bind, value_unfold, run_value, set_unfold. proj.
    cbn [quad_f]. cbv beta iota.
    replace (dot [0] [0] / 2) with 0 by (unfold dot; simpl; lra).
    destruct (Rle_dec 0 (dot [1] [1] / 2 + demo_c1 * 1 * (1 * - (1) + 0)))
      as [_|Hgt]; [|exfalso; apply Hgt; unfold dot, demo_c1; simpl; lra].
    cbn [run mret M_ret]. cbv beta iota.
    rewrite run_bind, derivative_unfold, run_derivative. proj.
    cbn [quad_grad]. cbv beta iota.
    lift_step. rewrite copy_1d. rewrite (vec_1d (1 * 0) 0) by lra.
    cbv beta iota.
    lift_step. rewrite add_1d. rewrite (vec_1d (0 + -1 * 1) (-1)) by lra.
    cbv beta iota.
    lift_step. cbv beta iota.
    lift_step. rewrite add_1d. rewrite (vec_1d (0 + -1 * 1) (-1)) by lra.
    cbv beta iota.
    lift_step. unfold hb_insert at 1. rewrite dotProduct_1d.
    cbn [mbind result_bind].
    replace (-1 * -1 + 0) with 1 by lra.
    destruct (Rle_dec 1 demo_eps) as [Hle|_];
      [exfalso; unfold demo_eps in Hle; lra|].
    cbn [mret result_ret]. cbv beta iota.
    rewrite run_bind, myCallBack_run. cbn [cb_ trace]. cbv beta iota.
    rewrite call_fnptr_run. cbn [demo_user fst snd cb_ trace]. cbv beta iota.
    unfold converged. rewrite norm_zero_1d.
    destruct (Rle_dec 0 (1 / 1000)) as [_|Hgt]; [|exfalso; lra].
    cbn [run mret M_ret]. cbv beta iota.
    lift_step. proj. rewrite copy_1d. rewrite (vec_1d (1 * 0) 0) by lra.
    cbv beta iota. cbn [run mret M_ret].
    replace (1 / 1) with 1 by lra.
    reflexivity.
  - cbn [status iterations final_value best contents final_history entries
         hb_empty depth trace app].
    repeat split. cbn. destruct (Z.to_nat m <=? 0)%nat; reflexivity.
Qed.

Example quadratic_run :
  exists report s' f' w',
    run (LBFGS_General_minimize
           (Function0 := LBFGS_func_ops quad_f quad_grad)
           demo_c1 demo_contraction demo_budget demo_eps
           quad_engine BasicLBFGSFunc_new (mkVec [1])
           (1 / 1000) (1 / 1000) 5 (Some (myCallBack demo_user)))
        (mkWorld (Some 7%nat) [])
    = (Ok (report, s', f'), w') /\
    status report = Converged /\
    iterations report = 1%nat /\
    final_value report = 0 /\
    contents (best report) = [0] /\
    contents s' = [0] /\
    map (fun e => (contents (s_k e), contents (y_k e), rho_k e))
        (entries (final_history report)) = [([-1], [-1], 1)] /\
    trace w' = [EvObjective [1]; EvGradient [1]; EvObjective [0];
                EvGradient [0]; EvCallback 7 1 0 0 [0]].
Proof. exact (quadratic_run_at 10). Qed.
End QuadraticRun.


(** The same run through the front end.  The vector handed to [minimize]
    (here of size 3) is overwritten with the final iterate. *)
Example quadratic_minimize :
  exists this this' w',
    LBFGS_new 1 [1%R] 10 = Ok this /\
    run (LBFGS_minimize quad_f quad_grad demo_c1 demo_contraction demo_budget
           demo_eps demo_user this [5%R; 5%R; 5%R] (1 / 1000) (1 / 1000) 5
           (Some 7%nat))
        (mkWorld None [])
    = (Ok (0%R, [0%R], this'), w') /\
    s_ this' = mkVec [0%R] /\
    trace w' = [EvObjective [1%R]; EvGradient [1%R]; EvObjective [0%R];
                EvGradient [0%R]; EvCallback 7 1 0 0 [0%R]].
Proof.
  destruct quadratic_run
    as (report & s' & f' & w' & Hrun & _ & _ & Hval & _ & Hs & _ & Htrace).
  exists (mkLBFGS (mkFactory 1) BasicLBFGSFunc_new (mkVec [1%R]) quad_engine).
  exists (mkLBFGS (mkFactory 1) f' s' quad_engine), w'.
  split; [reflexivity|]. split; [|split].
  - rewrite LBFGS_minimize_run. cbn [lbfgs_ f_ s_ trace factory_].
    rewrite Hrun, Hval, Hs. reflexivity.
  - destruct s' as [c]. simpl in Hs. rewrite Hs. reflexivity.
  - exact Htrace.
Qed.

(** ** An eviction

    A buffer of depth 2 that holds the entries of the pairs (1, 1) and (2, 2)
    receives the pair (3, 3): the entry of (1, 1), the oldest, leaves; a pair
    with a negative product leaves the buffer as it is. *)

Section Eviction.
Local Open Scope R_scope.

Example full_buffer_evicts_oldest :
  let e1 := mkEntry (mkVec [1]) (mkVec [1]) 1 in
  let e2 := mkEntry (mkVec [2]) (mkVec [2]) (1 / 4) in
  let hb := mkHistory 2 [e1; e2] in
  hb_insert demo_eps hb (mkVec [3]) (mkVec [3])
  = Ok (mkHistory 2 [e2; mkEntry (mkVec [3]) (mkVec [3]) (1 / (3 * 3 + 0))]) /\
  hb_insert demo_eps hb (mkVec [3]) (mkVec [-3]) = Ok hb.
Proof.
  cbv zeta. unfold hb_insert. rewrite !dotProduct_1d. cbn [mbind result_bind].
  split.
  - destruct (Rle_dec (3 * 3 + 0) demo_eps) as [Hle|_];
      [exfalso; unfold demo_eps in Hle; lra|].
    reflexivity.
  - destruct (Rle_dec (3 * -3 + 0) demo_eps) as [_|Hgt];
      [reflexivity|exfalso; apply Hgt; unfold demo_eps; lra].
Qed.
End Eviction.

(** * Further properties of the sources *)

(** ** The test functions, [lbfgs_test.cpp] *)

Lemma rsum_nonneg (F : nat -> R) (a k : nat) :
  (forall j, (a <= j < a + k)%nat -> (0 <= F j)%R) -> (0 <= rsum F a k)%R.
Proof.
  revert a. induction k as [|k IH]; intros a HF; simpl; [lra|].
  pose proof (HF a ltac:(lia)). pose proof (IH (S a) ltac:(intros; apply HF; lia)).
  lra.
Qed.

Lemma rsum_zero_inv (F : nat -> R) (a k : nat) :
  (forall j, (a <= j < a + k)%nat -> (0 <= F j)%R) ->
  rsum F a k = 0%R ->
  forall j, (a <= j < a + k)%nat -> F j = 0%R.
Proof.
  revert a. induction k as [|k IH]; intros a HF Hsum j Hj; [lia|].
  simpl in Hsum.
  pose proof (HF a ltac:(lia)) as Ha.
  pose proof (rsum_nonneg F (S a) k ltac:(intros; apply HF; lia)) as Hrest.
  destruct (decide (j = a)) as [->|Hne]; [lra|].
  apply (IH (S a)); [intros; apply HF; lia | lra | lia].
Qed.

Lemma S_term_nonneg (i : nat) (t : R) : (0 <= LBFGSTest.S_term i t)%R.
Proof.
  unfold LBFGSTest.S_term. pose proof (pos_INR i).
  apply Rmult_le_pos; [apply pow2_ge_0|].
  apply Rlt_le, Rinv_0_lt_compat. nra.
Qed.

Lemma S_term_zero (i : nat) (t : R) : LBFGSTest.S_term i t = 0%R <-> t = INR i.
Proof.
  unfold LBFGSTest.S_term. pose proof (pos_INR i).
  assert (Hpos : (0 < / (INR i + 1) ^ 2)%R) by (apply Rinv_0_lt_compat; nra).
  split.
  - intros H0. unfold Rdiv in H0.
    apply Rmult_integral in H0 as [H0|H0]; [nra|lra].
  - intros ->. unfold Rdiv. replace (INR i - INR i)%R with 0%R by lra.
    rewrite pow_i by lia. lra.
Qed.

Lemma Sx_nonneg (x : list R) : (0 <= LBFGSTest.Sx x)%R.
Proof. apply rsum_nonneg. intros j _. apply S_term_nonneg. Qed.

Lemma repeat_lookup_lt {A} (a : A) (n i : nat) :
  (i < n)%nat -> repeat a n !! i = Some a.
Proof.
  revert i. induction n as [|n IH]; intros i Hi; [lia|].
  destruct i as [|i]; simpl; [reflexivity|]. apply IH. lia.
Qed.

Lemma ramp_length (n : nat) : length (ramp n) = n.
Proof. unfold ramp. rewrite length_map, length_seq. reflexivity. Qed.

Lemma ramp_nth (n i : nat) : (i < n)%nat -> nth i (ramp n) 0%R = INR i.
Proof.
  intros Hi. unfold ramp. rewrite nth_lookup, list_lookup_fmap, lookup_seq_lt by done.
  reflexivity.
Qed.

Lemma ramp_spec (x : list R) :
  x = ramp (length x) <-> forall i, (i < length x)%nat -> nth i x 0%R = INR i.
Proof.
  split.
  - intros Hx i Hi. rewrite Hx at 1. apply ramp_nth. exact Hi.
  - intros Hx. apply (nth_ext _ _ 0%R 0%R).
    + rewrite ramp_length. reflexivity.
    + intros i Hi. rewrite ramp_nth by done. apply Hx. exact Hi.
Qed.

Lemma Sx_zero (x : list R) : LBFGSTest.Sx x = 0%R <-> x = ramp (length x).
Proof.
  rewrite ramp_spec. split.
  - intros H0 i Hi. apply S_term_zero.
    apply (rsum_zero_inv _ 0 (length x)
             ltac:(intros; apply S_term_nonneg) H0). lia.
  - intros Hx. apply rsum_zero. intros j Hj.
    apply S_term_zero, Hx. lia.
Qed.

(** The gradient function overwrites its output argument: what it returns
    has size [n_] and does not depend on what [res] held before the call,
    for every process and every [n_]. *)
Theorem gradient_overwrites_res (processId n : Z) (x old old' : list R) :
  LBFGSTest.LBFGSFuncGrad_evaluate processId n x old
  = LBFGSTest.LBFGSFuncGrad_evaluate processId n x old' /\
  forall r, LBFGSTest.LBFGSFuncGrad_evaluate processId n x old = Ok r ->
            length r = Z.to_nat n.
Proof.
  unfold LBFGSTest.LBFGSFuncGrad_evaluate.
  destruct (Z.of_nat (length x) =? n)%Z; [|split; [reflexivity|discriminate]].
  rewrite !check_true_bind. split.
  - f_equal. apply list_eq. intros i. unfold LBFGSTest.indices.
    rewrite !fold_left_insert_lookup by (rewrite resize_length; lia).
    case_decide as Hi; [reflexivity|].
    rewrite !lookup_ge_None_2 by (rewrite resize_length; lia). reflexivity.
  - intros r [= <-]. rewrite fold_left_insert_length, resize_length. reflexivity.
Qed.

(** While no integer operation overflows (n <= 32767) the objective is
    nowhere negative, and it is zero at the point (0, 1, ..., n - 1) and
    nowhere else. *)
Theorem objective_minimum (n : Z) (x : list R) :
  (0 < n <= 32767)%Z -> Z.of_nat (length x) = n ->
  exists v, LBFGSTest.LBFGSFunc_evaluate 0 n x = Ok v /\
            (0 <= v)%R /\
            (v = 0%R <-> x = ramp (length x)).
Proof.
  intros Hn Hx. exists (LBFGSTest.objective x).
  split; [apply evaluate_in_range; done|].
  unfold LBFGSTest.objective. pose proof (Sx_nonneg x) as HS.
  split; [nra|].
  rewrite <- Sx_zero. split; intros H0; nra.
Qed.

Lemma objective_minimum_witness :
  exists v, LBFGSTest.LBFGSFunc_evaluate 0 2 [0%R; 1%R] = Ok v /\
            (0 <= v)%R /\
            (v = 0%R <-> [0%R; 1%R] = ramp (length [0%R; 1%R])).
Proof. apply (objective_minimum 2 [0%R; 1%R]); [lia | reflexivity]. Defined.

(** While no integer operation overflows (n <= 32767) the gradient is the
    zero vector at the point (0, 1, ..., n - 1) and nowhere else. *)
Theorem gradient_zero_at_minimum_only (n : Z) (x old : list R) :
  (0 < n <= 32767)%Z -> Z.of_nat (length x) = n ->
  exists g, LBFGSTest.LBFGSFuncGrad_evaluate 0 n x old = Ok g /\
            (g = repeat 0%R (length x) <-> x = ramp (length x)).
Proof.
  intros Hn Hx.
  destruct (gradient_in_range n Hn x Hx old) as (g & Hg & Hlen & Hcomp).
  exists g. split; [exact Hg|]. split.
  - intros Hzero.
    assert (Hi : forall i, (i < length x)%nat ->
                           ((nth i x 0 - INR i) * LBFGSTest.Sx x = 0)%R).
    { intros i Hi. pose proof (Hcomp i Hi) as Hgi.
      rewrite Hzero in Hgi.
      rewrite repeat_lookup_lt in Hgi by done.
      injection Hgi as Hgi. unfold LBFGSTest.gradient_at in Hgi.
      pose proof (pos_INR i).
      assert (Hd : (0 < / (2 * (INR i + 1) ^ 2))%R)
        by (apply Rinv_0_lt_compat; nra).
      unfold Rdiv in Hgi. symmetry in Hgi.
      apply Rmult_integral in Hgi as [Hgi|Hgi]; [exact Hgi|lra]. }
    destruct (Req_dec (LBFGSTest.Sx x) 0) as [HS|HS]; [apply Sx_zero; exact HS|].
    apply ramp_spec. intros i Hlt.
    pose proof (Hi i Hlt) as Hprod.
    apply Rmult_integral in Hprod as [Hprod|Hprod]; [lra|contradiction].
  - intros Hramp. apply list_eq. intros i.
    destruct (decide (i < length x)%nat) as [Hlt|Hge].
    + rewrite (Hcomp i Hlt), repeat_lookup_lt by done. f_equal.
      unfold LBFGSTest.gradient_at.
      rewrite (proj1 (ramp_spec x) Hramp i Hlt).
      unfold Rdiv. ring.
    + rewrite !lookup_ge_None_2; [reflexivity | rewrite repeat_length; lia | lia].
Qed.

Lemma gradient_zero_at_minimum_only_witness :
  exists g, LBFGSTest.LBFGSFuncGrad_evaluate 0 2 [0%R; 1%R] [] = Ok g /\
            (g = repeat 0%R (length [0%R; 1%R])
             <-> [0%R; 1%R] = ramp (length [0%R; 1%R])).
Proof.
  apply (gradient_zero_at_minimum_only 2 [0%R; 1%R] []); [lia | reflexivity].
Defined.

Lemma test_gradient_in_range_witness :
  LBFGSTest.LBFGSFunc_evaluate 0 1 [3%R] = Ok (LBFGSTest.objective [3%R]).
Proof. apply (test_gradient_in_range 1 [3%R] []); [lia | reflexivity]. Defined.

(** ** The set-up of [main], [lbfgs_test.cpp] *)

Lemma main_dimension_master (argc extracted : Z) :
  (1 <= LBFGSTestMain.main_dimension argc extracted true)%Z.
Proof.
  unfold LBFGSTestMain.main_dimension.
  destruct (1 <? argc)%Z; [|lia].
  destruct (Z.ltb_spec extracted 1); simpl; lia.
Qed.

Lemma LBFGS_new_ok (n : Z) (starting : list R) (m : Z) :
  (0 <= n)%Z ->
  LBFGS_new n starting m
  = Ok (mkLBFGS (mkFactory n) BasicLBFGSFunc_new (mkVec starting)
                (LBFGS_General_new (mkFactory n) (mkVec starting) m)).
Proof.
  intros Hn. unfold LBFGS_new, BasicLargeVectorFactory_new.
  rewrite (proj2 (Z.leb_le 0 n) Hn), check_true_bind.
  cbn [mbind result_bind].
  unfold giveMeOne, BasicLargeVectorFactory_ops, Basic_giveMeOne,
    BasicLargeVector_new. cbn [n_].
  rewrite (proj2 (Z.ltb_ge n 0) Hn). reflexivity.
Qed.

(** On the master process [main] always gets as far as the call of
    [minimize]: whatever the command line gives, the dimension is at least
    1, both function objects and the optimizer are constructed for it, and
    the starting point (1000, ..., 1000) has that size, so that the size
    checks of the test functions accept it. *)
Theorem main_setup_on_master (argc extracted numProcesses : Z) (old : list R) :
  exists su,
    LBFGSTestMain.main_setup argc extracted true numProcesses = Ok su /\
    (1 <= LBFGSTestMain.su_f su)%Z /\
    LBFGSTestMain.su_g su = LBFGSTestMain.su_f su /\
    n_ (factory_ (LBFGSTestMain.su_lbfgs su)) = LBFGSTestMain.su_f su /\
    LBFGSTestMain.su_x su
      = repeat 1000%R (Z.to_nat (LBFGSTestMain.su_f su)) /\
    contents (s_ (LBFGSTestMain.su_lbfgs su)) = LBFGSTestMain.su_x su /\
    (exists v, LBFGSTest.LBFGSFunc_evaluate 0 (LBFGSTestMain.su_f su)
                 (LBFGSTestMain.su_x su) = Ok v) /\
    (exists r, LBFGSTest.LBFGSFuncGrad_evaluate 0 (LBFGSTestMain.su_g su)
                 (LBFGSTestMain.su_x su) old = Ok r).
Proof.
  pose proof (main_dimension_master argc extracted) as Hn.
  unfold LBFGSTestMain.main_setup.
  set (n := LBFGSTestMain.main_dimension argc extracted true) in *.
  unfold LBFGSTestMain.LBFGSFunc_new, LBFGSTestMain.LBFGSFuncGrad_new,
    LBFGSTestMain.vector_fill.
  rewrite (proj2 (Z.ltb_lt 0 n)) by lia. rewrite !check_true_bind.
  rewrite (proj2 (Z.ltb_ge n 0)) by lia.
  cbn [mbind result_bind]. rewrite LBFGS_new_ok by lia.
  eexists. split; [reflexivity|]. cbn.
  assert (Hlen : Z.of_nat (length (repeat 1000%R (Z.to_nat n))) = n)
    by (rewrite repeat_length; lia).
  repeat split; auto.
  - unfold LBFGSTest.LBFGSFunc_evaluate.
    rewrite (proj2 (Z.eqb_eq _ _) Hlen), check_true_bind. eauto.
  - unfold LBFGSTest.LBFGSFuncGrad_evaluate.
    rewrite (proj2 (Z.eqb_eq _ _) Hlen), check_true_bind. eauto.
Qed.

(** On a process that is not the master a dimension below 1 from the command
    line is not replaced: the constructor of the objective fails its check,
    which [main] catches. *)
Theorem main_setup_off_master (argc extracted numProcesses : Z) :
  (1 < argc)%Z -> (extracted < 1)%Z ->
  LBFGSTestMain.main_setup argc extracted false numProcesses = Raise CheckFailed.
Proof.
  intros Hargc Hn. unfold LBFGSTestMain.main_setup, LBFGSTestMain.main_dimension.
  rewrite (proj2 (Z.ltb_lt 1 argc) Hargc), andb_false_r.
  unfold LBFGSTestMain.LBFGSFunc_new.
  rewrite (proj2 (Z.ltb_ge 0 extracted)) by lia. reflexivity.
Qed.

Lemma main_setup_off_master_witness :
  LBFGSTestMain.main_setup 2 0 false 4 = Raise CheckFailed.
Proof. apply (main_setup_off_master 2 0 4); lia. Defined.

(** ** The front end, [lbfgs.hpp] *)

Lemma omap_ext_list {A B} (f g : A -> option B) (l : list A) :
  (forall a, f a = g a) -> omap f l = omap g l.
Proof.
  intros Hfg. induction l as [|a l IH]; [reflexivity|].
  cbn. rewrite Hfg, IH. reflexivity.
Qed.

(** A binding has no point before the first [set]: it evaluates at the empty
    vector.  With the test functions, whose dimension is not 0, every
    request made before the first [set] is answered by the failed size
    check, and each request still is one external call. *)
Theorem unset_binding_rejected (processId n : Z) (c : Caller) (l : list Action) :
  n <> 0%Z ->
  binding c = BasicLBFGSFunc_new ->
  forallb (fun a => negb (is_set a)) l = true ->
  answers (acts (LBFGSTest.LBFGSFunc_evaluate processId n)
                (LBFGSTest.LBFGSFuncGrad_evaluate processId n) c l)
  = answers c ++ omap rejected l /\
  trace (world (acts (LBFGSTest.LBFGSFunc_evaluate processId n)
                     (LBFGSTest.LBFGSFuncGrad_evaluate processId n) c l))
  = trace (world c) ++ omap (event_at []) l.
Proof.
  intros Hn Hb Hl.
  destruct (acts_requests (LBFGSTest.LBFGSFunc_evaluate processId n)
              (LBFGSTest.LBFGSFuncGrad_evaluate processId n) l c Hl)
    as (_ & _ & Ht & Ha).
  rewrite Ht, Ha, Hb. split; [|reflexivity]. f_equal.
  apply omap_ext_list. intros a.
  assert (Hchk : (Z.of_nat (length (@nil R)) =? n)%Z = false)
    by (apply Z.eqb_neq; simpl; lia).
  destruct a; try reflexivity; cbn [answer_at rejected x_ BasicLBFGSFunc_new];
    unfold LBFGSTest.LBFGSFunc_evaluate, LBFGSTest.LBFGSFuncGrad_evaluate;
    rewrite Hchk; reflexivity.
Qed.

Lemma unset_binding_rejected_witness :
  answers (acts demo_f demo_grad demo_caller [AValue; ADerivative [1%R]])
  = answers demo_caller ++ omap rejected [AValue; ADerivative [1%R]].
Proof.
  apply (unset_binding_rejected 0 1 demo_caller [AValue; ADerivative [1%R]]);
    [lia | reflexivity | reflexivity].
Defined.

(** The trampoline hands every call on to the user function that [cb_]
    points to.  With user functions that return and leave [cb_] as it is,
    a sequence of calls of the trampoline calls the function in [cb_] once
    for each, in the order of the calls and with the arguments of each, the
    vector as its contents, and returns; with a null [cb_] it calls
    nothing. *)
Theorem deliver_calls_in_order (user : UserCode) (calls : list Progress)
        (w : World) :
  (forall c it f gn x w0, user c it f gn x w0 = (Ok tt, cb_ w0)) ->
  run (deliver user calls) w
  = (Ok tt,
     mkWorld (cb_ w)
             (trace w ++ match cb_ w with
                         | Some c => map (callback_event c) calls
                         | None => []
                         end)).
Proof.
  intros Huser. revert w. induction calls as [|p calls IH]; intros w.
  - cbn [deliver]. destruct w as [cb tr]. cbn.
    destruct cb; rewrite app_nil_r; reflexivity.
  - cbn [deliver]. rewrite run_bind, myCallBack_run.
    destruct w as [cb tr]. cbn [cb_ trace]. destruct cb as [c|].
    + rewrite call_fnptr_run, Huser. cbn [fst snd cb_ trace].
      rewrite IH. cbn [cb_ trace map]. rewrite <- app_assoc. reflexivity.
    + rewrite IH. reflexivity.
Qed.

Lemma deliver_calls_in_order_witness :
  run (deliver demo_user [mkProgress 1 2 3 (mkVec [4%R]);
                          mkProgress 2 1 0 (mkVec [5%R])])
      (mkWorld (Some 7%nat) [])
  = (Ok tt,
     mkWorld (Some 7%nat)
             [EvCallback 7 1 2 3 [4%R]; EvCallback 7 2 1 0 [5%R]]).
Proof.
  apply (deliver_calls_in_order demo_user
           [mkProgress 1 2 3 (mkVec [4%R]); mkProgress 2 1 0 (mkVec [5%R])]
           (mkWorld (Some 7%nat) [])).
  reflexivity.
Defined.

(** What a user function throws leaves the trampoline, and ends the
    sequence of calls: the calls after it are not made.  What it leaves in
    [cb_] stays there. *)
Theorem user_exception_passes_through (user : UserCode) (p : Progress)
        (rest : list Progress) (c : nat) (w : World) (e : exn) :
  cb_ w = Some c ->
  (user c (pr_it p) (pr_f p) (pr_gn p) (contents (pr_v p))
        (mkWorld (cb_ w) (trace w ++ [callback_event c p]))).1 = Raise e ->
  run (deliver user (p :: rest)) w
  = (Raise e,
     mkWorld (user c (pr_it p) (pr_f p) (pr_gn p) (contents (pr_v p))
                   (mkWorld (cb_ w) (trace w ++ [callback_event c p]))).2
             (trace w ++ [callback_event c p])).
Proof.
  intros Hcb Hthrow. cbn [deliver]. rewrite run_bind, myCallBack_run.
  destruct w as [cb tr]. cbn [cb_ trace] in *. subst cb.
  rewrite call_fnptr_run. cbn [cb_ trace]. unfold callback_event in *.
  rewrite Hthrow. reflexivity.
Qed.

Lemma user_exception_passes_through_witness :
  run (deliver demo_thrower [mkProgress 1 2 3 (mkVec [4%R]);
                             mkProgress 2 1 0 (mkVec [5%R])])
      (mkWorld (Some 7%nat) [])
  = (Raise CheckFailed,
     mkWorld (Some 7%nat) [EvCallback 7 1 2 3 [4%R]]).
Proof.
  apply (user_exception_passes_through demo_thrower
           (mkProgress 1 2 3 (mkVec [4%R])) [mkProgress 2 1 0 (mkVec [5%R])]
           7%nat (mkWorld (Some 7%nat) []) CheckFailed); reflexivity.
Defined.

(** ** The parameter file reader, [parser.cpp] *)

Section ParserFacts.
Import ParserCpp.

Lemma find_cons (c a : ascii) (s : string) :
  find c (String a s) = if Ascii.eqb a c then Some 0%nat else S <$> find c s.
Proof. reflexivity. Qed.

Lemma find_cons_None (c a : ascii) (s : string) :
  find c (String a s) = None <-> Ascii.eqb a c = false /\ find c s = None.
Proof.
  rewrite find_cons. destruct (Ascii.eqb a c), (find c s); simpl;
    split; try intros [? ?]; try discriminate; auto.
Qed.

Lemma find_clean (c : ascii) (s : string) :
  Ascii.eqb c " " || Ascii.eqb c tab = true -> find c (clean s) = None.
Proof.
  intros Hc. induction s as [|a s IH]; [reflexivity|].
  cbn [clean]. destruct (Ascii.eqb a " " || Ascii.eqb a tab) eqn:Ha; [exact IH|].
  apply find_cons_None. split; [|exact IH].
  destruct (Ascii.eqb_spec a c) as [->|]; [congruence|reflexivity].
Qed.

Lemma clean_no_blank (s : string) : no_blank (clean s).
Proof. split; apply find_clean; reflexivity. Qed.

Lemma clean_fixed (s : string) : no_blank s -> clean s = s.
Proof.
  unfold no_blank. induction s as [|a s IH]; [reflexivity|].
  rewrite !find_cons_None. intros [[Ha1 Hs1] [Ha2 Hs2]].
  cbn [clean]. rewrite Ha1, Ha2. cbn. f_equal. apply IH. auto.
Qed.

Lemma clean_idem (s : string) : clean (clean s) = clean s.
Proof. apply clean_fixed, clean_no_blank. Qed.

Lemma clean_app (s t : string) : clean (s ++ t)%string = (clean s ++ clean t)%string.
Proof.
  induction s as [|a s IH]; [reflexivity|].
  change (String a s ++ t)%string with (String a (s ++ t)%string).
  cbn [clean]. rewrite IH.
  destruct (Ascii.eqb a " " || Ascii.eqb a tab); reflexivity.
Qed.

Lemma find_lt (c : ascii) (s : string) (i : nat) :
  find c s = Some i -> (i < String.length s)%nat.
Proof.
  revert i. induction s as [|a s IH]; intros i; [discriminate|].
  rewrite find_cons. destruct (Ascii.eqb a c).
  - intros [= <-]. simpl. lia.
  - destruct (find c s) as [j|]; [|discriminate].
    intros [= <-]. specialize (IH j eq_refl). simpl. lia.
Qed.

Lemma find_prefix (c : ascii) (s : string) (i : nat) :
  find c s = Some i -> find c (substring 0 i s) = None.
Proof.
  revert i. induction s as [|a s IH]; intros i; [discriminate|].
  rewrite find_cons. destruct (Ascii.eqb a c) eqn:Ha.
  - intros [= <-]. reflexivity.
  - destruct (find c s) as [j|]; [|discriminate].
    intros [= <-]. cbn [substring]. apply find_cons_None. auto.
Qed.

Lemma find_None_substring (c : ascii) (s : string) (n m : nat) :
  find c s = None -> find c (substring n m s) = None.
Proof.
  revert n m. induction s as [|a s IH]; intros n m Hs.
  - destruct n, m; reflexivity.
  - apply find_cons_None in Hs as [Ha Hs].
    destruct n as [|n]; [destruct m as [|m]|]; cbn [substring];
      [reflexivity | apply find_cons_None; auto | auto].
Qed.

Lemma find_hash_prefix (s : string) (i : nat) :
  find "#" s <> Some 0%nat -> find "#" (substring 0 i s) <> Some 0%nat.
Proof.
  destruct s as [|a s]; [destruct i; auto|].
  destruct i as [|i]; [discriminate|].
  cbn [substring]. rewrite !find_cons. destruct (Ascii.eqb a "#"); [auto|].
  destruct (find "#" (substring 0 i s)); discriminate.
Qed.

Lemma substring_nonempty (n m : nat) (s : string) :
  (n < String.length s)%nat -> (0 < m)%nat -> substring n m s <> EmptyString.
Proof.
  revert n. induction s as [|a s IH]; intros n Hn Hm; simpl in Hn; [lia|].
  destruct n as [|n]; cbn [substring].
  - destruct m; [lia|discriminate].
  - apply IH; lia.
Qed.

(** What the loop stores for a line. *)
Lemma classify_entry_ok (s key val : string) :
  classify s = Assignment key val -> entry_ok key val.
Proof.
  unfold classify. pose proof (clean_no_blank s) as [Hsp Htab].
  destruct (clean s) as [|c0 t] eqn:Hclean; [discriminate|].
  destruct (Ascii.eqb c0 "#") eqn:Hhash; [discriminate|].
  assert (Hfirst : find "#" (String c0 t) <> Some 0%nat).
  { rewrite find_cons, Hhash. destruct (find "#" t); discriminate. }
  remember (String c0 t) as sc eqn:Hsc.
  destruct (find "=" sc) as [i|] eqn:Heq; [|discriminate].
  pose proof (find_lt _ _ _ Heq) as Hlt.
  destruct (Nat.eqb_spec (i + 1) (String.length sc)) as [|Hne];
    [discriminate|].
  intros [= <- <-]. unfold entry_ok, no_blank. repeat split.
  - apply find_None_substring, Hsp.
  - apply find_None_substring, Htab.
  - apply find_prefix, Heq.
  - apply find_hash_prefix, Hfirst.
  - apply find_None_substring, Hsp.
  - apply find_None_substring, Htab.
  - apply substring_nonempty; lia.
Qed.

Lemma read_line_entries (st : Parser * list string) (s : string) :
  (forall k v, st.1 !! k = Some v -> entry_ok k v) ->
  forall k v, (read_line st s).1 !! k = Some v -> entry_ok k v.
Proof.
  unfold Parser in *. intros Hst k v. unfold read_line.
  destruct (classify s) as [| |key val] eqn:Hs; cbn [fst]; try apply Hst.
  unfold Parser in *. destruct (decide (key = k)) as [->|Hne].
  - rewrite lookup_insert_eq. intros [= <-]. eapply classify_entry_ok, Hs.
  - rewrite lookup_insert_ne by done. apply Hst.
Qed.

Lemma read_lines_entries (ls : list string) (st : Parser * list string) :
  (forall k v, st.1 !! k = Some v -> entry_ok k v) ->
  forall k v, (fold_left read_line ls st).1 !! k = Some v -> entry_ok k v.
Proof.
  revert st. induction ls as [|s ls IH]; intros st Hst; [exact Hst|].
  cbn [fold_left]. apply IH, read_line_entries, Hst.
Qed.

(** [readFile] keeps the object clean: if its entries have no blanks, no
    equal sign in a key, no key that starts a comment and no empty value,
    then so it is after reading a file, whatever the file contains; a file
    that cannot be opened is the one case that throws. *)
Theorem readFile_entries_clean (content fileName : string) (this : Parser) :
  (forall k v, this !! k = Some v -> entry_ok k v) ->
  exists m screen,
    readFile (Some content) fileName this = Return (m, screen) /\
    forall k v, m !! k = Some v -> entry_ok k v.
Proof.
  intros Hthis. unfold readFile.
  destruct (fold_left read_line (getlines content) (this, [])) as [m screen] eqn:Hfold.
  exists m, screen. split; [reflexivity|].
  change m with ((m, screen).1). rewrite <- Hfold.
  apply read_lines_entries. exact Hthis.
Qed.

Lemma readFile_entries_clean_witness :
  exists m screen,
    readFile (Some " a b = 1 2 "%string) "f"%string ∅ = Return (m, screen) /\
    forall k v, m !! k = Some v -> entry_ok k v.
Proof.
  apply (readFile_entries_clean " a b = 1 2 "%string "f"%string ∅).
  intros k v Hk. unfold Parser in *. rewrite lookup_empty in Hk. discriminate.
Defined.

(** *** Blanks do not matter *)

Lemma getlines_cons (content : string) :
  exists l ls, getlines content = l :: ls.
Proof.
  induction content as [|c rest (l & ls & IH)]; [eauto|].
  cbn [getlines]. rewrite IH. destruct (Ascii.eqb c newline); eauto.
Qed.

Lemma getlines_clean (content : string) :
  getlines (clean content) = map clean (getlines content).
Proof.
  induction content as [|c rest IH]; [reflexivity|].
  destruct (getlines_cons rest) as (l & ls & Hrest).
  cbn [clean getlines].
  destruct (Ascii.eqb c " " || Ascii.eqb c tab) eqn:Hblank.
  - assert (Hnl : Ascii.eqb c newline = false).
    { destruct (Ascii.eqb_spec c newline) as [->|]; [discriminate|reflexivity]. }
    rewrite Hnl, IH, Hrest. cbn [map clean]. rewrite Hblank. reflexivity.
  - cbn [getlines]. destruct (Ascii.eqb c newline).
    + rewrite IH. reflexivity.
    + rewrite IH, Hrest. cbn [map clean]. rewrite Hblank. reflexivity.
Qed.

Lemma classify_clean (s : string) : classify (clean s) = classify s.
Proof. unfold classify. rewrite clean_idem. reflexivity. Qed.

(** The map after some lines depends on what the lines are classified as. *)
Lemma read_lines_classify (ls ls' : list string) (st st' : Parser * list string) :
  map classify ls = map classify ls' -> st.1 = st'.1 ->
  (fold_left read_line ls st).1 = (fold_left read_line ls' st').1.
Proof.
  revert ls' st st'. induction ls as [|s ls IH]; intros [|s' ls'] st st' Hc Hst;
    try discriminate; [exact Hst|].
  injection Hc as Hs Hc. cbn [fold_left]. apply IH; [exact Hc|].
  unfold read_line. rewrite Hs. destruct (classify s'); cbn [fst]; congruence.
Qed.

(** Spaces and tabs in a file mean nothing: the file and the file without
    them give the same entries. *)
Theorem readFile_ignores_blanks (content fileName : string) (this : Parser) :
  exists m screen screen',
    readFile (Some content) fileName this = Return (m, screen) /\
    readFile (Some (clean content)) fileName this = Return (m, screen').
Proof.
  unfold readFile.
  destruct (fold_left read_line (getlines content) (this, [])) as [m screen] eqn:H1.
  destruct (fold_left read_line (getlines (clean content)) (this, []))
    as [m' screen'] eqn:H2.
  exists m, screen, screen'. split; [reflexivity|]. do 2 f_equal.
  change m' with ((m', screen').1). change m with ((m, screen).1).
  rewrite <- H1, <- H2. apply read_lines_classify; [|reflexivity].
  rewrite getlines_clean, map_map. apply map_ext, classify_clean.
Qed.

(** *** The last assignment of a key *)

Lemma getlines_app (a b : string) :
  getlines (a ++ String newline b)%string = getlines a ++ getlines b.
Proof.
  induction a as [|c a IH]; [reflexivity|].
  destruct (getlines_cons a) as (l & ls & Ha).
  change (String c a ++ String newline b)%string
    with (String c (a ++ String newline b)%string).
  cbn [getlines]. rewrite IH, Ha.
  destruct (Ascii.eqb c newline); reflexivity.
Qed.

Lemma getlines_single (s : string) : find newline s = None -> getlines s = [s].
Proof.
  induction s as [|c s IH]; [reflexivity|].
  rewrite find_cons_None. intros [Hc Hs]. cbn [getlines].
  rewrite Hc, (IH Hs). reflexivity.
Qed.

Lemma read_lines_keep (key : string) (ls : list string) (st : Parser * list string) :
  (forall s v, In s ls -> classify s <> Assignment key v) ->
  (fold_left read_line ls st).1 !! key = st.1 !! key.
Proof.
  unfold Parser in *.
  revert st. induction ls as [|s ls IH]; intros st Hls; [reflexivity|].
  cbn [fold_left]. rewrite IH by (intros; apply Hls; right; assumption).
  unfold read_line. pose proof (Hls s) as Hs.
  destruct (classify s) as [| |k v]; cbn [fst]; try reflexivity.
  unfold Parser in *. apply lookup_insert_ne. intros ->. apply (Hs v); [left; reflexivity|reflexivity].
Qed.



(** *** The lookups *)

(** The default of [getStr(s, def)] is stored the first time only: the call
    always returns, the key then has the returned value, the other keys are
    as before, and every later call returns the same value and changes
    nothing, whatever default it is given. *)
Theorem getStr_default_sticks (this : Parser) (s def : string) :
  exists v this',
    getStr_default this s def = Return (v, this') /\
    this' !! s = Some v /\
    v = default def (this !! s) /\
    (forall k, k <> s -> this' !! k = this !! k) /\
    getStr this' s = Return v /\
    forall def', getStr_default this' s def' = Return (v, this').
Proof.
  unfold getStr_default, getStr. unfold Parser in *.
  destruct (this !! s) as [old|] eqn:Hs.
  - exists old, this. repeat split; auto; try intros def'; rewrite !Hs; reflexivity.
  - exists def, (<[s := def]> this). rewrite lookup_insert_eq.
    repeat split; auto. intros k Hk. apply lookup_insert_ne. congruence.
Qed.
End ParserFacts.

(** *** Integers *)

Section ParserInt.
Import ParserCpp.

(** The ten digits. *)
Lemma digits_acc_pos (d : Decimal.uint) (acc : positive) :
  atoi_digits (NilEmpty.string_of_uint d) (Z.pos acc)
  = Z.pos (Pos.of_uint_acc d acc).
Proof.
  revert acc. induction d as [|d IH|d IH|d IH|d IH|d IH|d IH|d IH|d IH|d IH|d IH];
    intros acc; [reflexivity|..];
    cbn [NilEmpty.string_of_uint atoi_digits Pos.of_uint_acc];
    match goal with
    | |- context [digit_of ?c] =>
        let v := eval vm_compute in (digit_of c) in
        change (digit_of c) with v
    end;
    cbv beta iota; rewrite <- IH; f_equal; lia.
Qed.

Lemma digits_zero (d : Decimal.uint) :
  atoi_digits (NilEmpty.string_of_uint d) 0 = Z.of_N (Pos.of_uint d).
Proof.
  induction d as [|d IH|d IH|d IH|d IH|d IH|d IH|d IH|d IH|d IH|d IH];
    [reflexivity | exact IH | ..];
    cbn [NilEmpty.string_of_uint atoi_digits Pos.of_uint];
    match goal with
    | |- context [digit_of ?c] =>
        let v := eval vm_compute in (digit_of c) in
        change (digit_of c) with v
    end;
    cbv beta iota; apply digits_acc_pos.
Qed.

Lemma to_uint_not_Nil (p : positive) : Pos.to_uint p <> Decimal.Nil.
Proof.
  intros Hnil. pose proof (DecimalPos.Unsigned.of_to p) as Hp.
  rewrite Hnil in Hp. discriminate.
Qed.

(** A printed number starts with a digit. *)
Lemma string_of_uint_head (d : Decimal.uint) :
  d <> Decimal.Nil ->
  exists c s,
    NilZero.string_of_uint d = String c s /\
    NilEmpty.string_of_uint d = String c s /\
    digit_of c <> None.
Proof.
  intros Hd. destruct d; [contradiction|..];
    (eexists; eexists; split; [reflexivity|split; [reflexivity|discriminate]]).
Qed.

Lemma digit_not_special (c : ascii) :
  digit_of c <> None ->
  isspace c = false /\ Ascii.eqb c "-" = false /\ Ascii.eqb c "+" = false /\
  Ascii.eqb c " " = false /\ Ascii.eqb c tab = false /\
  Ascii.eqb c newline = false /\ Ascii.eqb c "=" = false /\
  Ascii.eqb c "#" = false.
Proof.
  intros Hc.
  assert (Hne : forall c', digit_of c' = None -> Ascii.eqb c c' = false).
  { intros c' Hc'. destruct (Ascii.eqb_spec c c') as [->|]; [contradiction|reflexivity]. }
  repeat split; try (apply Hne; reflexivity).
  unfold digit_of in Hc. unfold isspace.
  destruct (48 <=? Z.of_N (N_of_ascii c))%Z eqn:Hlo; [|contradiction].
  apply Z.leb_le in Hlo.
  destruct (N.eqb_spec (N_of_ascii c) 32) as [H32|_]; [lia|].
  destruct (N.leb_spec (N_of_ascii c) 13) as [H13|_]; [lia|].
  rewrite andb_false_r. reflexivity.
Qed.

Lemma atoi_value_print (z : Z) : atoi_value (print_int z) = z.
Proof.
  unfold print_int. destruct z as [|p|p]; [reflexivity|..];
    cbn [Z.to_int NilZero.string_of_int];
    destruct (string_of_uint_head (Pos.to_uint p) (to_uint_not_Nil p))
      as (c & s & Hzero & Hempty & Hc);
    destruct (digit_not_special c Hc) as (Hsp & Hminus & Hplus & _);
    pose proof (digits_zero (Pos.to_uint p)) as Hdigits;
    rewrite DecimalPos.Unsigned.of_to in Hdigits.
  - rewrite Hzero. unfold atoi_value. cbn [skip_space]. rewrite Hsp, Hminus, Hplus.
    rewrite <- Hempty. exact Hdigits.
  - unfold atoi_value. cbn [skip_space].
    change (isspace "-") with false. cbv iota.
    change (Ascii.eqb "-" "-") with true. cbv iota.
    rewrite Hzero, <- Hempty, Hdigits. reflexivity.
Qed.

(** [atoi] reads back what the printing of an [int] wrote. *)
Lemma atoi_print (z : Z) : in_int z -> atoi (print_int z) = Return z.
Proof.
  intros [Hlo Hhi]. unfold atoi. rewrite atoi_value_print.
  rewrite (proj2 (Z.leb_le _ _) Hlo), (proj2 (Z.ltb_lt _ _) Hhi). reflexivity.
Qed.

(** The default of [getInt(s, def)] comes back: when the key is missing the
    call returns [def] and stores its decimal form, from which [getInt(s)]
    reads [def] again; every later call with a default returns [def] too
    and changes nothing. *)
Theorem getInt_default_round_trip (this : Parser) (s : string) (def : Z) :
  in_int def ->
  this !! s = None ->
  exists this',
    getInt_default this s def = Return (def, this') /\
    this' !! s = Some (print_int def) /\
    getInt this' s = Return def /\
    forall def', getInt_default this' s def' = Return (def, this').
Proof.
  intros Hdef Hs. exists (<[s := print_int def]> this).
  unfold getInt_default, getInt. unfold Parser in *.
  rewrite Hs, lookup_insert_eq, (atoi_print def Hdef). auto.
Qed.

Lemma getInt_default_round_trip_witness :
  exists this',
    getInt_default ∅ "n"%string (-12) = Return ((-12)%Z, this') /\
    this' !! "n"%string = Some (print_int (-12)) /\
    getInt this' "n"%string = Return (-12)%Z /\
    forall def', getInt_default this' "n"%string def' = Return ((-12)%Z, this').
Proof.
  apply (getInt_default_round_trip ∅ "n"%string (-12)).
  - unfold in_int. lia.
  - reflexivity.
Defined.

(** *** Reading a number from a file *)

Lemma length_append (a b : string) :
  String.length (a ++ b)%string = (String.length a + String.length b)%nat.
Proof. induction a as [|c a IH]; [reflexivity|]. simpl. rewrite IH. reflexivity. Qed.

Lemma find_app_here (c : ascii) (a b : string) :
  find c a = None -> find c (a ++ String c b)%string = Some (String.length a).
Proof.
  induction a as [|x a IH].
  - intros _. change (find c (String c b) = Some 0%nat).
    rewrite find_cons, Ascii.eqb_refl. reflexivity.
  - rewrite find_cons_None. intros [Hx Ha].
    change (String x a ++ String c b)%string with (String x (a ++ String c b)%string).
    rewrite find_cons, Hx, (IH Ha). reflexivity.
Qed.

Lemma find_app_None (c : ascii) (a b : string) :
  find c a = None -> find c b = None -> find c (a ++ b)%string = None.
Proof.
  intros Ha Hb. induction a as [|x a IH]; [exact Hb|].
  apply find_cons_None in Ha as [Hx Ha].
  change (String x a ++ b)%string with (String x (a ++ b)%string).
  apply find_cons_None. auto.
Qed.

Lemma substring_full (s : string) : substring 0 (String.length s) s = s.
Proof. induction s as [|c s IH]; [reflexivity|]. simpl. rewrite IH. reflexivity. Qed.

Lemma substring_prefix (a b : string) :
  substring 0 (String.length a) (a ++ b)%string = a.
Proof.
  induction a as [|c a IH]; [destruct b; reflexivity|].
  simpl. rewrite IH. reflexivity.
Qed.

Lemma substring_skip (a b : string) (n m : nat) :
  substring (String.length a + n) m (a ++ b)%string = substring n m b.
Proof. induction a as [|c a IH]; [reflexivity|]. simpl. exact IH. Qed.

(** The line that [readFile] makes an entry from: every clean entry comes
    from the line [key = val], with blanks wherever one likes. *)
Lemma classify_assignment (s key val : string) :
  clean s = (key ++ String "=" val)%string ->
  find "=" key = None -> find "#" key <> Some 0%nat -> val <> EmptyString ->
  classify s = Assignment key val.
Proof.
  intros Hclean Heq Hhash Hval. unfold classify. rewrite Hclean.
  assert (Hlen : (0 < String.length val)%nat).
  { destruct val; [contradiction|simpl; lia]. }
  assert (Hfirst : exists c0 t, (key ++ String "=" val)%string = String c0 t /\
                                Ascii.eqb c0 "#" = false).
  { destruct key as [|c0 k]; [eexists; eexists; split; reflexivity|].
    exists c0, (k ++ String "=" val)%string. split; [reflexivity|].
    rewrite find_cons in Hhash. destruct (Ascii.eqb c0 "#"); [contradiction|reflexivity]. }
  destruct Hfirst as (c0 & t & Hform & Hc0).
  rewrite Hform, Hc0, <- Hform.
  rewrite (find_app_here "=" key val Heq), length_append.
  cbn [String.length].
  destruct (Nat.eqb_spec (String.length key + 1)
                         (String.length key + S (String.length val))) as [Hbad|_];
    [lia|].
  rewrite substring_prefix, substring_skip.
  replace (String.length key + S (String.length val) - String.length key - 1)%nat
    with (String.length val) by lia.
  cbn [substring]. rewrite substring_full. reflexivity.
Qed.

Lemma find_string_of_uint (c : ascii) (d : Decimal.uint) :
  digit_of c = None -> find c (NilEmpty.string_of_uint d) = None.
Proof.
  intros Hc.
  induction d as [|d IH|d IH|d IH|d IH|d IH|d IH|d IH|d IH|d IH|d IH];
    [reflexivity|..];
    cbn [NilEmpty.string_of_uint]; apply find_cons_None; (split; [|exact IH]);
    match goal with
    | |- Ascii.eqb ?a c = false =>
        destruct (Ascii.eqb_spec a c) as [<-|]; [discriminate|reflexivity]
    end.
Qed.

Lemma find_print_int (c : ascii) (z : Z) :
  digit_of c = None -> Ascii.eqb c "-" = false -> find c (print_int z) = None.
Proof.
  intros Hc Hminus.
  assert (Hu : forall d, find c (NilZero.string_of_uint d) = None).
  { intros d. pose proof (find_string_of_uint c d Hc) as Hd.
    destruct d; try exact Hd.
    change (find c (String "0" EmptyString) = None).
    apply find_cons_None. split; [|reflexivity].
    destruct (Ascii.eqb_spec "0" c) as [<-|]; [discriminate|reflexivity]. }
  unfold print_int. destruct z as [|p|p]; cbn [Z.to_int NilZero.string_of_int];
    try apply Hu.
  apply find_cons_None. split; [|apply Hu].
  rewrite Ascii.eqb_sym. exact Hminus.
Qed.

Lemma print_int_nonempty (z : Z) : print_int z <> EmptyString.
Proof.
  unfold print_int. destruct z as [|p|p]; cbn [Z.to_int NilZero.string_of_int];
    try discriminate.
  destruct (string_of_uint_head (Pos.to_uint p) (to_uint_not_Nil p))
    as (c & s & Hzero & _). rewrite Hzero. discriminate.
Qed.

(** A number written in a file is the number read: when a line of the
    file, wherever it stands, is [key = z] for an [int] [z] in decimal form,
    and no line after it assigns the key, [getInt(key)] returns [z] after
    the file is read. *)
Theorem readFile_then_getInt
        (content fileName key : string) (z : Z) (before after : list string)
        (this : Parser) :
  in_int z ->
  no_blank key -> find "=" key = None -> find "#" key <> Some 0%nat ->
  getlines content = before ++ (key ++ " = " ++ print_int z)%string :: after ->
  (forall s v, In s after -> classify s <> Assignment key v) ->
  exists m screen,
    readFile (Some content) fileName this = Return (m, screen) /\
    getInt m key = Return z.
Proof.
  intros Hz Hblank Heq Hhash Hlines Hafter.
  assert (Hline : classify (key ++ " = " ++ print_int z)%string
                  = Assignment key (print_int z)).
  { apply classify_assignment; auto using print_int_nonempty.
    rewrite clean_app, (clean_fixed key Hblank). f_equal.
    change (" = " ++ print_int z)%string
      with (String " " (String "=" (String " " (print_int z)))).
    cbn [clean]. cbn. f_equal. apply clean_fixed.
    split; apply find_print_int; reflexivity. }
  unfold readFile. rewrite Hlines, fold_left_app. cbn [fold_left].
  destruct (fold_left read_line after _) as [m screen] eqn:Hfold.
  exists m, screen. split; [reflexivity|].
  unfold getInt. change m with ((m, screen).1). rewrite <- Hfold.
  rewrite read_lines_keep by exact Hafter.
  unfold read_line at 1. rewrite Hline. cbn [fst].
  unfold Parser in *. rewrite lookup_insert_eq. apply atoi_print, Hz.
Qed.

Lemma readFile_then_getInt_witness :
  exists m screen,
    readFile (Some "n = 25"%string) "f"%string ∅ = Return (m, screen) /\
    getInt m "n"%string = Return 25%Z.
Proof.
  apply (readFile_then_getInt "n = 25" "f" "n" 25 [] [] ∅).
  - unfold in_int. lia.
  - split; reflexivity.
  - reflexivity.
  - discriminate.
  - reflexivity.
  - intros s v [].
Defined.
End ParserInt.

(** ** The nested sampler front end, [polychord.cpp] *)

Section PolyChordFacts.
Import PolyChordCpp.

Lemma Rleb_true (a b : R) : (a <= b)%R -> Rleb a b = true.
Proof. intros Hab. unfold Rleb. destruct (Rle_dec a b); [reflexivity|contradiction]. Qed.

Lemma Rleb_false (a b : R) : (b < a)%R -> Rleb a b = false.
Proof. intros Hab. unfold Rleb. destruct (Rle_dec a b); [lra|reflexivity]. Qed.

Lemma Reqb_true (a b : R) : a = b -> Reqb a b = true.
Proof. intros Hab. unfold Reqb. destruct (Req_dec_T a b); [reflexivity|contradiction]. Qed.

Lemma Reqb_false (a b : R) : a <> b -> Reqb a b = false.
Proof. intros Hab. unfold Reqb. destruct (Req_dec_T a b); [contradiction|reflexivity]. Qed.

Lemma check_index_ok (this : PolyChord) (i : Z) :
  (0 <= i < n_ this)%Z -> check_index this i = Ok tt.
Proof.
  intros [Hlo Hhi]. unfold check_index.
  rewrite (proj2 (Z.leb_le _ _) Hlo), (proj2 (Z.ltb_lt _ _) Hhi). reflexivity.
Qed.

Lemma check_index_fail (this : PolyChord) (i : Z) :
  ~ (0 <= i < n_ this)%Z -> check_index this i = Raise CheckFailed.
Proof.
  intros Hi. unfold check_index.
  destruct (Z.leb_spec 0 i), (Z.ltb_spec i (n_ this)); try reflexivity. lia.
Qed.

(** A prior without width fixes the parameter: [setParam] with equal bounds
    and [setParamGauss] with width 0 do what [setParamFixed] does with that
    value, for every index. *)
Theorem degenerate_prior_fixes (this : PolyChord) (i : Z) (name : string) (v : R) :
  setParam this i name v v = setParamFixed this i name v /\
  setParamGauss this i name v 0 = setParamFixed this i name v.
Proof.
  unfold setParam, setParamGauss.
  rewrite (Rleb_true v v), (Rleb_true 0 0), !Reqb_true by (reflexivity || lra).
  unfold setParamFixed.
  destruct (check_index this i) as [[]|e]; split; reflexivity.
Qed.

(** *** The sizes and the priors of a configured object *)

Lemma PolyChord_new_sized (nPar nLive : Z) (fileRoot : string) (p : PolyChord) :
  PolyChord_new nPar nLive fileRoot = Ok p ->
  sized p /\ n_ p = nPar /\
  forall i, (i < Z.to_nat nPar)%nat -> proper_prior (prior_at p i).
Proof.
  unfold PolyChord_new. destruct (Z.ltb_spec nPar 0) as [|Hn]; [discriminate|].
  intros [= <-]. unfold sized. cbn. rewrite !repeat_length.
  repeat split; auto.
  intros i Hi. left. unfold prior_at. cbn.
  rewrite !nth_lookup, !repeat_lookup_lt by done. cbn. split; [reflexivity|lra].
Qed.

Lemma setParamFixed_inv (this p : PolyChord) (i : Z) (name : string) (v : R) :
  setParamFixed this i name v = Ok p ->
  n_ p = n_ this /\
  (sized this -> sized p) /\
  forall k, prior_at p k = prior_at this k.
Proof.
  unfold setParamFixed. destruct (check_index this i) as [[]|e]; [|discriminate].
  intros [= <-]. cbn. split; [reflexivity|]. split; [|reflexivity].
  unfold sized. cbn. rewrite !length_insert. auto.
Qed.

Lemma set_prior_inv (this : PolyChord) (i : Z) (name : string) (type : Z) (lo hi : R) :
  (0 <= i < n_ this)%Z ->
  sized this ->
  proper_prior (type, lo, hi) ->
  (forall k, (k < Z.to_nat (n_ this))%nat -> proper_prior (prior_at this k)) ->
  sized (set_prior this i name type lo hi) /\
  forall k, (k < Z.to_nat (n_ this))%nat ->
            proper_prior (prior_at (set_prior this i name type lo hi) k).
Proof.
  intros Hi Hsized Hnew Hold. split.
  - unfold sized in *. cbn. rewrite !length_insert. exact Hsized.
  - intros k Hk. unfold prior_at, set_prior. cbn.
    destruct Hsized as (_ & _ & _ & Ht & Hlo & Hhi & _).
    destruct (decide (Z.to_nat i = k)) as [<-|Hne].
    + rewrite !nth_lookup, !list_lookup_insert_eq by lia. exact Hnew.
    + rewrite !nth_lookup, !list_lookup_insert_ne by done.
      rewrite <- !nth_lookup. apply (Hold k Hk).
Qed.

Lemma apply_setter_inv (this p : PolyChord) (c : Setter) :
  apply_setter this c = Ok p ->
  sized this ->
  (forall k, (k < Z.to_nat (n_ this))%nat -> proper_prior (prior_at this k)) ->
  n_ p = n_ this /\ sized p /\
  forall k, (k < Z.to_nat (n_ this))%nat -> proper_prior (prior_at p k).
Proof.
  intros Hc Hsized Hproper.
  assert (Hfixed : forall i name v,
             setParamFixed this i name v = Ok p ->
             n_ p = n_ this /\ sized p /\
             forall k, (k < Z.to_nat (n_ this))%nat -> proper_prior (prior_at p k)).
  { intros i name v Hp.
    destruct (setParamFixed_inv this p i name v Hp) as (Hn & Hs & Hpr).
    split; [exact Hn|]. split; [exact (Hs Hsized)|].
    intros k Hk. rewrite Hpr. auto. }
  destruct c as [i name lo hi|i name v|i name mean sigma]; cbn [apply_setter] in Hc.
  - unfold setParam in Hc.
    destruct (decide (0 <= i < n_ this)%Z) as [Hi|Hi];
      [|rewrite (check_index_fail this i Hi) in Hc; discriminate].
    rewrite (check_index_ok this i Hi) in Hc. cbn [mbind result_bind] in Hc.
    unfold Rleb, Reqb in Hc.
    destruct (Rle_dec lo hi) as [Hle|]; [|discriminate].
    cbn [check mbind result_bind] in Hc.
    destruct (Req_dec_T lo hi) as [Heq|Hne]; [eapply Hfixed, Hc|].
    injection Hc as <-. split; [reflexivity|].
    apply set_prior_inv; auto. left. cbn. split; [reflexivity|lra].
  - eapply Hfixed, Hc.
  - unfold setParamGauss in Hc.
    destruct (decide (0 <= i < n_ this)%Z) as [Hi|Hi];
      [|rewrite (check_index_fail this i Hi) in Hc; discriminate].
    rewrite (check_index_ok this i Hi) in Hc. cbn [mbind result_bind] in Hc.
    unfold Rleb, Reqb in Hc.
    destruct (Rle_dec 0 sigma) as [Hle|]; [|discriminate].
    cbn [check mbind result_bind] in Hc.
    destruct (Req_dec_T sigma 0) as [Heq|Hne]; [eapply Hfixed, Hc|].
    injection Hc as <-. split; [reflexivity|].
    apply set_prior_inv; auto. right. cbn. split; [reflexivity|lra].
Qed.

Lemma apply_setters_inv (cs : list Setter) (this p : PolyChord) :
  apply_setters this cs = Ok p ->
  sized this ->
  (forall k, (k < Z.to_nat (n_ this))%nat -> proper_prior (prior_at this k)) ->
  n_ p = n_ this /\ sized p /\
  forall k, (k < Z.to_nat (n_ this))%nat -> proper_prior (prior_at p k).
Proof.
  revert this. induction cs as [|c cs IH]; intros this Hcs Hsized Hproper.
  - injection Hcs as <-. auto.
  - cbn [apply_setters] in Hcs.
    destruct (apply_setter this c) as [q|e] eqn:Hc; [|discriminate].
    cbn [mbind result_bind] in Hcs.
    destruct (apply_setter_inv this q c Hc Hsized Hproper) as (Hn & Hs & Hp).
    rewrite <- Hn in Hp. destruct (IH q Hcs Hs Hp) as (Hn' & Hs' & Hp').
    rewrite Hn in Hn', Hp'. auto.
Qed.

(** However an object is configured, its vectors keep the size the
    constructor gave them and every parameter has a proper prior: a uniform
    prior over an interval that is not a point, or a Gaussian prior of
    positive width.  (A degenerate prior fixes the parameter and leaves the
    prior it had.) *)
Theorem configured_object_invariant
        (nPar nLive : Z) (fileRoot : string) (cs : list Setter)
        (p0 p : PolyChord) :
  PolyChord_new nPar nLive fileRoot = Ok p0 ->
  apply_setters p0 cs = Ok p ->
  n_ p = nPar /\ sized p /\
  forall k, (k < Z.to_nat nPar)%nat -> proper_prior (prior_at p k).
Proof.
  intros Hnew Hcs.
  destruct (PolyChord_new_sized nPar nLive fileRoot p0 Hnew) as (Hs0 & Hn0 & Hp0).
  rewrite <- Hn0 in Hp0.
  destruct (apply_setters_inv cs p0 p Hcs Hs0 Hp0) as (Hn & Hs & Hp).
  rewrite Hn0 in Hn, Hp. auto.
Qed.
Lemma configured_object_invariant_witness :
  n_ (set_prior (mkPolyChord 2 10 [EmptyString; EmptyString] [0%R; 0%R] [1%Z; 1%Z]
                   [0%R; 0%R] [1%R; 1%R] [0%R; 0%R] [false; false] "chain"%string None)
                1 "b"%string 2 5 3) = 2%Z.
Proof.
  apply (configured_object_invariant 2 10 "chain"%string
           [SetParamGauss 1 "b"%string 5 3]
           (mkPolyChord 2 10 [EmptyString; EmptyString] [0%R; 0%R] [1%Z; 1%Z]
              [0%R; 0%R] [1%R; 1%R] [0%R; 0%R] [false; false] "chain"%string None)).
  - reflexivity.
  - cbn [apply_setters apply_setter]. unfold setParamGauss.
    rewrite check_index_ok by (cbn; lia). cbn [mbind result_bind].
    rewrite Rleb_true by lra. cbn [check mbind result_bind].
    rewrite Reqb_false by lra. reflexivity.
Defined.

(** *** The likelihood call *)

Lemma nth_Some {A} (l : list A) (i : nat) (d x : A) :
  l !! i = Some x -> nth i l d = x.
Proof. intros Hx. rewrite nth_lookup, Hx. reflexivity. Qed.

Lemma free_rank_S (this : PolyChord) (k : nat) :
  free_rank this (S k)
  = (free_rank this k
     + match isFixed_ this !! k with Some false => 1 | _ => 0 end)%nat.
Proof.
  unfold free_rank. destruct (isFixed_ this !! k) as [b|] eqn:Hk.
  - rewrite (take_S_r _ _ _ Hk), List.filter_app, length_app.
    destruct b; reflexivity.
  - apply lookup_ge_None in Hk. rewrite !firstn_all2 by lia. lia.
Qed.

Lemma free_rank_mono (this : PolyChord) (a b : nat) :
  (a <= b)%nat -> (free_rank this a <= free_rank this b)%nat.
Proof.
  induction 1 as [|b _ IH]; [lia|]. rewrite free_rank_S. lia.
Qed.

Lemma free_rank_free (this : PolyChord) (i k : nat) :
  (i < k)%nat -> (i < length (isFixed_ this))%nat ->
  nth i (isFixed_ this) false = false ->
  (free_rank this i < free_rank this k)%nat.
Proof.
  intros Hik Hi Hfree.
  pose proof (free_rank_mono this (S i) k ltac:(lia)) as Hmono.
  rewrite free_rank_S in Hmono.
  destruct (lookup_lt_is_Some_2 (isFixed_ this) i Hi) as [b Hb].
  rewrite (nth_Some _ _ _ _ Hb) in Hfree. subst b.
  rewrite Hb in Hmono. lia.
Qed.

(** The loop of [logLike] after its first [k] turns. *)
Lemma logLike_prefix (this : PolyChord) (theta : nat -> R) (k : nat) :
  (k <= length (isFixed_ this))%nat ->
  (k <= length (paramsCurrent_ this))%nat ->
  let st := fold_left (logLike_step this theta) (seq 0 k)
                      (paramsCurrent_ this, 0%nat) in
  st.2 = free_rank this k /\
  length st.1 = length (paramsCurrent_ this) /\
  forall i,
    nth i st.1 0%R
    = if decide (i < k)%nat
      then if nth i (isFixed_ this) false
           then nth i (paramsFixed_ this) 0%R
           else theta (free_rank this i)
      else nth i (paramsCurrent_ this) 0%R.
Proof.
  induction k as [|k IH]; intros Hk1 Hk2.
  - cbn. auto.
  - destruct (IH ltac:(lia) ltac:(lia)) as (Hj & Hlen & Hcur).
    rewrite seq_S, fold_left_app. cbn [fold_left Nat.add].
    set (st := fold_left (logLike_step this theta) (seq 0 k)
                         (paramsCurrent_ this, 0%nat)) in *.
    cbv zeta in Hj, Hlen, Hcur |- *.
    rewrite free_rank_S.
    destruct (lookup_lt_is_Some_2 (isFixed_ this) k ltac:(lia)) as [b Hb].
    rewrite Hb. unfold logLike_step. rewrite (nth_Some _ _ _ _ Hb).
    destruct b; cbn [fst snd].
    + split; [lia|]. split; [rewrite length_insert; exact Hlen|].
      intros i. rewrite nth_insert_R by lia.
      destruct (decide (k = i)) as [<-|Hne].
      * rewrite decide_True by lia.
        rewrite (nth_Some _ _ _ _ Hb). reflexivity.
      * rewrite Hcur. repeat case_decide; try lia; reflexivity.
    + split; [lia|]. split; [rewrite length_insert; exact Hlen|].
      intros i. rewrite nth_insert_R by lia.
      destruct (decide (k = i)) as [<-|Hne].
      * rewrite decide_True by lia.
        rewrite (nth_Some _ _ _ _ Hb), Hj. reflexivity.
      * rewrite Hcur. repeat case_decide; try lia; reflexivity.
Qed.

Lemma count_fixed_prefix (this : PolyChord) (k : nat) :
  (k <= length (isFixed_ this))%nat ->
  fold_left (fun nFixed i => if nth i (isFixed_ this) false
                             then (nFixed + 1)%Z else nFixed)
            (seq 0 k) 0%Z
  = (Z.of_nat k - Z.of_nat (free_rank this k))%Z.
Proof.
  induction k as [|k IH]; intros Hk; [reflexivity|].
  rewrite seq_S, fold_left_app, IH by lia. cbn [fold_left Nat.add].
  rewrite free_rank_S.
  destruct (lookup_lt_is_Some_2 (isFixed_ this) k ltac:(lia)) as [b Hb].
  rewrite (nth_Some _ _ _ _ Hb), Hb. destruct b; lia.
Qed.

Lemma count_fixed_free (this : PolyChord) :
  sized this ->
  count_fixed this
  = (n_ this - Z.of_nat (free_rank this (Z.to_nat (n_ this))))%Z.
Proof.
  intros (Hn & _ & _ & _ & _ & _ & _ & Hfix).
  unfold count_fixed, indices. rewrite count_fixed_prefix by lia. lia.
Qed.

(** [logLike] lays the parameters out: a fixed parameter gets its fixed
    value, and the parameters that are not fixed get the numbers that
    [theta] points to, in order, one each.  The likelihood is called on
    that vector and the result is minus half of what it gives. *)
Theorem logLike_layout (like_calculate : list R -> Z -> R)
        (this : PolyChord) (theta : nat -> R) :
  sized this ->
  length (paramsCurrent_ (logLike like_calculate this theta).2)
  = Z.to_nat (n_ this) /\
  (forall i, (i < Z.to_nat (n_ this))%nat ->
     nth i (paramsCurrent_ (logLike like_calculate this theta).2) 0%R
     = if nth i (isFixed_ this) false
       then nth i (paramsFixed_ this) 0%R
       else theta (free_rank this i)) /\
  (logLike like_calculate this theta).1
  = (- like_calculate (paramsCurrent_ (logLike like_calculate this theta).2)
                      (n_ this) / 2)%R.
Proof.
  intros (Hn & _ & Hcur & _ & _ & _ & _ & Hfix).
  destruct (logLike_prefix this theta (Z.to_nat (n_ this)) ltac:(lia) ltac:(lia))
    as (_ & Hlen & Hlay).
  unfold logLike, logLike_loop, indices. cbn [fst snd paramsCurrent_].
  split; [rewrite Hlen; exact Hcur|]. split; [|reflexivity].
  intros i Hi. rewrite Hlay, decide_True by done. reflexivity.
Qed.

Lemma logLike_layout_witness :
  length (paramsCurrent_ (logLike (fun _ _ => 0%R) demo_free (fun _ => 7%R)).2)
  = Z.to_nat 1.
Proof.
  apply (logLike_layout (fun _ _ => 0%R) demo_free (fun _ => 7%R)).
  unfold sized. cbn. repeat split; lia.
Defined.

(** [logLike] reads as many numbers of [theta] as there are parameters that
    are not fixed, [n_ - nFixed_] of them: two arrays that agree on those
    give the same result and the same object. *)
Theorem logLike_reads_free_parameters (like_calculate : list R -> Z -> R)
        (this : PolyChord) (theta theta' : nat -> R) :
  sized this ->
  (forall j, (Z.of_nat j < n_ this - count_fixed this)%Z -> theta j = theta' j) ->
  logLike like_calculate this theta = logLike like_calculate this theta'.
Proof.
  intros Hsized Hsame.
  pose proof (count_fixed_free this Hsized) as Hcount.
  destruct Hsized as (Hn & _ & Hcur & _ & _ & _ & _ & Hfix).
  destruct (logLike_prefix this theta (Z.to_nat (n_ this)) ltac:(lia) ltac:(lia))
    as (_ & Hlen & Hlay).
  destruct (logLike_prefix this theta' (Z.to_nat (n_ this)) ltac:(lia) ltac:(lia))
    as (_ & Hlen' & Hlay').
  assert (Heq : (logLike_loop this theta).1 = (logLike_loop this theta').1).
  { unfold logLike_loop, indices. apply (nth_ext _ _ 0%R 0%R); [congruence|].
    intros i _. rewrite Hlay, Hlay'. case_decide as Hi; [|reflexivity].
    destruct (nth i (isFixed_ this) false) eqn:Hfree; [reflexivity|].
    apply Hsame.
    pose proof (free_rank_free this i (Z.to_nat (n_ this)) Hi ltac:(lia) Hfree).
    lia. }
  unfold logLike. rewrite Heq. reflexivity.
Qed.

Lemma logLike_reads_free_parameters_witness :
  logLike (fun v _ => nth 0 v 0%R) demo_free
          (fun j => match j with O => 7%R | _ => 1%R end)
  = logLike (fun v _ => nth 0 v 0%R) demo_free
            (fun j => match j with O => 7%R | _ => 2%R end).
Proof.
  apply logLike_reads_free_parameters.
  - unfold sized. cbn. repeat split; lia.
  - intros [|j] Hj; [reflexivity|].
    change (count_fixed demo_free) with 0%Z in Hj. cbn [n_ demo_free] in Hj. lia.
Defined.

(** *** The run *)

Lemma free_priors_prefix (this : PolyChord) (k : nat) (P : Z * R * R -> Prop) :
  (k <= length (isFixed_ this))%nat ->
  (forall i, (i < k)%nat -> P (prior_at this i)) ->
  let acc :=
    fold_left (fun acc i => if nth i (isFixed_ this) false then acc
                            else acc ++ [(nth i (priorTypes_ this) 0%Z,
                                          nth i (priorMins_ this) 0%R,
                                          nth i (priorMaxs_ this) 0%R)])
              (seq 0 k) [] in
  length acc = free_rank this k /\ Forall P acc.
Proof.
  induction k as [|k IH]; intros Hk HP.
  - cbn. split; [reflexivity|constructor].
  - destruct (IH ltac:(lia) ltac:(intros; apply HP; lia)) as (Hlen & Hall).
    rewrite seq_S, fold_left_app. cbn [fold_left Nat.add]. cbv zeta in *.
    rewrite free_rank_S.
    destruct (lookup_lt_is_Some_2 (isFixed_ this) k ltac:(lia)) as [b Hb].
    rewrite (nth_Some _ _ _ _ Hb), Hb. destruct b.
    + split; [lia|exact Hall].
    + split; [rewrite length_app; cbn; lia|].
      apply Forall_app. split; [exact Hall|].
      constructor; [|constructor]. apply (HP k). lia.
Qed.



Lemma count_fixed_all (this : PolyChord) (k : nat) :
  (forall i, (i < k)%nat -> nth i (isFixed_ this) false = true) ->
  fold_left (fun nFixed i => if nth i (isFixed_ this) false
                             then (nFixed + 1)%Z else nFixed)
            (seq 0 k) 0%Z
  = Z.of_nat k.
Proof.
  induction k as [|k IH]; intros Hall; [reflexivity|].
  rewrite seq_S, fold_left_app, IH by (intros; apply Hall; lia).
  cbn [fold_left Nat.add]. rewrite Hall by lia. lia.
Qed.

(** A run with every parameter fixed throws after it has set [running_],
    and nothing resets it: every later run, of this or of any other object,
    fails the guard at its start. *)
Theorem failed_run_blocks_later_runs
        (poly_run : PolyArgs -> PolyChord -> PolyChord)
        (this other : PolyChord) (res res' : bool) :
  (forall i, (i < Z.to_nat (n_ this))%nat -> nth i (isFixed_ this) false = true) ->
  exists this',
    run poly_run this false res = (Raise CheckFailed, true, this') /\
    run poly_run other true res' = (Raise CheckFailed, true, other).
Proof.
  intros Hall. unfold run.
  assert (Hcount : (count_fixed this <? n_ this)%Z = false).
  { unfold count_fixed, indices. rewrite count_fixed_all by exact Hall.
    apply Z.ltb_ge. lia. }
  cbn [n_ with_nFixed]. rewrite Hcount. eauto.
Qed.

Lemma failed_run_blocks_later_runs_witness :
  exists this',
    run (fun _ p => p) demo_fixed false true
    = (Raise CheckFailed, true, this') /\
    run (fun _ p => p) demo_free true false
    = (Raise CheckFailed, true, demo_free).
Proof.
  apply (failed_run_blocks_later_runs (fun _ p => p)).
  intros [|i] Hi; [reflexivity|]. cbn in Hi. lia.
Defined.

(** *** The file root *)

Lemma rfind_Some (c : ascii) (s : string) (i : nat) :
  rfind c s = Some i ->
  (substring 0 i s
   ++ String c (substring (i + 1) (String.length s - i - 1) s))%string = s /\
  rfind c (substring (i + 1) (String.length s - i - 1) s) = None.
Proof.
  revert i. induction s as [|a s IH]; intros i; [discriminate|].
  cbn [rfind]. destruct (rfind c s) as [j|] eqn:Hj.
  - intros [= <-]. destruct (IH j eq_refl) as (Hs & Hroot).
    cbn [substring Nat.add String.length Nat.sub].
    change (String a (substring 0 j s) ++ ?t)%string
      with (String a (substring 0 j s ++ t)%string).
    rewrite Hs. split; [reflexivity|exact Hroot].
  - destruct (Ascii.eqb_spec a c) as [->|]; [|discriminate].
    intros [= <-]. cbn [substring Nat.add String.length Nat.sub].
    rewrite Nat.sub_0_r, substring_full. split; [reflexivity|exact Hj].
Qed.

(** The file root is cut at its last slash: [root] has no slash, and
    [baseDir], a slash and [root] give the file root back; without a slash
    the directory is [.] and [root] is all of it. *)
Theorem split_fileRoot_round_trip (fileRoot : string) :
  rfind "/" (split_fileRoot fileRoot).2 = None /\
  match rfind "/" fileRoot with
  | None => split_fileRoot fileRoot = ("."%string, fileRoot)
  | Some _ =>
      ((split_fileRoot fileRoot).1
       ++ String "/" (split_fileRoot fileRoot).2)%string = fileRoot
  end.
Proof.
  unfold split_fileRoot. destruct (rfind "/" fileRoot) as [i|] eqn:Hi.
  - destruct (rfind_Some _ _ _ Hi) as (Hs & Hroot).
    destruct i as [|i]; cbn [fst snd].
    + cbn [Nat.add] in Hs, Hroot. rewrite Nat.sub_0_r in Hs, Hroot.
      split; [exact Hroot|].
      destruct fileRoot; [discriminate|exact Hs].
    + split; [exact Hroot|exact Hs].
  - cbn [fst snd]. auto.
Qed.
End PolyChordFacts.

(** ** Cosmological parameters, [cosmological_params.hpp] *)

Section CosmologicalParamsFacts.
Import CosmologicalParamsHpp.

Lemma Rltb_true (a b : R) : (a < b)%R -> Rltb a b = true.
Proof. intros Hab. unfold Rltb. destruct (Rlt_dec a b); [reflexivity|contradiction]. Qed.

Lemma Rltb_false (a b : R) : (b <= a)%R -> Rltb a b = false.
Proof. intros Hab. unfold Rltb. destruct (Rlt_dec a b); [lra|reflexivity]. Qed.

Lemma try_setTemperature_positive (this : CosmologicalParams) (temp : R) :
  (0 < getTemperature this)%R ->
  (0 < getTemperature (try_setTemperature this temp))%R.
Proof.
  intros Hthis. unfold try_setTemperature, setTemperature, Rltb.
  destruct (Rlt_dec 0 temp) as [Hpos|]; [exact Hpos|exact Hthis].
Qed.

(** The photon temperature is positive: it is 2.726 in a new object, a call
    of [setTemperature] with a positive number replaces it, and a call with
    another number throws and leaves it. *)
Theorem temperature_stays_positive (temps : list R) :
  (0 < getTemperature (fold_left try_setTemperature temps CosmologicalParams_new))%R /\
  forall this temp,
    ((0 < temp)%R /\ setTemperature this temp = Ok (mkCosmologicalParams temp)) \/
    ((temp <= 0)%R /\ setTemperature this temp = Raise CheckFailed).
Proof.
  split.
  - assert (Hnew : (0 < getTemperature CosmologicalParams_new)%R).
    { unfold getTemperature, CosmologicalParams_new. cbn. lra. }
    revert Hnew. generalize CosmologicalParams_new.
    induction temps as [|temp temps IH]; intros this Hthis; [exact Hthis|].
    cbn [fold_left]. apply IH, try_setTemperature_positive, Hthis.
  - intros this temp. unfold setTemperature.
    destruct (Rlt_dec 0 temp) as [Hpos|Hneg].
    + left. rewrite (Rltb_true 0 temp Hpos). auto.
    + right. rewrite (Rltb_false 0 temp) by lra. split; [lra|reflexivity].
Qed.

(** An object with degenerate massive neutrinos that passed the four checks
    of its constructor has a positive effective number of relativistic
    species, which makes up [nEff] with the massive ones.  With at least
    one massive neutrino every index below their number gets the same
    mass, not negative, and these masses add up to [sumMNu].  With none,
    which the constructor accepts whatever [sumMNu] is, every index throws:
    no mass can be asked for, and a positive [sumMNu] is carried by no
    particle.  An index that is not below the number of massive neutrinos
    always throws. *)
Theorem degenerate_neutrinos_contract (nEff : R) (nMassive : Z) (sumMNu : R)
        (this : LCDMWithDegenerateNeutrinosParams) :
  LCDMWithDegenerateNeutrinosParams_new nEff nMassive sumMNu = Ok this ->
  (0 < getNEff this)%R /\
  (getNEff this + IZR (getNumNCDM this))%R = nEff /\
  getNumNCDM this = nMassive /\
  (0 <= nMassive)%Z /\
  ((1 <= nMassive)%Z ->
   (forall i, (0 <= i < nMassive)%Z ->
              getNCDMParticleMass this i = Ok (sumMNu / IZR nMassive)%R) /\
   (0 <= sumMNu / IZR nMassive)%R /\
   (IZR nMassive * (sumMNu / IZR nMassive))%R = sumMNu) /\
  (nMassive = 0%Z ->
   forall i, getNCDMParticleMass this i = Raise CheckFailed) /\
  (forall i, ~ (0 <= i < nMassive)%Z ->
     getNCDMParticleMass this i = Raise CheckFailed /\
     getNCDMParticleTemp this i = Raise CheckFailed).
Proof.
  unfold LCDMWithDegenerateNeutrinosParams_new, Rltb.
  destruct (Rlt_dec 0 nEff) as [HnEff|]; [|discriminate].
  destruct (Rlt_dec sumMNu 0) as [|Hsum]; [discriminate|].
  destruct (Z.leb_spec 0 nMassive) as [HnM|]; [|discriminate].
  destruct (Rlt_dec (IZR nMassive) nEff) as [Hlt|]; [|discriminate].
  cbn. intros [= <-]. unfold getNEff, getNumNCDM, getNCDMParticleMass,
    getNCDMParticleTemp. cbn [nEff_ nMassive_ sumMNu_].
  assert (Hout : forall i, ~ (0 <= i < nMassive)%Z ->
                           ((0 <=? i)%Z && (i <? nMassive)%Z) = false).
  { intros i Hi.
    destruct (Z.leb_spec 0 i), (Z.ltb_spec i nMassive); try reflexivity. lia. }
  split; [lra|]. split; [lra|]. split; [reflexivity|]. split; [exact HnM|].
  split; [|split].
  - intros Hone. assert (HM : (0 < IZR nMassive)%R) by (apply IZR_lt; lia).
    split; [|split].
    + intros i [Hlo Hhi].
      rewrite (proj2 (Z.leb_le _ _) Hlo), (proj2 (Z.ltb_lt _ _) Hhi). reflexivity.
    + apply Rmult_le_pos; [lra|]. apply Rlt_le, Rinv_0_lt_compat, HM.
    + field. lra.
  - intros Hzero i. rewrite Hout by lia. reflexivity.
  - intros i Hi. rewrite (Hout i Hi). split; reflexivity.
Qed.

Lemma degenerate_neutrinos_contract_witness :
  (0 < getNEff (mkDegenerateNeutrinos 3 0 1))%R.
Proof.
  apply (degenerate_neutrinos_contract 3 0 1 (mkDegenerateNeutrinos 3 0 1)).
  unfold LCDMWithDegenerateNeutrinosParams_new.
  rewrite (Rltb_true 0 3), (Rltb_false 1 0) by lra.
  reflexivity.
Defined.
End CosmologicalParamsFacts.
